(** * macpack: dependency collection and patch planning (macpack/patcher.py)

    A shallow embedding of [collect], [patch], [get_dest_and_loader_path],
    the printing helpers and [main], with the objects of the dependency graph
    kept in an explicit store so that Python's aliasing is visible. *)

From stdpp Require Import gmap strings list pretty.

Open Scope string_scope.
Open Scope list_scope.
Open Scope nat_scope.

(** ** Paths

    A [pathlib.PurePath] on POSIX, as pathlib holds it: whether it starts at
    the root, and its components (never empty, never ["."]; [".."] is kept). *)

Record PurePath := { anchored : bool; parts : list string }.

#[global] Instance PurePath_eq_dec : EqDecision PurePath.
Proof. solve_decision. Defined.

#[global] Instance PurePath_inhabited : Inhabited PurePath :=
  populate {| anchored := false; parts := [] |}.

(** [p.is_absolute()] *)
Definition is_absolute (p : PurePath) : bool := anchored p.

(** [p.name]: the final component, or the empty string. *)
Definition name (p : PurePath) : string := List.last (parts p) "".

(** [p.parent] *)
Definition parent (p : PurePath) : PurePath :=
  {| anchored := anchored p; parts := removelast (parts p) |}.

(** [p / q] for a path [q] *)
Definition joinpath (p q : PurePath) : PurePath :=
  if anchored q then q
  else {| anchored := anchored p; parts := parts p ++ parts q |}.

(** [p / n] for a string [n] that is a [name]: one component, or empty. *)
Definition joinname (p : PurePath) (n : string) : PurePath :=
  if decide (n = "") then p
  else {| anchored := anchored p; parts := parts p ++ [n] |}.

(** [str(p)] *)
Definition str (p : PurePath) : string :=
  if anchored p then "/" +:+ String.concat "/" (parts p)
  else match parts p with
       | [] => "."
       | _ => String.concat "/" (parts p)
       end.

(** [PurePath(s)] for a one-component string. *)
Definition PurePath1 (s : string) : PurePath :=
  {| anchored := false; parts := [s] |}.

(** *** os.path on component lists *)

(** One round of the loop of [posixpath.normpath]. *)
Definition norm_step (initial_slashes : bool) (new_comps : list string)
    (comp : string) : list string :=
  if bool_decide (comp = "" ∨ comp = ".") then new_comps
  else if bool_decide (comp ≠ "..")
          || (negb initial_slashes && bool_decide (new_comps = []))
          || bool_decide (List.last new_comps "" = ".." ∧ new_comps ≠ [])
       then new_comps ++ [comp]
       else removelast new_comps.

Definition normpath (initial_slashes : bool) (comps : list string) : list string :=
  foldl (norm_step initial_slashes) [] comps.

(** [posixpath.abspath]: the components of the absolute, normalised path;
    [cwd] holds the components of the working directory. *)
Definition abspath (cwd : list string) (p : PurePath) : list string :=
  normpath true (if anchored p then parts p else cwd ++ parts p).

(** Length of the common prefix of two component lists ([commonprefix]). *)
Fixpoint commonprefix (a b : list string) : nat :=
  match a, b with
  | x :: a', y :: b' => if decide (x = y) then S (commonprefix a' b') else 0
  | _, _ => 0
  end.

(** [posixpath.relpath(path, start)], as the list [rel_list]; the empty list
    stands for the result ["."]. *)
Definition relpath (cwd : list string) (p start : PurePath) : list string :=
  let start_list := abspath cwd start in
  let path_list := abspath cwd p in
  let i := commonprefix start_list path_list in
  replicate (length start_list - i) ".." ++ drop i path_list.

(** Components as [normpath] leaves them in an absolute path: none is
    empty, ["."] or [".."]. *)
Definition normalised (comps : list string) : Prop :=
  Forall (fun c => c ≠ "" ∧ c ≠ "." ∧ c ≠ "..") comps.

(** ** Dependency objects and the store *)

(** Objects are named by their position in the store. *)
Abbreviation obj := nat (only parsing).

Record Dependency := {
  path : PurePath;
  referred_as : gset string;
  dependencies : list obj
}.

#[global] Instance Dependency_inhabited : Inhabited Dependency :=
  populate {| path := inhabitant; referred_as := ∅; dependencies := [] |}.

Definition set_referred_as (d : Dependency) (r : gset string) : Dependency :=
  {| path := path d; referred_as := r; dependencies := dependencies d |}.

Definition set_dependencies (d : Dependency) (ds : list obj) : Dependency :=
  {| path := path d; referred_as := referred_as d; dependencies := ds |}.

(** Exceptions and results of code that may raise or loop. *)
Inductive result (A : Type) : Type :=
  | Ok (a : A)
  | ValueError
  | OutOfFuel.
Arguments Ok {A} a.
Arguments ValueError {A}.
Arguments OutOfFuel {A}.

Definition bind {A B} (m : result A) (k : A → result B) : result B :=
  match m with
  | Ok a => k a
  | ValueError => ValueError
  | OutOfFuel => OutOfFuel
  end.

Fixpoint foldM {A B} (f : A → B → result A) (a : A) (l : list B) : result A :=
  match l with
  | [] => Ok a
  | x :: l' => bind (f a x) (fun a' => foldM f a' l')
  end.

(** ** The state of [collect], the command line, and what a run leaves behind *)

(** What [patch] does to the world: [os.makedirs], [shutil.copyfile] and
    the [install_name_tool] processes, in order. *)
Inductive event :=
  | Makedirs (dir : string)
  | Copyfile (src dst : string)
  | Exec (pargs : list string).

Record patch_result := {
  p_events : list event;
  p_stdout : list string;
  p_stderr : list string;
  PatchError : bool          (* raised at line 114 *)
}.

Record Args := {
  file : PurePath;
  verbose : bool;
  dry_run : bool;
  destination : PurePath
}.

Inductive status :=
  | Exit (code : Z)          (* [sys.exit], or 0 when [main] returns *)
  | Uncaught_ValueError
  | Out_of_fuel.

Record main_result := {
  m_stdout : list string;
  m_stderr : list string;
  m_events : list event;
  m_status : status
}.

Record collect_state := {
  heap : list Dependency;
  failed_paths : list string;
  all_resolved : list obj;
  stack : list (list obj)     (* top of the stack first *)
}.

(** ** Example inputs

    Paths, a system-library predicate, and inspections, file systems and
    tools given as tables, for the scenarios of the specification. *)

Definition absolute (l : list string) : PurePath := {| anchored := true; parts := l |}.
Definition relative (l : list string) : PurePath := {| anchored := false; parts := l |}.

(** Everything under /usr/lib or /System is part of the system. *)
Definition under_usr_lib_or_System (p : PurePath) : bool :=
  anchored p
  && (bool_decide (take 2 (parts p) = ["usr"; "lib"])
      || bool_decide (take 1 (parts p) = ["System"])).

Definition table {A} (t : list (PurePath * A)) (d : A) (p : PurePath) : A :=
  default d (snd <$> (snd <$> list_find (fun e => e.1 = p) t)).

Definition inspect_table
    (t : list (PurePath * (list (string * PurePath) * list string)))
    : PurePath → list (string * PurePath) * list string :=
  table t ([], []).

Definition resolve_table (t : list (PurePath * PurePath)) (p : PurePath) : option PurePath :=
  snd <$> (snd <$> list_find (fun e => e.1 = p) t).

(** The inspection that reports the same references and no failure. *)
Definition without_failures (inspect : PurePath → list (string * PurePath) * list string)
    : PurePath → list (string * PurePath) * list string :=
  fun p => ((inspect p).1, []).

(** A tool that always succeeds, and one that fails on one file. *)
Definition tool_ok : nat → list string → Z * string * string :=
  fun _ _ => (0%Z, "", "").

Definition tool_failing_on (f : string) : nat → list string → Z * string * string :=
  fun _ pargs => if decide (pargs !! 1 = Some f) then (1%Z, "", "no such file")
                 else (0%Z, "", "").

Definition nothing_exists : string → bool := fun _ => false.

Definition libSystem : PurePath := absolute ["usr"; "lib"; "libSystem.B.dylib"].
Definition app : PurePath := absolute ["opt"; "app"; "bin"; "app"].
Definition libfoo : PurePath := absolute ["opt"; "foo"; "lib"; "libfoo.dylib"].
Definition libA : PurePath := absolute ["opt"; "lib"; "libA.dylib"].
Definition libB : PurePath := absolute ["opt"; "lib"; "libB.dylib"].
Definition libC : PurePath := absolute ["opt"; "lib"; "libC.dylib"].

(** Scenario 1: [app] needs [libfoo.dylib] and a system library. *)
Definition scenario1 : PurePath → list (string * PurePath) * list string :=
  inspect_table
    [(app, ([("/opt/foo/lib/libfoo.dylib", libfoo);
             ("/usr/lib/libSystem.B.dylib", libSystem)], []));
     (libfoo, ([("/usr/lib/libSystem.B.dylib", libSystem)], []))].

(** Scenario 2: [app] needs [libA] and [libB], which refer to [libC] by
    different strings. *)
Definition scenario2 : PurePath → list (string * PurePath) * list string :=
  inspect_table
    [(app, ([("/opt/lib/libA.dylib", libA); ("/opt/lib/libB.dylib", libB)], []));
     (libA, ([("/opt/lib/libC.dylib", libC)], []));
     (libB, ([("@rpath/libC.dylib", libC)], []))].

(** Scenario 3: a reference of [libA] cannot be resolved. *)
Definition scenario3 : PurePath → list (string * PurePath) * list string :=
  inspect_table
    [(app, ([("/opt/lib/libA.dylib", libA)], []));
     (libA, ([("/usr/lib/libSystem.B.dylib", libSystem)], ["@rpath/libB.dylib"]))].

(** Scenario 4: three dependencies. *)
Definition scenario4 : PurePath → list (string * PurePath) * list string :=
  inspect_table
    [(app, ([("/opt/lib/libA.dylib", libA); ("/opt/lib/libB.dylib", libB);
             ("/opt/lib/libC.dylib", libC)], []))].

(** A cycle: [libA] needs [libB], which needs [libA]. *)
Definition cycle : PurePath → list (string * PurePath) * list string :=
  inspect_table
    [(libA, ([("/opt/lib/libB.dylib", libB)], []));
     (libB, ([("/opt/lib/libA.dylib", libA)], []))].

(** [app] names [libfoo.dylib] twice, by two strings. *)
Definition twice : PurePath → list (string * PurePath) * list string :=
  inspect_table
    [(app, ([("/opt/foo/lib/libfoo.dylib", libfoo);
             ("/opt/foo/lib/libfoo.1.dylib", libfoo)], []))].

(** A library that names itself among its references. *)
Definition selfish : PurePath → list (string * PurePath) * list string :=
  inspect_table [(libA, ([("/opt/lib/libA.dylib", libA)], []))].

Definition resolve_app : PurePath → option PurePath :=
  resolve_table [(relative ["bin"; "app"], app)].

Definition resolve_libs : PurePath → option PurePath :=
  resolve_table [(relative ["libA.dylib"], libA); (relative ["libSystem.B.dylib"], libSystem)].

Definition args_app : Args :=
  {| file := relative ["bin"; "app"]; verbose := false; dry_run := false;
     destination := relative [".."; "libs"] |}.

Definition args_app_verbose : Args :=
  {| file := relative ["bin"; "app"]; verbose := true; dry_run := false;
     destination := relative [".."; "libs"] |}.


(** A library bundled into an absolute destination. *)
Definition args_lib (f : string) : Args :=
  {| file := relative [f]; verbose := false; dry_run := false;
     destination := absolute ["opt"; "bundle"] |}.

(** The state with the unresolved references forgotten. *)
Definition forget_failures (st : collect_state) : collect_state :=
  {| heap := heap st; failed_paths := []; all_resolved := all_resolved st;
     stack := stack st |}.

Section Patcher.

Set Default Proof Using "Type".

(** Modelled from the spec: the system-library predicate of
    [Dependency.is_sys] (macpack/dependency.py is not among the sources),
    "a configurable classification of canonical paths". *)
Variable is_sys_path : PurePath → bool.

(** Modelled from the spec: the Inspection Collaborator behind
    [Dependency.find_dependencies]: for the file at a canonical path, its
    references as (reference string, canonical path) and the references
    that could not be resolved. *)
Variable inspect : PurePath → list (string * PurePath) * list string.

(** Modelled from the spec: [Dependency(reference, file_path)]; a new node
    knows the one string it was referred by and has no edges yet. *)
Definition new_Dependency (reference : string) (file_path : PurePath) : Dependency :=
  {| path := file_path; referred_as := {[reference]}; dependencies := [] |}.

(** Modelled from the spec: [Dependency.__eq__], canonical path is the
    identity key. *)
Definition dep_eq (h : list Dependency) (a b : obj) : Prop :=
  path (h !!! a) = path (h !!! b).

#[global] Instance dep_eq_dec h a b : Decision (dep_eq h a b).
Proof. unfold dep_eq. apply _. Defined.

(** Modelled from the spec: [Dependency.is_sys]. *)
Definition is_sys (h : list Dependency) (d : obj) : bool :=
  is_sys_path (path (h !!! d)).

(** Modelled from the spec: [existing.merge(dep)] adds the reference
    strings of [dep] to those of [existing]. *)
Definition merge (h : list Dependency) (existing dep : obj) : list Dependency :=
  <[existing := set_referred_as (h !!! existing)
                  (referred_as (h !!! existing) ∪ referred_as (h !!! dep))]> h.

(** Modelled from the spec: [item.find_dependencies()] creates one new node
    per reference the inspection reports, stores them as the item's
    [dependencies] and returns them with the unresolved references. *)
Definition find_dependencies (h : list Dependency) (item : obj)
    : list Dependency * (list obj * list string) :=
  let '(refs, fails) := inspect (path (h !!! item)) in
  let deps := seq (length h) (length refs) in
  let h1 := h ++ ((fun rp => new_Dependency rp.1 rp.2) <$> refs) in
  (<[item := set_dependencies (h1 !!! item) deps]> h1, (deps, fails)).

(** Modelled from the spec: [item.get_direct_dependencies()], the outgoing
    edges: "its direct, non-system dependencies". *)
Definition get_direct_dependencies (h : list Dependency) (item : obj) : list obj :=
  filter (fun d => is_sys h d = false) (dependencies (h !!! item)).

(** *** collect *)

(** Line 27: [asyncio.gather] over [d.find_dependencies()] for the
    [current_items]: the results in the order of the items. *)
Fixpoint gather (h : list Dependency) (items : list obj)
    : list Dependency * list (list obj * list string) :=
  match items with
  | [] => (h, [])
  | d :: ds =>
      let '(h1, r) := find_dependencies h d in
      let '(h2, rs) := gather h1 ds in
      (h2, r :: rs)
  end.

(** Lines 41-46: the node already seen for [dep], looked up by [==] first
    in [all_resolved], then in [to_resolve]. *)
Definition existing (h : list Dependency) (dep : obj)
    (all_resolved to_resolve : list obj) : option obj :=
  match list_find (fun e => dep_eq h e dep) all_resolved with
  | Some (_, e) => Some e
  | None =>
      match list_find (fun e => dep_eq h e dep) to_resolve with
      | Some (_, e) => Some e
      | None => None
      end
  end.

(** Lines 39-54: the body of [for dep in item_deps]. *)
Definition process_dep (all_resolved : list obj) (item : obj)
    (s : list Dependency * list obj) (dep : obj)
    : result (list Dependency * list obj) :=
  let '(h, to_resolve) := s in
  if is_sys h dep then Ok s
  else
    match existing h dep all_resolved to_resolve with
    | Some existing_dep =>
        let h1 := merge h existing_dep dep in
        let deps := dependencies (h1 !!! item) in
        match list_find (fun x => dep_eq h1 x dep) deps with
        | Some (k, _) =>
            Ok (<[item := set_dependencies (h1 !!! item) (<[k := existing_dep]> deps)]> h1,
                to_resolve)
        | None => ValueError
        end
    | None => Ok (h, to_resolve ++ [dep])
    end.

(** Lines 34-54: [for item, item_deps in zip(...)]. *)
Definition process_items (all_resolved : list obj)
    (s : list Dependency * list obj) (zipped : list (obj * list obj))
    : result (list Dependency * list obj) :=
  foldM (fun s '(item, item_deps) => foldM (process_dep all_resolved item) s item_deps)
        s zipped.

(** Lines 25-57: one round of the [while] loop, for the popped
    [current_items] and the rest of the stack. *)
Definition wave (st : collect_state) (current_items : list obj)
    (rest : list (list obj)) : result collect_state :=
  let all_resolved1 := all_resolved st ++ current_items in
  let '(h1, current_deps_and_fails) := gather (heap st) current_items in
  let failed1 := failed_paths st ++ concat (snd <$> current_deps_and_fails) in
  let current_items_deps := fst <$> current_deps_and_fails in
  bind (process_items all_resolved1 (h1, []) (zip current_items current_items_deps))
    (fun '(h2, to_resolve) =>
       Ok {| heap := h2; failed_paths := failed1; all_resolved := all_resolved1;
             stack := if decide (0 < length to_resolve) then to_resolve :: rest else rest |}).

(** Lines 23-57: the [while len(stack) > 0] loop. *)
Fixpoint collect_loop (fuel : nat) (st : collect_state) : result collect_state :=
  match stack st with
  | [] => Ok st
  | current_items :: rest =>
      match fuel with
      | 0 => OutOfFuel
      | S fuel' => bind (wave st current_items rest) (collect_loop fuel')
      end
  end.

(** Lines 59-66: what [collect] prints on stderr. *)
Definition collect_warnings (verbose : bool) (root_name : string)
    (failed : list string) : list string :=
  if decide (0 < length failed) then
    ["Some of the paths in the dependency tree could not be resolved";
     "Maybe you already bundled " +:+ root_name +:+ "?"]
    ++ (if verbose then map (fun p => "Could not resolve " +:+ p) failed
        else ["Run with -v to see failed paths"])
  else [].

(** [collect(root_dep)] on a store [h]: the final state of the loop (the
    locals [all_resolved] and [failed_paths] with the store) and the lines
    on stderr. *)
Definition collect (fuel : nat) (verbose : bool) (h : list Dependency)
    (root_dep : obj) : result (collect_state * list string) :=
  bind (collect_loop fuel {| heap := h; failed_paths := []; all_resolved := [];
                             stack := [[root_dep]] |})
    (fun st => Ok (st, collect_warnings verbose (name (path (heap st !!! root_dep)))
                        (failed_paths st))).

(** Modelled from the spec: [d.get_dependencies()], the dependency closure
    of a node: the non-system nodes reachable from it over the outgoing
    edges, each canonical path once, in discovery order (wave by wave), the
    node itself left out. [closure] is the traversal, [visit] its test for
    a node seen before. *)
Definition visit (h : list Dependency) (seen : list obj) (d : obj) : list obj :=
  if decide (Exists (fun e => dep_eq h e d) seen) then seen else seen ++ [d].

Fixpoint closure (fuel : nat) (h : list Dependency) (seen frontier : list obj)
    : list obj :=
  match fuel with
  | 0 => seen
  | S fuel' =>
      let seen' := foldl (visit h) seen (flat_map (get_direct_dependencies h) frontier) in
      match drop (length seen) seen' with
      | [] => seen
      | next => closure fuel' h seen' next
      end
  end.

Definition get_dependencies (h : list Dependency) (d : obj) : list obj :=
  drop 1 (closure (length h) h [d] [d]).

(** *** patch *)

(** [os.path.exists] before the call. *)
Variable path_exists : string → bool.

(** The Patch Primitive: what the [k]-th process started by [patch] returns
    for its arguments: return code, stdout and stderr. *)
Variable install_name_tool : nat → list string → Z * string * string.

(** Lines 69-71 *)
Definition ensure_dir (p : PurePath) : list event :=
  if negb (path_exists (str p)) then [Makedirs (str p)] else [].

(** Line 82 *)
Definition loader_path : PurePath := PurePath1 "@loader_path".

(** Lines 94-95 *)
Definition new_path (h : list Dependency) (root_item : obj)
    (root_loader_path : PurePath) (item dep : obj) : PurePath :=
  let new_path := if decide (¬ dep_eq h item root_item) then loader_path
                  else root_loader_path in
  if decide (¬ dep_eq h dep root_item) then new_path else loader_path.

(** Lines 84-96: the argument list of the process for one item. *)
Definition patch_args (h : list Dependency) (root_item : obj)
    (dest_path root_loader_path : PurePath) (item : obj) : list string :=
  let pargs :=
    if decide (dep_eq h item root_item)
    then ["install_name_tool"; str (path (h !!! root_item))]
    else ["install_name_tool"; str (joinname dest_path (name (path (h !!! item))))] in
  let pargs := pargs ++ ["-id"; str (joinname loader_path (name (path (h !!! item))))] in
  foldl (fun pargs dep =>
           foldl (fun pargs reference =>
                    pargs ++ ["-change"; reference;
                              str (joinname (new_path h root_item root_loader_path item dep)
                                     (name (path (h !!! dep))))])
                 pargs (elements (referred_as (h !!! dep))))
        pargs (get_direct_dependencies h item).

(** Lines 81-103: one round of [for item in items]. *)
Definition patch_item (h : list Dependency) (root_item : obj)
    (dest_path root_loader_path : PurePath)
    (acc : list event * list (Z * string * string)) (item : obj)
    : list event * list (Z * string * string) :=
  let '(events, process_results) := acc in
  let copy :=
    if decide (dep_eq h item root_item) then []
    else [Copyfile (str (path (h !!! item)))
                   (str (joinname dest_path (name (path (h !!! item)))))] in
  let pargs := patch_args h root_item dest_path root_loader_path item in
  (events ++ copy ++ [Exec pargs],
   process_results ++ [install_name_tool (length process_results) pargs]).

(** Lines 105-111: one round of the loop over the results. *)
Definition report (verbose : bool) (h : list Dependency)
    (acc : bool * list string * list string)
    (rd : Z * string * string * obj) : bool * list string * list string :=
  let '(did_error, out, err) := acc in
  let '(returncode, _, perr, dep) := rd in
  if decide (returncode ≠ 0%Z) then
    (true, out ++ (if verbose then [perr] else []),
     err ++ ["Error patching " +:+ name (path (h !!! dep))])
  else acc.

(** [patch(root_item, dest_path, root_loader_path)] *)
Definition patch (verbose : bool) (h : list Dependency) (root_item : obj)
    (dest_path root_loader_path : PurePath) : patch_result :=
  let items := root_item :: get_dependencies h root_item in
  let '(events, process_results) :=
    foldl (patch_item h root_item dest_path root_loader_path)
          (ensure_dir dest_path, []) items in
  let '(did_error, out, err) :=
    foldl (report verbose h) (false, [], []) (zip process_results items) in
  {| p_events := events; p_stdout := out; p_stderr := err; PatchError := did_error |}.

(** *** Output before patching *)

Definition tab : string := String (Ascii.ascii_of_nat 9) EmptyString.

(** Lines 120 and 131 *)
Definition count_line (deps : list obj) : string :=
  pretty (length deps) +:+ " total non-system dependenc"
    +:+ (if decide (length deps = 1) then "y" else "ies").

(** [deps.index(d)], which raises [ValueError] when nothing equals [d]. *)
Definition index (h : list Dependency) (d : obj) (deps : list obj) : option nat :=
  fst <$> list_find (fun e => dep_eq h e d) deps.

(** Line 123 *)
Definition dep_slots (h : list Dependency) (deps : list obj) (dep : obj)
    : option (list string) :=
  mapM (fun d => (fun k => pretty (k + 1)) <$> index h d deps)
       (get_direct_dependencies h dep).

(** Lines 122-125: the lines printed from position [i] on, and whether the
    loop ran to its end ([false]: [ValueError] at line 123). *)
Fixpoint print_slots (h : list Dependency) (deps : list obj) (i : nat)
    (l : list obj) : list string * bool :=
  match l with
  | [] => ([], true)
  | dep :: l' =>
      match dep_slots h deps dep with
      | None => ([], false)
      | Some slots =>
          let s := if decide (0 < length slots) then String.concat ", " slots
                   else "No dependencies" in
          let '(rest, ok) := print_slots h deps (S i) l' in
          ((pretty (i + 1) +:+ tab +:+ name (path (h !!! dep)) +:+ " -> " +:+ s) :: rest, ok)
      end
  end.

(** [print_deps_minimal(d)] *)
Definition print_deps_minimal (h : list Dependency) (d : obj) : list string * bool :=
  let deps := get_dependencies h d in
  let '(rest, ok) := print_slots h deps 0 deps in
  (count_line deps :: rest, ok).

(** [print_deps(d)] *)
Definition print_deps (h : list Dependency) (d : obj) : list string :=
  let deps := get_dependencies h d in
  count_line deps ::
    flat_map (fun dep =>
                name (path (h !!! dep)) ::
                  map (fun dep_dep => "-> " +:+ name (path (h !!! dep_dep)))
                      (get_dependencies h dep))
             deps.

(** [prepatch_output(d)] *)
Definition prepatch_output (args : Args) (h : list Dependency) (d : obj)
    : list string * bool :=
  let '(lines, ok) :=
    if verbose args then (print_deps h d, true) else print_deps_minimal h d in
  (("Patching " +:+ str (file args)) :: lines, ok).

(** *** Destination and loader path *)

(** [os.getcwd()], as components. *)
Variable cwd : list string.

(** [get_dest_and_loader_path(root_dep_path, dest_path)] *)
Definition get_dest_and_loader_path (root_dep_path dest_path : PurePath)
    : PurePath * PurePath :=
  if is_absolute dest_path then (dest_path, dest_path)
  else
    let dest_path := joinpath (parent root_dep_path) dest_path in
    let rel_to_binary := relpath cwd dest_path (parent root_dep_path) in
    (dest_path, {| anchored := false; parts := "@loader_path" :: rel_to_binary |}).

(** *** main *)

(** [pathlib.PosixPath(p).resolve(strict=True)]; [None] is
    [FileNotFoundError]. *)
Variable resolve : PurePath → option PurePath.

(** Line 183 *)
Definition success_line (args : Args) (n_deps : nat) : string :=
  name (file args) +:+ " + " +:+ pretty n_deps +:+ " dependenc"
    +:+ (if decide (n_deps = 1) then "y" else "ies") +:+ " successfully patched".

(** [main()] *)
Definition main (fuel : nat) (args : Args) : main_result :=
  match resolve (file args) with
  | None =>
      {| m_stdout := []; m_stderr := [str (file args) +:+ " does not exist!"];
         m_events := []; m_status := Exit 1 |}
  | Some p =>
      let d : obj := 0 in
      match collect fuel (verbose args) [new_Dependency (str (file args)) p] d with
      | OutOfFuel =>
          {| m_stdout := []; m_stderr := []; m_events := []; m_status := Out_of_fuel |}
      | ValueError =>
          {| m_stdout := []; m_stderr := []; m_events := [];
             m_status := Uncaught_ValueError |}
      | Ok (st, warnings) =>
          let h := heap st in
          let '(dest_path, root_loader_path) :=
            get_dest_and_loader_path (path (h !!! d)) (destination args) in
          let '(out, ok) := prepatch_output args h d in
          if negb ok then
            {| m_stdout := out; m_stderr := warnings; m_events := [];
               m_status := Uncaught_ValueError |}
          else if negb (dry_run args) then
            let r := patch (verbose args) h d dest_path root_loader_path in
            if PatchError r then
              {| m_stdout := out ++ p_stdout r;
                 m_stderr := warnings ++ p_stderr r
                             ++ (if negb (verbose args)
                                 then ["Run with -v for more information"] else []);
                 m_events := p_events r; m_status := Exit 1 |}
            else
              {| m_stdout := out ++ p_stdout r
                             ++ [""; success_line args (length (get_dependencies h d))];
                 m_stderr := warnings ++ p_stderr r;
                 m_events := p_events r; m_status := Exit 0 |}
          else
            {| m_stdout := out; m_stderr := warnings; m_events := [];
               m_status := Exit 0 |}
      end
  end.

(** *** The patch plan in the words of the specification (4.2, 4.3) *)

(** The file the Patch Primitive is run on: the root in place, the others
    in the destination directory. *)
Definition patched_file (h : list Dependency) (root : obj) (dest_path : PurePath)
    (item : obj) : string :=
  if decide (dep_eq h item root) then str (path (h !!! root))
  else str (joinname dest_path (name (path (h !!! item)))).

(** [newIdentifier]: the loader-relative marker joined with the declared
    name. *)
Definition new_identifier (h : list Dependency) (item : obj) : string :=
  str (joinname loader_path (name (path (h !!! item)))).

(** The new reference string of an edge (consumer, dependency). *)
Definition new_reference (h : list Dependency) (root : obj)
    (root_loader_path : PurePath) (consumer dependency : obj) : string :=
  if decide (dep_eq h dependency root)
  then str (joinname loader_path (name (path (h !!! root))))
  else if decide (dep_eq h consumer root)
  then str (joinname root_loader_path (name (path (h !!! dependency))))
  else str (joinname loader_path (name (path (h !!! dependency)))).

(** One old-to-new pair per outgoing edge and reference string. *)
Definition rewrites (h : list Dependency) (root : obj) (root_loader_path : PurePath)
    (item : obj) : list (string * string) :=
  flat_map (fun dep =>
              map (fun r => (r, new_reference h root root_loader_path item dep))
                  (elements (referred_as (h !!! dep))))
           (get_direct_dependencies h item).

(** The invocation [patch(filePath, newIdentifier, rewrites)]. *)
Definition primitive_args (file_path new_id : string) (rw : list (string * string))
    : list string :=
  ["install_name_tool"; file_path; "-id"; new_id]
  ++ flat_map (fun on => ["-change"; on.1; on.2]) rw.

Definition plan_args (h : list Dependency) (root : obj)
    (dest_path root_loader_path : PurePath) (item : obj) : list string :=
  primitive_args (patched_file h root dest_path item) (new_identifier h item)
                 (rewrites h root root_loader_path item).

(** The processes among the events, and the copies. *)
Definition execs (evs : list event) : list (list string) :=
  omap (fun e => match e with Exec a => Some a | _ => None end) evs.

Definition copies (evs : list event) : list (string * string) :=
  omap (fun e => match e with Copyfile a b => Some (a, b) | _ => None end) evs.

(** The results of the processes of [patch], item by item, and the items
    whose process returned a non-zero code. *)
Definition process_results (h : list Dependency) (root_item : obj)
    (dest_path root_loader_path : PurePath) (items : list obj)
    : list (Z * string * string) :=
  imap (fun k item =>
          install_name_tool k (patch_args h root_item dest_path root_loader_path item))
       items.

Definition failing (h : list Dependency) (root_item : obj)
    (dest_path root_loader_path : PurePath) (items : list obj)
    : list (Z * string * string * obj) :=
  filter (fun rd => rd.1.1.1 ≠ 0%Z)
         (zip (process_results h root_item dest_path root_loader_path items) items).

(** *** Notions used to state the properties of [collect] *)

(** The canonical paths reachable from the root over references to
    non-system files: the closure that discovery is to compute. *)
Inductive reach (root_path : PurePath) : PurePath → Prop :=
  | reach_root : reach root_path root_path
  | reach_step p r q :
      reach root_path p → (r, q) ∈ (inspect p).1 → is_sys_path q = false →
      reach root_path q.

(** A finite reference graph: a list of paths that holds the root and every
    non-system file referenced from a file of the list. *)
Definition closed_universe (root_path : PurePath) (U : list PurePath) : Prop :=
  root_path ∈ U
  ∧ Forall (fun p => Forall (fun rq : string * PurePath =>
                               is_sys_path rq.2 = false → rq.2 ∈ U)
                            (inspect p).1) U.

#[global] Instance closed_universe_dec root_path U :
  Decision (closed_universe root_path U).
Proof. unfold closed_universe. apply _. Defined.

(** The states of the [while] loop of [collect], from the first on. *)
Inductive loop_state (h0 : list Dependency) (root_dep : obj) : collect_state → Prop :=
  | loop_init :
      loop_state h0 root_dep
        {| heap := h0; failed_paths := []; all_resolved := []; stack := [[root_dep]] |}
  | loop_wave st current_items rest st' :
      loop_state h0 root_dep st →
      stack st = current_items :: rest →
      wave st current_items rest = Ok st' →
      loop_state h0 root_dep st'.

(** The nodes known to the loop: resolved, or queued on the stack. *)
Definition known (st : collect_state) : list obj :=
  all_resolved st ++ concat (stack st).

(** What holds of every state of the loop. *)
Record collect_inv (root : obj) (root_path : PurePath) (st : collect_state) : Prop := {
  inv_stack : stack st = [] ∨ ∃ W, stack st = [W] ∧ W ≠ [];
  inv_valid : ∀ i, i ∈ known st → i < length (heap st);
  inv_nodup : NoDup ((fun i => path (heap st !!! i)) <$> known st);
  inv_root : ∃ tl, known st = root :: tl
                   ∧ path (heap st !!! root) = root_path
                   ∧ ∀ i, i ∈ tl → is_sys (heap st) i = false;
  inv_reach : ∀ i, i ∈ known st → reach root_path (path (heap st !!! i));
  inv_refs : ∀ i r q,
      i ∈ all_resolved st → (r, q) ∈ (inspect (path (heap st !!! i))).1 →
      is_sys_path q = false →
      ∃ m, m ∈ known st ∧ path (heap st !!! m) = q ∧ r ∈ referred_as (heap st !!! m);
  inv_failed :
    failed_paths st
    = concat ((fun i => (inspect (path (heap st !!! i))).2) <$> all_resolved st);
  inv_deps_paths : ∀ i,
      i ∈ all_resolved st →
      (fun d => path (heap st !!! d)) <$> dependencies (heap st !!! i)
      = snd <$> (inspect (path (heap st !!! i))).1;
  inv_edges : ∀ i k e,
      i ∈ all_resolved st → dependencies (heap st !!! i) !! k = Some e →
      is_sys (heap st) e = false →
      (∀ k' e', k' < k → dependencies (heap st !!! i) !! k' = Some e' →
                path (heap st !!! e') ≠ path (heap st !!! e)) →
      e ∈ known st;
  inv_deps_valid : ∀ i d,
      i ∈ all_resolved st → d ∈ dependencies (heap st !!! i) → d < length (heap st)
}.

(** Where [gather] puts the new nodes: each item with the position of the
    first node made for it, from position [n] on. *)
Fixpoint layout (h : list Dependency) (n : nat) (items : list obj)
    : list (obj * nat) :=
  match items with
  | [] => []
  | c :: cs => (c, n) :: layout h (n + length (inspect (path (h !!! c))).1) cs
  end.

Fixpoint layout_end (h : list Dependency) (n : nat) (items : list obj) : nat :=
  match items with
  | [] => n
  | c :: cs => layout_end h (n + length (inspect (path (h !!! c))).1) cs
  end.

(** The store [h1] after [gather] on the store [h] and the items [W]. *)
Record gathered (h : list Dependency) (W : list obj) (h1 : list Dependency) : Prop := {
  g_length : length h1 = layout_end h (length h) W;
  g_old : ∀ i, i < length h →
      path (h1 !!! i) = path (h !!! i)
      ∧ referred_as (h1 !!! i) = referred_as (h !!! i)
      ∧ (i ∉ W → h1 !!! i = h !!! i);
  g_new : ∀ c s j rq,
      (c, s) ∈ layout h (length h) W →
      (inspect (path (h !!! c))).1 !! j = Some rq →
      h1 !!! (s + j) = new_Dependency rq.1 rq.2;
  g_deps : ∀ c s,
      (c, s) ∈ layout h (length h) W →
      dependencies (h1 !!! c) = seq s (length (inspect (path (h !!! c))).1)
}.

(** What holds while the dependencies of a wave are merged: [h1] is the
    store after [gather], [R] the resolved nodes including the wave [W],
    [L] the layout of the new nodes from position [n0] on, [h] and [T] the
    current store and [to_resolve], [t] the next node to be looked at. *)
Record merge_inv (h1 : list Dependency) (R W : list obj) (L : list (obj * nat))
    (n0 : nat) (h : list Dependency) (T : list obj) (t : nat) : Prop := {
  mi_length : length h = length h1;
  mi_path : ∀ i, path (h !!! i) = path (h1 !!! i);
  mi_refs : ∀ i, referred_as (h1 !!! i) ⊆ referred_as (h !!! i);
  mi_deps_paths : ∀ i,
      (fun d => path (h !!! d)) <$> dependencies (h !!! i)
      = (fun d => path (h1 !!! d)) <$> dependencies (h1 !!! i);
  mi_deps_old : ∀ i, i ∉ W → dependencies (h !!! i) = dependencies (h1 !!! i);
  mi_nodup : NoDup ((fun i => path (h !!! i)) <$> (R ++ T));
  mi_T : ∀ x, x ∈ T → n0 ≤ x < t ∧ is_sys h x = false;
  mi_fresh : ∀ d, t ≤ d → referred_as (h !!! d) = referred_as (h1 !!! d);
  mi_done : ∀ d, n0 ≤ d < t → is_sys h d = false →
      ∃ m, m ∈ R ++ T ∧ path (h !!! m) = path (h !!! d)
           ∧ referred_as (h1 !!! d) ⊆ referred_as (h !!! m);
  mi_pending : ∀ c s k,
      (c, s) ∈ L → k < length (dependencies (h1 !!! c)) → t ≤ s + k →
      dependencies (h !!! c) !! k = Some (s + k);
  mi_edges : ∀ c s k e,
      (c, s) ∈ L → s + k < t → dependencies (h !!! c) !! k = Some e →
      is_sys h e = false →
      (∀ k' e', k' < k → dependencies (h !!! c) !! k' = Some e' →
                path (h !!! e') ≠ path (h !!! e)) →
      e ∈ R ++ T;
  mi_deps_valid : ∀ i d, i ∈ R → d ∈ dependencies (h !!! i) → d < length h
}.

(** The traversal of [get_dependencies] in step with the merging of a wave:
    visiting the outgoing edges looked at so far (those of the items before
    [c], listed in [pre], and the first [j] entries of [c]) from the
    resolved nodes [R] ends with [R] followed by [to_resolve]. *)
Definition trav (R : list obj) (h : list Dependency) (T pre : list obj) (c : obj)
    (j : nat) : Prop :=
  foldl (visit h) R
        (pre ++ filter (fun d => is_sys h d = false) (take j (dependencies (h !!! c))))
  = R ++ T.

(** Where a reference string [r] held by the node [m] comes from: the root
    had it before [collect], or a node of [R] names the file of [m], which
    is no system library, by [r]. *)
Definition reference_origin (h0 : list Dependency) (root : obj)
    (h : list Dependency) (R : list obj) (m : obj) (r : string) : Prop :=
  (m = root ∧ r ∈ referred_as (h0 !!! root))
  ∨ (is_sys_path (path (h !!! m)) = false
     ∧ ∃ c, c ∈ R ∧ (r, path (h !!! m)) ∈ (inspect (path (h !!! c))).1).

(** The reference strings of the known nodes of a state of the loop: the
    root keeps those it had, and every string has an origin. *)
Definition refs_inv (h0 : list Dependency) (root : obj) (st : collect_state) : Prop :=
  referred_as (h0 !!! root) ⊆ referred_as (heap st !!! root)
  ∧ ∀ m r, m ∈ known st → r ∈ referred_as (heap st !!! m) →
           reference_origin h0 root (heap st) (all_resolved st) m r.

(** * Properties *)

(** ** The argument list of a patch invocation *)

Lemma foldl_app_flat_map {A B} (g : list B → A → list B) (f : A → list B) l acc :
  (∀ acc x, g acc x = acc ++ f x) →
  foldl g acc l = acc ++ flat_map f l.
Proof.
  intros Hg. revert acc. induction l as [|x l IH]; intros acc; simpl.
  - by rewrite app_nil_r.
  - rewrite IH, Hg. by rewrite <- app_assoc.
Qed.

Lemma new_path_reference h root rlp item dep :
  str (joinname (new_path h root rlp item dep) (name (path (h !!! dep))))
  = new_reference h root rlp item dep.
Proof.
  unfold new_path, new_reference.
  destruct (decide (dep_eq h dep root)) as [Hd|Hd].
  - rewrite decide_False by (intros Hn; by apply Hn). unfold dep_eq in Hd. by rewrite Hd.
  - rewrite decide_True by done.
    destruct (decide (dep_eq h item root)).
    + by rewrite decide_False by (intros Hn; by apply Hn).
    + by rewrite decide_True by done.
Qed.

Lemma flat_map_rewrites {A} (g : A → string) (e : A → list string) (l : list A) :
  flat_map (fun on : string * string => ["-change"; on.1; on.2])
           (flat_map (fun dep => map (fun r => (r, g dep)) (e dep)) l)
  = flat_map (fun dep => flat_map (fun r => ["-change"; r; g dep]) (e dep)) l.
Proof.
  induction l as [|dep l IH]; simpl; [done|].
  rewrite flat_map_app, IH. f_equal.
  induction (e dep) as [|r rs IHr]; simpl; [done|]. by rewrite IHr.
Qed.

Lemma patch_args_plan h root dest rlp item :
  patch_args h root dest rlp item = plan_args h root dest rlp item.
Proof.
  unfold patch_args, plan_args, primitive_args.
  rewrite (foldl_app_flat_map _
    (fun dep => flat_map (fun r => ["-change"; r; new_reference h root rlp item dep])
                         (elements (referred_as (h !!! dep))))).
  - unfold rewrites, patched_file, new_identifier.
    rewrite flat_map_rewrites.
    by destruct (decide (dep_eq h item root)).
  - intros acc dep.
    apply foldl_app_flat_map. intros acc' r. by rewrite new_path_reference.
Qed.

(** ** The loops of [patch] *)

Lemma patch_items_fold h root dest rlp items evs res :
  foldl (patch_item h root dest rlp) (evs, res) items
  = (evs ++ flat_map (fun item =>
               (if decide (dep_eq h item root) then []
                else [Copyfile (str (path (h !!! item)))
                               (str (joinname dest (name (path (h !!! item)))))])
               ++ [Exec (patch_args h root dest rlp item)]) items,
     res ++ imap (fun k item =>
                    install_name_tool (length res + k) (patch_args h root dest rlp item))
                 items).
Proof.
  revert evs res. induction items as [|item items IH]; intros evs res.
  - simpl. by rewrite !app_nil_r.
  - cbn [foldl]. unfold patch_item at 2. rewrite IH. f_equal.
    + cbn [flat_map]. by rewrite <- !app_assoc.
    + rewrite imap_cons, Nat.add_0_r, <- app_assoc. simpl. do 2 f_equal.
      apply imap_ext. intros k x _. simpl. rewrite length_app. simpl.
      f_equal. lia.
Qed.

Lemma execs_app e1 e2 : execs (e1 ++ e2) = execs e1 ++ execs e2.
Proof. apply omap_app. Qed.

Lemma copies_app e1 e2 : copies (e1 ++ e2) = copies e1 ++ copies e2.
Proof. apply omap_app. Qed.

Lemma execs_ensure_dir p : execs (ensure_dir p) = [].
Proof. unfold ensure_dir. by destruct (negb _). Qed.

Lemma execs_items h root dest rlp items :
  execs (flat_map (fun item =>
               (if decide (dep_eq h item root) then []
                else [Copyfile (str (path (h !!! item)))
                               (str (joinname dest (name (path (h !!! item)))))])
               ++ [Exec (patch_args h root dest rlp item)]) items)
  = map (patch_args h root dest rlp) items.
Proof.
  induction items as [|item items IH]; [done|].
  cbn [flat_map map]. rewrite !execs_app, IH.
  by destruct (decide (dep_eq h item root)).
Qed.

Lemma report_fold v h (l : list (Z * string * string * obj)) b out err :
  foldl (report v h) (b, out, err) l
  = (b || bool_decide (filter (fun rd => rd.1.1.1 ≠ 0%Z) l ≠ []),
     out ++ (if v then map (fun rd => rd.1.2) (filter (fun rd => rd.1.1.1 ≠ 0%Z) l)
             else []),
     err ++ map (fun rd => "Error patching " +:+ name (path (h !!! rd.2)))
                (filter (fun rd => rd.1.1.1 ≠ 0%Z) l)).
Proof.
  revert b out err. induction l as [|[[[rc o] e] d] l IH]; intros b out err.
  - simpl. rewrite orb_false_r. by destruct v; rewrite !app_nil_r.
  - cbn [foldl]. unfold report at 2.
    destruct (decide (rc ≠ 0%Z)) as [Hrc|Hrc].
    + rewrite IH, filter_cons_True by done. simpl.
      rewrite orb_true_r, <- !app_assoc. by destruct v.
    + rewrite IH, filter_cons_False by done. done.
Qed.

Lemma patch_unfold v h root dest rlp :
  let items := root :: get_dependencies h root in
  let failed := failing h root dest rlp items in
  patch v h root dest rlp
  = {| p_events :=
         ensure_dir dest
         ++ flat_map (fun item =>
              (if decide (dep_eq h item root) then []
               else [Copyfile (str (path (h !!! item)))
                              (str (joinname dest (name (path (h !!! item)))))])
              ++ [Exec (patch_args h root dest rlp item)]) items;
       p_stdout := if v then map (fun rd => rd.1.2) failed else [];
       p_stderr := map (fun rd => "Error patching " +:+ name (path (h !!! rd.2))) failed;
       PatchError := bool_decide (failed ≠ []) |}.
Proof.
  intros items failed. unfold patch. fold items.
  rewrite patch_items_fold. cbn [app length Nat.add].
  fold (process_results h root dest rlp items).
  rewrite report_fold. fold (failing h root dest rlp items). fold failed.
  by destruct v.
Qed.

(** C3. Every item of the closed order is handed to the Patch Primitive
    with exactly the plan of the specification: its own identifier is the
    loader-relative marker joined with its name, and each reference string
    of each outgoing edge is rewritten by the three-way rule (dependency is
    the root, else consumer is the root, else sibling). *)
Theorem patch_invocations_follow_plan v h root dest rlp :
  execs (p_events (patch v h root dest rlp))
  = map (fun item =>
           primitive_args (patched_file h root dest item) (new_identifier h item)
                          (rewrites h root rlp item))
        (root :: get_dependencies h root).
Proof.
  rewrite patch_unfold. cbn [p_events].
  rewrite execs_app, execs_ensure_dir, execs_items. cbn [app].
  apply map_ext. intros item. apply patch_args_plan.
Qed.

(** ** [main]: patching and dry runs *)

Lemma main_patch_unfold fuel args p st w :
  resolve (file args) = Some p →
  collect fuel (verbose args) [new_Dependency (str (file args)) p] 0 = Ok (st, w) →
  (prepatch_output args (heap st) 0).2 = true →
  dry_run args = false →
  let h := heap st in
  let dl := get_dest_and_loader_path (path (h !!! 0)) (destination args) in
  let r := patch (verbose args) h 0 dl.1 dl.2 in
  main fuel args
  = if PatchError r then
      {| m_stdout := (prepatch_output args h 0).1 ++ p_stdout r;
         m_stderr := w ++ p_stderr r
                     ++ (if negb (verbose args)
                         then ["Run with -v for more information"] else []);
         m_events := p_events r; m_status := Exit 1 |}
    else
      {| m_stdout := (prepatch_output args h 0).1 ++ p_stdout r
                     ++ [""; success_line args (length (get_dependencies h 0))];
         m_stderr := w ++ p_stderr r;
         m_events := p_events r; m_status := Exit 0 |}.
Proof.
  intros Hres Hcol Hok Hdry h dl r. unfold main.
  rewrite Hres, Hcol. cbv zeta. fold h. subst r dl.
  destruct (get_dest_and_loader_path (path (h !!! 0)) (destination args))
    as [dest rlp] eqn:Hdl. cbn [fst snd].
  destruct (prepatch_output args h 0) as [out ok] eqn:Hpre.
  assert (ok = true) as -> by (unfold h in Hpre; by rewrite Hpre in Hok).
  by rewrite Hdry.
Qed.

(** C5. A run that patches starts the Patch Primitive for every item of
    the closed order whatever the earlier return codes were; [PatchError]
    is raised after the loop exactly when some return code was non-zero;
    stderr names each failed item; the process exits with 1 in that case
    and with 0 when every return code was zero. *)
Theorem patch_failures_are_aggregated fuel args p st w :
  dry_run args = false →
  resolve (file args) = Some p →
  collect fuel (verbose args) [new_Dependency (str (file args)) p] 0 = Ok (st, w) →
  (prepatch_output args (heap st) 0).2 = true →
  let h := heap st in
  let dl := get_dest_and_loader_path (path (h !!! 0)) (destination args) in
  let items := 0 :: get_dependencies h 0 in
  let failed := failing h 0 dl.1 dl.2 items in
  let r := main fuel args in
  execs (m_events r) = map (patch_args h 0 dl.1 dl.2) items
  ∧ PatchError (patch (verbose args) h 0 dl.1 dl.2) = bool_decide (failed ≠ [])
  ∧ (∃ hint, m_stderr r
             = w ++ map (fun rd => "Error patching " +:+ name (path (h !!! rd.2))) failed
                 ++ hint)
  ∧ m_status r = if decide (failed = []) then Exit 0 else Exit 1.
Proof.
  intros Hdry Hres Hcol Hok h dl items failed r. subst r.
  rewrite (main_patch_unfold fuel args p st w Hres Hcol Hok Hdry).
  fold h. fold dl. rewrite patch_unfold. fold items. fold failed.
  cbn [PatchError p_events p_stderr p_stdout].
  assert (Hex : execs (ensure_dir dl.1 ++ flat_map (fun item =>
              (if decide (dep_eq h item 0) then []
               else [Copyfile (str (path (h !!! item)))
                              (str (joinname dl.1 (name (path (h !!! item)))))])
              ++ [Exec (patch_args h 0 dl.1 dl.2 item)]) items)
            = map (patch_args h 0 dl.1 dl.2) items).
  { by rewrite execs_app, execs_ensure_dir, execs_items. }
  destruct (decide (failed = [])) as [Hf|Hf].
  - rewrite bool_decide_eq_false_2 by (intros ?; done).
    cbn [m_events m_stderr m_status]. repeat split; try done.
    exists []. by rewrite app_nil_r.
  - rewrite bool_decide_eq_true_2 by done.
    cbn [m_events m_stderr m_status]. repeat split; try done.
    eexists. reflexivity.
Qed.

(** ** Destination and loader path *)

Lemma str_anchored p : anchored p = true → ∃ s, str p = "/" +:+ s.
Proof. intros H. unfold str. rewrite H. eauto. Qed.

Lemma joinname_anchored p n : anchored (joinname p n) = anchored p.
Proof. unfold joinname. by destruct (decide _). Qed.

Lemma str_loader_relative rel n :
  ∃ s, str (joinname {| anchored := false; parts := "@loader_path" :: rel |} n)
       = "@loader_path" +:+ s.
Proof.
  unfold joinname. destruct (decide (n = "")); unfold str; simpl.
  - destruct rel; [by exists ""| eexists; reflexivity].
  - destruct (rel ++ [n]) eqn:E; [by destruct rel|]. eexists. reflexivity.
Qed.

(** ** The store *)

Lemma lookup_total_insert (h : list Dependency) e x i :
  (<[e:=x]> h) !!! i = if decide (i = e ∧ e < length h) then x else h !!! i.
Proof.
  destruct (decide (i = e ∧ e < length h)) as [[-> He]|Hn].
  - by apply list_lookup_total_insert_eq.
  - destruct (decide (e = i)) as [->|Hne].
    + rewrite list_insert_ge; [done|]. apply Nat.nlt_ge. intros ?. by apply Hn.
    + by apply list_lookup_total_insert_ne.
Qed.

Lemma path_set_referred_as d r : path (set_referred_as d r) = path d.
Proof. done. Qed.

Lemma path_set_dependencies d ds : path (set_dependencies d ds) = path d.
Proof. done. Qed.

Lemma path_merge h e d i : path (merge h e d !!! i) = path (h !!! i).
Proof.
  unfold merge. rewrite lookup_total_insert.
  destruct (decide _) as [[-> _]|_]; done.
Qed.

Lemma dependencies_merge h e d i :
  dependencies (merge h e d !!! i) = dependencies (h !!! i).
Proof.
  unfold merge. rewrite lookup_total_insert.
  destruct (decide _) as [[-> _]|_]; done.
Qed.

Lemma referred_as_merge h e d i :
  referred_as (merge h e d !!! i)
  = if decide (i = e ∧ e < length h)
    then referred_as (h !!! e) ∪ referred_as (h !!! d)
    else referred_as (h !!! i).
Proof.
  unfold merge. rewrite lookup_total_insert.
  destruct (decide _) as [[-> _]|_]; done.
Qed.

Lemma length_merge h e d : length (merge h e d) = length h.
Proof. apply length_insert. Qed.

(** ** [gather] *)

Lemma layout_elem h n W c s :
  (c, s) ∈ layout h n W →
  c ∈ W ∧ n ≤ s ∧ s + length (inspect (path (h !!! c))).1 ≤ layout_end h n W.
Proof.
  revert n. induction W as [|c' W IH]; intros n; simpl.
  - by intros ?%elem_of_nil.
  - assert (Hmono : ∀ W m, m ≤ layout_end h m W).
    { clear. intros W. induction W as [|x W IH]; intros m; simpl; [done|].
      etrans; [|apply IH]. lia. }
    intros [[= -> ->]|Hin]%elem_of_cons.
    + split; [left|]. split; [done|]. apply Hmono.
    + destruct (IH _ Hin) as (? & ? & ?). split; [by right|]. lia.
Qed.

Lemma layout_ext h h' n W :
  (∀ c, c ∈ W → path (h' !!! c) = path (h !!! c)) →
  layout h' n W = layout h n W ∧ layout_end h' n W = layout_end h n W.
Proof.
  revert n. induction W as [|c W IH]; intros n Hp; simpl; [done|].
  rewrite (Hp c) by left.
  destruct (IH (n + length (inspect (path (h !!! c))).1)) as [-> ->]; [|done].
  intros c' Hc'. apply Hp. by right.
Qed.

Lemma find_dependencies_unfold h item :
  find_dependencies h item
  = (<[item := set_dependencies (h !!! item)
                 (seq (length h) (length (inspect (path (h !!! item))).1))]>
       (h ++ ((fun rp => new_Dependency rp.1 rp.2) <$> (inspect (path (h !!! item))).1)),
     (seq (length h) (length (inspect (path (h !!! item))).1),
      (inspect (path (h !!! item))).2)) ∨ length h ≤ item.
Proof.
  destruct (decide (item < length h)) as [Hlt|]; [left|right; lia].
  unfold find_dependencies. destruct (inspect (path (h !!! item))) as [refs fails].
  cbn [fst snd]. by rewrite lookup_total_app_l.
Qed.

Lemma gather_spec W : ∀ h,
  (∀ c, c ∈ W → c < length h) → NoDup W →
  ∃ h1, gather h W
        = (h1, (fun cs : obj * nat =>
                  (seq cs.2 (length (inspect (path (h !!! cs.1))).1),
                   (inspect (path (h !!! cs.1))).2))
               <$> layout h (length h) W)
        ∧ gathered h W h1.
Proof.
  induction W as [|c W IH]; intros h Hval Hnd.
  - exists h. split; [done|]. split; simpl; try done.
    + intros ???? Hin. by apply elem_of_nil in Hin.
    + intros ?? Hin. by apply elem_of_nil in Hin.
  - apply NoDup_cons in Hnd as [Hc Hnd].
    assert (Hclt : c < length h) by (apply Hval; left).
    simpl. destruct (find_dependencies_unfold h c) as [->|?]; [|lia].
    set (refs := (inspect (path (h !!! c))).1).
    set (ha := <[c:=_]> _).
    assert (Hlen : length ha = length h + length refs).
    { unfold ha. by rewrite length_insert, length_app, length_fmap. }
    assert (Hold : ∀ i, i < length h → i ≠ c → ha !!! i = h !!! i).
    { intros i Hi Hne. unfold ha. rewrite lookup_total_insert.
      rewrite decide_False by (by intros [? _]). by rewrite lookup_total_app_l. }
    assert (Hc' : ha !!! c = set_dependencies (h !!! c) (seq (length h) (length refs))).
    { unfold ha. rewrite lookup_total_insert, decide_True; [done|split; [done|]].
      rewrite length_app. lia. }
    assert (Hnew : ∀ j rq, refs !! j = Some rq →
               ha !!! (length h + j) = new_Dependency rq.1 rq.2).
    { intros j rq Hj. unfold ha. rewrite lookup_total_insert.
      rewrite decide_False by lia. rewrite lookup_total_app_r by lia.
      replace (length h + j - length h) with j by lia.
      apply list_lookup_total_correct. by rewrite list_lookup_fmap, Hj. }
    assert (Hpath : ∀ i, i < length h → path (ha !!! i) = path (h !!! i)).
    { intros i Hi. destruct (decide (i = c)) as [->|]; [by rewrite Hc'|by rewrite Hold]. }
    destruct (IH ha) as (h1 & Hg & G); [|done|].
    { intros c' Hc'in. rewrite Hlen. specialize (Hval c' ltac:(by right)). lia. }
    destruct (layout_ext h ha (length ha) W) as [HL HE].
    { intros c' Hc'in. apply Hpath, Hval. by right. }
    rewrite Hg. exists h1. split.
    + f_equal. cbn [fmap list_fmap]. f_equal. fold refs. rewrite HL, Hlen.
      apply list_fmap_ext. intros k [c' s'] Hk. cbn [fst snd].
      apply list_elem_of_lookup_2 in Hk. apply layout_elem in Hk as [Hk _].
      rewrite Hpath; [done|]. apply Hval. by right.
    + destruct G as [G1 G2 G3 G4]. split.
      * simpl. fold refs. rewrite G1, HE, Hlen. done.
      * intros i Hi. destruct (G2 i) as (E1 & E2 & E3); [lia|].
        rewrite E1, E2. split; [by apply Hpath|]. split.
        -- destruct (decide (i = c)) as [->|]; [by rewrite Hc'|by rewrite Hold].
        -- intros Hni. apply not_elem_of_cons in Hni as [Hne Hni].
           rewrite E3 by done. by apply Hold.
      * intros c' s j rq. simpl. fold refs.
        intros [[= -> ->]|Hin]%elem_of_cons Hj.
        -- pose proof (lookup_lt_Some _ _ _ Hj) as Hjlt. fold refs in Hjlt.
           destruct (G2 (length h + j)) as (_ & _ & E3); [lia|].
           rewrite E3; [by apply Hnew|].
           intros Hin. specialize (Hval _ ltac:(right; exact Hin)). lia.
        -- rewrite <- Hlen, <- HL in Hin.
           assert (c' ∈ W) by (by apply layout_elem in Hin as [? _]).
           apply (G3 c' s j rq Hin). rewrite Hpath; [done|]. apply Hval. by right.
      * intros c' s. simpl. fold refs.
        intros [[= -> ->]|Hin]%elem_of_cons.
        -- destruct (G2 c) as (_ & _ & E3); [lia|]. rewrite E3 by done.
           by rewrite Hc'.
        -- rewrite <- Hlen, <- HL in Hin.
           assert (c' ∈ W) by (by apply layout_elem in Hin as [? _]).
           rewrite (G4 c' s Hin). rewrite Hpath; [done|]. apply Hval. by right.
Qed.

(** ** The layout of the new nodes *)

Lemma layout_disjoint h n W c s c' s' t :
  (c, s) ∈ layout h n W → (c', s') ∈ layout h n W →
  s ≤ t < s + length (inspect (path (h !!! c))).1 →
  s' ≤ t < s' + length (inspect (path (h !!! c'))).1 →
  c = c' ∧ s = s'.
Proof.
  revert n. induction W as [|c0 W IH]; intros n; simpl.
  - by intros ?%elem_of_nil.
  - intros [[= -> ->]|Hin]%elem_of_cons [[= -> ->]|Hin']%elem_of_cons ??; [done| | |].
    + apply layout_elem in Hin' as (_ & ? & _). lia.
    + apply layout_elem in Hin as (_ & ? & _). lia.
    + by apply (IH _ Hin Hin').
Qed.

Lemma layout_fun h n W c s s' :
  NoDup W → (c, s) ∈ layout h n W → (c, s') ∈ layout h n W → s = s'.
Proof.
  revert n. induction W as [|c0 W IH]; intros n Hnd; simpl.
  - by intros ?%elem_of_nil.
  - apply NoDup_cons in Hnd as [Hc0 Hnd].
    intros [[= -> ->]|Hin]%elem_of_cons [[= ->]|Hin']%elem_of_cons; [done| | |].
    + by apply layout_elem in Hin' as (? & _).
    + by apply layout_elem in Hin as (? & _).
    + by apply (IH _ Hnd Hin Hin').
Qed.

(** ** One dependency of a wave *)

Lemma existing_Some h d R T e :
  existing h d R T = Some e → e ∈ R ++ T ∧ dep_eq h e d.
Proof.
  unfold existing.
  destruct (list_find _ R) as [[i x]|] eqn:E1.
  - intros [= ->]. apply list_find_Some in E1 as (Hi & HP & _).
    split; [|done]. apply elem_of_app. left. by eapply list_elem_of_lookup_2.
  - destruct (list_find _ T) as [[i x]|] eqn:E2; [|done].
    intros [= ->]. apply list_find_Some in E2 as (Hi & HP & _).
    split; [|done]. apply elem_of_app. right. by eapply list_elem_of_lookup_2.
Qed.

Lemma existing_None h d R T :
  existing h d R T = None → ∀ x, x ∈ R ++ T → ¬ dep_eq h x d.
Proof.
  unfold existing.
  destruct (list_find _ R) as [[i x]|] eqn:E1; [done|].
  destruct (list_find _ T) as [[i x]|] eqn:E2; [done|]. intros _.
  apply list_find_None in E1, E2. rewrite Forall_forall in E1, E2.
  intros x [?|?]%elem_of_app; auto.
Qed.

Lemma rewire_lookup (h : list Dependency) c ds i :
  c < length h →
  path (<[c := set_dependencies (h !!! c) ds]> h !!! i) = path (h !!! i)
  ∧ referred_as (<[c := set_dependencies (h !!! c) ds]> h !!! i) = referred_as (h !!! i)
  ∧ dependencies (<[c := set_dependencies (h !!! c) ds]> h !!! i)
    = if decide (i = c) then ds else dependencies (h !!! i).
Proof.
  intros Hc. rewrite lookup_total_insert.
  destruct (decide (i = c)) as [->|Hne].
  - by rewrite decide_True.
  - by rewrite decide_False by (by intros [? _]).
Qed.

Lemma fmap_path_ext (h h' : list Dependency) (l : list obj) :
  (∀ i, path (h' !!! i) = path (h !!! i)) →
  (fun i => path (h' !!! i)) <$> l = (fun i => path (h !!! i)) <$> l.
Proof. intros Hp. apply list_fmap_ext. intros ???. apply Hp. Qed.

Lemma is_sys_ext (h h' : list Dependency) i :
  path (h' !!! i) = path (h !!! i) → is_sys h' i = is_sys h i.
Proof. unfold is_sys. by intros ->. Qed.

Lemma elem_of_insert_inv {A} (l : list A) k e x :
  x ∈ <[k:=e]> l → x = e ∨ x ∈ l.
Proof.
  intros (i & Hi)%list_elem_of_lookup_1.
  destruct (decide (k = i)) as [->|Hne].
  - left. apply list_lookup_insert_Some in Hi as [(_ & Hx & _)|[Hne _]]; [by symmetry|done].
  - right. rewrite list_lookup_insert_ne in Hi by done.
    by eapply list_elem_of_lookup_2.
Qed.

Lemma NoDup_fmap_eq {A B} (f : A → B) (l : list A) x y :
  NoDup (f <$> l) → x ∈ l → y ∈ l → f x = f y → x = y.
Proof.
  induction l as [|a l IH]; [by intros _ ?%elem_of_nil|].
  rewrite fmap_cons, NoDup_cons. intros [Ha Hnd] Hx Hy Hf.
  apply elem_of_cons in Hx as [->|Hx], Hy as [->|Hy]; [done| | |by apply IH].
  - destruct Ha. rewrite Hf. by apply list_elem_of_fmap_2.
  - destruct Ha. rewrite <- Hf. by apply list_elem_of_fmap_2.
Qed.

Lemma visit_ext (h h' : list Dependency) seen d :
  (∀ i, path (h' !!! i) = path (h !!! i)) → visit h' seen d = visit h seen d.
Proof.
  intros Hp. unfold visit.
  assert (Hiff : Exists (fun e => dep_eq h' e d) seen ↔ Exists (fun e => dep_eq h e d) seen).
  { unfold dep_eq. rewrite !Exists_exists. split; intros (e & He & Heq); exists e;
      (split; [done|]); [by rewrite <- !Hp|by rewrite !Hp]. }
  destruct (decide (Exists (fun e => dep_eq h' e d) seen)),
           (decide (Exists (fun e => dep_eq h e d) seen)); try done.
  - exfalso. by apply n, Hiff.
  - exfalso. by apply n, Hiff.
Qed.

Lemma foldl_visit_ext (h h' : list Dependency) l : ∀ seen,
  (∀ i, path (h' !!! i) = path (h !!! i)) →
  foldl (visit h') seen l = foldl (visit h) seen l.
Proof.
  induction l as [|d l IH]; intros seen Hp; [done|].
  cbn [foldl]. by rewrite (visit_ext h h'), IH.
Qed.

Lemma filter_sys_ext (h h' : list Dependency) (l : list obj) :
  (∀ i, path (h' !!! i) = path (h !!! i)) →
  filter (fun d => is_sys h' d = false) l = filter (fun d => is_sys h d = false) l.
Proof.
  intros Hp. induction l as [|d l IH]; [done|].
  destruct (decide (is_sys h d = false)) as [Hd|Hd].
  - rewrite !filter_cons_True; [by rewrite IH|done|]. by rewrite (is_sys_ext h h').
  - rewrite !filter_cons_False; [done|done|]. by rewrite (is_sys_ext h h').
Qed.

Lemma visit_seen h seen d e :
  e ∈ seen → path (h !!! e) = path (h !!! d) → visit h seen d = seen.
Proof.
  intros He Hp. unfold visit. rewrite decide_True; [done|].
  apply Exists_exists. by exists e.
Qed.

Lemma visit_new h seen d :
  (∀ e, e ∈ seen → path (h !!! e) ≠ path (h !!! d)) → visit h seen d = seen ++ [d].
Proof.
  intros Hn. unfold visit. rewrite decide_False; [done|].
  intros (e & He & Heq)%Exists_exists. by apply (Hn e He).
Qed.

Lemma trav_step R h h' T T' pre c j d :
  (∀ i, path (h' !!! i) = path (h !!! i)) →
  take j (dependencies (h' !!! c)) = take j (dependencies (h !!! c)) →
  dependencies (h' !!! c) !! j = Some d →
  (if is_sys h d then T' = T
   else visit h (R ++ T) d = R ++ T') →
  trav R h T pre c j → trav R h' T' pre c (S j).
Proof.
  unfold trav. intros Hp Htake Hd Hv Ht.
  rewrite (take_S_r _ _ _ Hd), Htake, (filter_sys_ext h h') by done.
  rewrite (foldl_visit_ext h h') by done.
  rewrite filter_app, app_assoc, foldl_app, Ht.
  destruct (is_sys h d) eqn:Hsys.
  - subst T'. by rewrite filter_cons_False, filter_nil by (by rewrite Hsys).
  - by rewrite filter_cons_True, filter_nil by done.
Qed.

Lemma process_dep_step h0 W h1 R c s j h T :
  gathered h0 W h1 →
  NoDup W →
  (∀ i, i ∈ R → i < length h0) →
  (∀ i, i ∈ W → i < length h0) →
  (c, s) ∈ layout h0 (length h0) W →
  j < length (inspect (path (h0 !!! c))).1 →
  merge_inv h1 R W (layout h0 (length h0) W) (length h0) h T (s + j) →
  ∃ h' T', process_dep R c (h, T) (s + j) = Ok (h', T')
           ∧ merge_inv h1 R W (layout h0 (length h0) W) (length h0) h' T' (S (s + j)).
Proof.
  clear path_exists install_name_tool cwd.
  intros G HndW HR HW Hcs Hj M.
  destruct (layout_elem _ _ _ _ _ Hcs) as (HcW & Hs & Hend).
  assert (Hc : c < length h0) by auto.
  destruct (lookup_lt_is_Some_2 _ _ Hj) as [rq Hrq].
  pose proof (g_new _ _ _ G c s j rq Hcs Hrq) as Ht1.
  pose proof (g_deps _ _ _ G c s Hcs) as Hd1.
  pose proof (g_length _ _ _ G) as Hl1.
  destruct M as [M1 M2 M3 M4 M5 M6 M7 M8 M9 M10 M11 M12].
  assert (Htlt : s + j < length h) by lia.
  assert (Hpt : path (h !!! (s + j)) = rq.2) by (by rewrite M2, Ht1).
  assert (Hrt : referred_as (h !!! (s + j)) = {[rq.1]}) by (by rewrite M8, Ht1).
  assert (Hdj : dependencies (h !!! c) !! j = Some (s + j)).
  { apply (M10 c s j Hcs); [|done]. by rewrite Hd1, length_seq. }
  assert (Hown : ∀ c' s' k e',
             (c', s') ∈ layout h0 (length h0) W →
             dependencies (h !!! c') !! k = Some e' → s' + k = s + j →
             c' = c ∧ s' = s ∧ k = j).
  { intros c' s' k e' Hin Hk Heq.
    assert (k < length (inspect (path (h0 !!! c'))).1).
    { apply lookup_lt_Some in Hk.
      rewrite <- (length_fmap (fun d => path (h !!! d))), M4, length_fmap in Hk.
      by rewrite (g_deps _ _ _ G c' s' Hin), length_seq in Hk. }
    destruct (layout_disjoint h0 (length h0) W c' s' c s (s + j)) as [-> ->];
      [done|done|lia|lia|]. split; [done|]. split; [done|lia]. }
  unfold process_dep. destruct (is_sys h (s + j)) eqn:Hsys.
  { exists h, T. split; [done|]. split; try done.
    - intros x Hx. destruct (M7 x Hx). split; [lia|done].
    - intros d Hd. apply M8. lia.
    - intros d Hd Hnsys. apply M9; [|done].
      destruct (decide (d = s + j)) as [->|]; [congruence|lia].
    - intros c' s' k Hin Hk Hle. apply (M10 c' s' k Hin Hk). lia.
    - intros c' s' k e' Hin Hlt Hk Hnsys Hfirst.
      destruct (decide (s' + k = s + j)) as [Heq|Hne].
      + destruct (Hown c' s' k e' Hin Hk Heq) as (-> & -> & ->).
        rewrite Hdj in Hk. injection Hk as <-. congruence.
      + apply (M11 c' s' k e' Hin); [lia|done..]. }
  destruct (existing h (s + j) R T) as [e|] eqn:Hex.
  - apply existing_Some in Hex as [He Heq]. unfold dep_eq in Heq.
    assert (Helt : e < s + j).
    { apply elem_of_app in He as [He|He]; [apply HR in He; lia|].
      apply M7 in He. lia. }
    rewrite dependencies_merge.
    destruct (list_find _ (dependencies (h !!! c))) as [[k x]|] eqn:Hfind.
    2: { exfalso. apply list_find_None in Hfind. rewrite Forall_forall in Hfind.
         eapply Hfind; [eapply list_elem_of_lookup_2, Hdj|done]. }
    apply list_find_Some in Hfind as (Hk & Hkeq & Hmin).
    assert (Hkj : k ≤ j).
    { destruct (decide (k ≤ j)); [done|]. exfalso.
      eapply (Hmin j (s + j)); [done|lia|done]. }
    unfold dep_eq in Hkeq. rewrite !path_merge in Hkeq.
    eexists _, T. split; [reflexivity|].
    assert (Hc' : c < length (merge h e (s + j))) by (rewrite length_merge; lia).
    set (h'' := <[c:=_]> (merge h e (s + j))).
    assert (L'' : length h'' = length h).
    { unfold h''. by rewrite length_insert, length_merge. }
    assert (P'' : ∀ i, path (h'' !!! i) = path (h !!! i)).
    { intros i. unfold h''.
      destruct (rewire_lookup (merge h e (s + j)) c
                  (<[k:=e]> (dependencies (h !!! c))) i Hc') as (-> & _ & _).
      apply path_merge. }
    assert (R'' : ∀ i, referred_as (h'' !!! i)
                       = if decide (i = e) then referred_as (h !!! e) ∪ {[rq.1]}
                         else referred_as (h !!! i)).
    { intros i. unfold h''.
      destruct (rewire_lookup (merge h e (s + j)) c
                  (<[k:=e]> (dependencies (h !!! c))) i Hc') as (_ & -> & _).
      rewrite referred_as_merge, Hrt.
      destruct (decide (i = e)); [rewrite decide_True by (split; [done|lia])
                                 |rewrite decide_False by (by intros [? _])]; done. }
    assert (D'' : ∀ i, dependencies (h'' !!! i)
                       = if decide (i = c) then <[k:=e]> (dependencies (h !!! c))
                         else dependencies (h !!! i)).
    { intros i. unfold h''.
      destruct (rewire_lookup (merge h e (s + j)) c
                  (<[k:=e]> (dependencies (h !!! c))) i Hc') as (_ & _ & ->).
      destruct (decide (i = c)); [done|apply dependencies_merge]. }
    clearbody h''.
    assert (S'' : ∀ i, is_sys h'' i = is_sys h i) by (intros i; by apply is_sys_ext).
    assert (Hkx : path (h !!! x) = path (h !!! e)) by congruence.
    split.
    + lia.
    + intros i. by rewrite P'', M2.
    + intros i. rewrite R''. etrans; [apply M3|].
      destruct (decide (i = e)) as [->|]; set_solver.
    + intros i. rewrite <- M4, D''. rewrite (fmap_path_ext h h'') by done.
      destruct (decide (i = c)) as [->|]; [|done].
      rewrite list_fmap_insert. apply list_insert_id.
      by rewrite list_lookup_fmap, Hk, <- Hkx.
    + intros i Hi. rewrite D'', decide_False; [by apply M5|].
      intros ->. done.
    + by rewrite (fmap_path_ext h h'').
    + intros x' Hx'. destruct (M7 x' Hx'). rewrite S''. split; [lia|done].
    + intros d Hd. rewrite R'', decide_False by lia. apply M8. lia.
    + intros d Hd Hnsys. rewrite S'' in Hnsys.
      destruct (decide (d = s + j)) as [->|Hne].
      * exists e. split; [done|]. split; [by rewrite !P''|].
        rewrite R'', decide_True by done. rewrite <- M8, Hrt by done. set_solver.
      * destruct (M9 d) as (m & Hm & Hpm & Hrm); [lia|done|].
        exists m. split; [done|]. split; [by rewrite !P''|].
        etrans; [apply Hrm|]. rewrite R''. destruct (decide (m = e)) as [->|]; set_solver.
    + intros c' s' k' Hin Hk' Hle. rewrite D''.
      destruct (decide (c' = c)) as [->|Hne].
      * assert (s' = s) as -> by (by eapply layout_fun).
        rewrite list_lookup_insert_ne by lia. apply (M10 c s k' Hin Hk'). lia.
      * apply (M10 c' s' k' Hin Hk'). lia.
    + intros c' s' k' e' Hin Hlt Hk' Hnsys Hfirst. rewrite S'' in Hnsys.
      rewrite D'' in Hk'. rewrite P'' in Hfirst.
      destruct (decide (c' = c)) as [->|Hne].
      * assert (s' = s) as -> by (by eapply layout_fun).
        destruct (decide (k' = k)) as [->|Hnk].
        -- rewrite list_lookup_insert_eq in Hk' by (by eapply lookup_lt_Some).
           by injection Hk' as <-.
        -- rewrite list_lookup_insert_ne in Hk' by done.
           assert (Hold : ∀ k'' e'', k'' < k' →
                     dependencies (h !!! c) !! k'' = Some e'' →
                     path (h !!! e'') ≠ path (h !!! e')).
           { intros k'' e'' Hlt'' Hk''.
             destruct (decide (k'' = k)) as [->|Hnk''].
             - rewrite Hk in Hk''. injection Hk'' as <-. rewrite Hkx.
               rewrite <- (P'' e). apply (Hfirst k e Hlt'').
               rewrite D'', decide_True by done.
               apply list_lookup_insert_eq. by eapply lookup_lt_Some.
             - rewrite <- (P'' e''). apply (Hfirst k'' e'' Hlt'').
               rewrite D'', decide_True by done.
               by rewrite list_lookup_insert_ne. }
           destruct (decide (k' = j)) as [->|Hnj].
           ++ exfalso. rewrite Hdj in Hk'. injection Hk' as <-.
              apply (Hold k x); [lia|done|]. congruence.
           ++ apply (M11 c s k' e' Hin); [lia|done|done|done].
      * destruct (decide (s' + k' = s + j)) as [Heq'|Hne'].
        -- by destruct (Hown c' s' k' e' Hin Hk' Heq') as (-> & _).
        -- apply (M11 c' s' k' e' Hin); [lia|done|done|].
           intros k'' e'' Hlt'' Hk''. rewrite <- (P'' e'').
           apply (Hfirst k'' e'' Hlt''). by rewrite D'', decide_False.
    + intros i d Hi Hd. rewrite D'' in Hd. rewrite L''.
      destruct (decide (i = c)) as [->|]; [|by eapply M12].
      apply elem_of_insert_inv in Hd as [->|Hd]; [lia|by eapply M12].
  - pose proof (existing_None _ _ _ _ Hex) as Hnone. unfold dep_eq in Hnone.
    exists h, (T ++ [s + j]). split; [done|]. split; try done.
    + rewrite app_assoc, fmap_app. apply NoDup_app. split; [done|]. split.
      * intros p Hp Hp'. apply list_elem_of_fmap in Hp as (x & -> & Hx).
        apply list_elem_of_fmap in Hp' as (y & Hy & Hy'%list_elem_of_singleton).
        subst y. by apply (Hnone x Hx).
      * apply NoDup_singleton.
    + intros x [Hx|Hx%list_elem_of_singleton]%elem_of_app.
      * destruct (M7 x Hx). split; [lia|done].
      * subst x. split; [lia|done].
    + intros d Hd. apply M8. lia.
    + intros d Hd Hnsys. destruct (decide (d = s + j)) as [->|Hne].
      * exists (s + j). split; [set_solver|]. split; [done|apply M3].
      * destruct (M9 d) as (m & Hm & Hpm & Hrm); [lia|done|].
        exists m. split; [set_solver|done].
    + intros c' s' k Hin Hk Hle. apply (M10 c' s' k Hin Hk). lia.
    + intros c' s' k e' Hin Hlt Hk Hnsys Hfirst.
      destruct (decide (s' + k = s + j)) as [Heq|Hne].
      * destruct (Hown c' s' k e' Hin Hk Heq) as (-> & -> & ->).
        rewrite Hdj in Hk. injection Hk as <-. set_solver.
      * assert (e' ∈ R ++ T); [|set_solver].
        apply (M11 c' s' k e' Hin); [lia|done..].
Qed.

Lemma process_dep_trav h0 W h1 R c s j h T h' T' :
  gathered h0 W h1 →
  NoDup W →
  (∀ i, i ∈ R → i < length h0) →
  (∀ i, i ∈ W → i < length h0) →
  (c, s) ∈ layout h0 (length h0) W →
  j < length (inspect (path (h0 !!! c))).1 →
  merge_inv h1 R W (layout h0 (length h0) W) (length h0) h T (s + j) →
  process_dep R c (h, T) (s + j) = Ok (h', T') →
  (∀ i, i ≠ c → dependencies (h' !!! i) = dependencies (h !!! i))
  ∧ (∀ pre, trav R h T pre c j → trav R h' T' pre c (S j)).
Proof.
  clear resolve path_exists install_name_tool cwd.
  intros G HndW HR HW Hcs Hj M.
  destruct (layout_elem _ _ _ _ _ Hcs) as (HcW & Hs & Hend).
  assert (Hc : c < length h0) by auto.
  pose proof (g_deps _ _ _ G c s Hcs) as Hd1.
  pose proof (g_length _ _ _ G) as Hl1.
  destruct M as [M1 M2 M3 M4 M5 M6 M7 M8 M9 M10 M11 M12].
  assert (Hdj : dependencies (h !!! c) !! j = Some (s + j)).
  { apply (M10 c s j Hcs); [|done]. by rewrite Hd1, length_seq. }
  unfold process_dep. destruct (is_sys h (s + j)) eqn:Hsys.
  { intros [= <- <-]. split; [done|]. intros pre.
    apply (trav_step R h h T T pre c j (s + j)); [done..|by rewrite Hsys]. }
  destruct (existing h (s + j) R T) as [e|] eqn:Hex.
  - apply existing_Some in Hex as [He Heq]. unfold dep_eq in Heq.
    rewrite dependencies_merge.
    destruct (list_find _ (dependencies (h !!! c))) as [[k x]|] eqn:Hfind; [|done].
    apply list_find_Some in Hfind as (Hk & Hkeq & Hmin).
    assert (Hkj : k ≤ j).
    { destruct (decide (k ≤ j)); [done|]. exfalso.
      eapply (Hmin j (s + j)); [done|lia|done]. }
    unfold dep_eq in Hkeq. rewrite !path_merge in Hkeq.
    assert (Hc' : c < length (merge h e (s + j))) by (rewrite length_merge; lia).
    intros [= <- <-].
    set (h'' := <[c:=_]> (merge h e (s + j))).
    assert (P'' : ∀ i, path (h'' !!! i) = path (h !!! i)).
    { intros i. unfold h''.
      destruct (rewire_lookup (merge h e (s + j)) c
                  (<[k:=e]> (dependencies (h !!! c))) i Hc') as (-> & _ & _).
      apply path_merge. }
    assert (D'' : ∀ i, dependencies (h'' !!! i)
                       = if decide (i = c) then <[k:=e]> (dependencies (h !!! c))
                         else dependencies (h !!! i)).
    { intros i. unfold h''.
      destruct (rewire_lookup (merge h e (s + j)) c
                  (<[k:=e]> (dependencies (h !!! c))) i Hc') as (_ & _ & ->).
      destruct (decide (i = c)); [done|apply dependencies_merge]. }
    clearbody h''.
    assert (Hse : is_sys h e = false).
    { rewrite <- Hsys. unfold is_sys. by rewrite Heq. }
    split; [intros i Hi; by rewrite D'', decide_False|].
    intros pre. destruct (decide (k = j)) as [->|Hne].
    + apply (trav_step R h h'' T T pre c j e); [done| | |].
      * rewrite D'', decide_True by done. by apply take_insert_ge.
      * rewrite D'', decide_True by done.
        apply list_lookup_insert_eq. by eapply lookup_lt_Some.
      * rewrite Hse. by apply (visit_seen h (R ++ T) e e).
    + assert (Hxe : x = e).
      { apply (NoDup_fmap_eq (fun i => path (h !!! i)) (R ++ T)); [done| |done|congruence].
        apply (M11 c s k x Hcs); [lia|done| |].
        - rewrite <- Hsys. unfold is_sys. f_equal. congruence.
        - intros k' e' Hlt Hk' Heq'. apply (Hmin k' e' Hk' Hlt).
          unfold dep_eq. rewrite !path_merge. congruence. }
      subst x.
      assert (Hid : <[k:=e]> (dependencies (h !!! c)) = dependencies (h !!! c))
        by (by apply list_insert_id).
      apply (trav_step R h h'' T T pre c j (s + j)); [done| | |].
      * by rewrite D'', decide_True, Hid.
      * by rewrite D'', decide_True, Hid.
      * rewrite Hsys. by apply (visit_seen h (R ++ T) (s + j) e).
  - pose proof (existing_None _ _ _ _ Hex) as Hnone. unfold dep_eq in Hnone.
    intros [= <- <-]. split; [done|]. intros pre.
    apply (trav_step R h h T (T ++ [s + j]) pre c j (s + j)); [done..|].
    rewrite Hsys, (visit_new h (R ++ T) (s + j)); [by rewrite app_assoc|done].
Qed.

(** ** The dependencies of an item, and the items of a wave *)

Lemma process_item_steps h0 W h1 R c s :
  gathered h0 W h1 →
  NoDup W →
  (∀ i, i ∈ R → i < length h0) →
  (∀ i, i ∈ W → i < length h0) →
  (c, s) ∈ layout h0 (length h0) W →
  ∀ n j h T,
    j + n = length (inspect (path (h0 !!! c))).1 →
    merge_inv h1 R W (layout h0 (length h0) W) (length h0) h T (s + j) →
    ∃ h' T', foldM (process_dep R c) (h, T) (seq (s + j) n) = Ok (h', T')
             ∧ merge_inv h1 R W (layout h0 (length h0) W) (length h0) h' T'
                 (s + length (inspect (path (h0 !!! c))).1)
             ∧ (∀ i, i ≠ c → dependencies (h' !!! i) = dependencies (h !!! i))
             ∧ (∀ pre, trav R h T pre c j →
                       trav R h' T' pre c (length (inspect (path (h0 !!! c))).1)).
Proof.
  intros G HndW HR HW Hcs. induction n as [|n IH]; intros j h T Hjn M.
  - exists h, T. rewrite <- Hjn, Nat.add_0_r. split; [done|]. split; [done|]. by split.
  - destruct (process_dep_step h0 W h1 R c s j h T) as (h' & T' & Hstep & M');
      [done..|lia|done|].
    destruct (process_dep_trav h0 W h1 R c s j h T h' T') as [F Tr];
      [done..|lia|done|done|].
    destruct (IH (S j) h' T') as (h'' & T'' & Hrest & M'' & F' & Tr');
      [lia|by replace (s + S j) with (S (s + j)) by lia|].
    exists h'', T''. split; [|split; [done|split]].
    + cbn [seq foldM]. rewrite Hstep. cbn [bind].
      by replace (S (s + j)) with (s + S j) by lia.
    + intros i Hi. by rewrite F', F.
    + intros pre Hpre. by apply Tr', Tr.
Qed.

Lemma get_direct_dependencies_ext (h h' : list Dependency) i :
  (∀ d, path (h' !!! d) = path (h !!! d)) →
  dependencies (h' !!! i) = dependencies (h !!! i) →
  get_direct_dependencies h' i = get_direct_dependencies h i.
Proof.
  intros Hp Hd. unfold get_direct_dependencies. by rewrite Hd, (filter_sys_ext h h').
Qed.

Lemma flat_map_ext_elem_of {A B} (f g : A → list B) (l : list A) :
  (∀ x, x ∈ l → f x = g x) → flat_map f l = flat_map g l.
Proof.
  induction l as [|a l IH]; intros Hfg; [done|]. simpl.
  rewrite Hfg by left. f_equal. apply IH. intros x Hx. apply Hfg. by right.
Qed.

Lemma process_items_steps h0 W h1 R :
  gathered h0 W h1 →
  NoDup W →
  (∀ i, i ∈ R → i < length h0) →
  (∀ i, i ∈ W → i < length h0) →
  ∀ W2 n h T W1,
    (∀ cs, cs ∈ layout h0 n W2 → cs ∈ layout h0 (length h0) W) →
    merge_inv h1 R W (layout h0 (length h0) W) (length h0) h T n →
    NoDup (W1 ++ W2) →
    foldl (visit h) R (flat_map (get_direct_dependencies h) W1) = R ++ T →
    ∃ h' T',
      process_items R (h, T)
        ((fun cs : obj * nat =>
            (cs.1, seq cs.2 (length (inspect (path (h0 !!! cs.1))).1)))
         <$> layout h0 n W2)
      = Ok (h', T')
      ∧ merge_inv h1 R W (layout h0 (length h0) W) (length h0) h' T'
          (layout_end h0 n W2)
      ∧ foldl (visit h') R (flat_map (get_direct_dependencies h') (W1 ++ W2)) = R ++ T'.
Proof.
  intros G HndW HR HW. induction W2 as [|c W2 IH]; intros n h T W1 Hsub M Hnd Htr.
  - exists h, T. rewrite app_nil_r. split; [done|]. by split.
  - cbn [layout layout_end fmap list_fmap] in *.
    assert (Hcs : (c, n) ∈ layout h0 (length h0) W) by (apply Hsub; left).
    destruct (process_item_steps h0 W h1 R c n G HndW HR HW Hcs
                (length (inspect (path (h0 !!! c))).1) 0 h T)
      as (h' & T' & Hitem & M' & F & Tr); [done|by rewrite Nat.add_0_r|].
    rewrite Nat.add_0_r in Hitem.
    assert (P : ∀ i, path (h' !!! i) = path (h !!! i)).
    { intros i. by rewrite (mi_path _ _ _ _ _ _ _ _ M'), (mi_path _ _ _ _ _ _ _ _ M). }
    assert (HcW1 : c ∉ W1).
    { apply NoDup_app in Hnd as (_ & Hdis & _). intros Hin.
      apply (Hdis c Hin). left. }
    assert (Htr' : foldl (visit h') R (flat_map (get_direct_dependencies h') (W1 ++ [c]))
                   = R ++ T').
    { specialize (Tr (flat_map (get_direct_dependencies h) W1)).
      unfold trav in Tr. rewrite take_0, filter_nil, app_nil_r in Tr.
      specialize (Tr Htr).
      rewrite flat_map_app. cbn [flat_map]. rewrite app_nil_r.
      rewrite (flat_map_ext_elem_of (get_direct_dependencies h')
                 (get_direct_dependencies h) W1).
      2: { intros x Hx. apply get_direct_dependencies_ext; [done|].
           apply F. by intros ->. }
      rewrite take_ge in Tr; [exact Tr|].
      rewrite <- (length_fmap (fun d => path (h' !!! d))),
        (mi_deps_paths _ _ _ _ _ _ _ _ M'), length_fmap, (g_deps _ _ _ G c n Hcs).
      by rewrite length_seq. }
    destruct (IH (n + length (inspect (path (h0 !!! c))).1) h' T' (W1 ++ [c]))
      as (h'' & T'' & Hrest & M'' & Htr''); [|done| |done|].
    { intros cs Hin. apply Hsub. by right. }
    { by rewrite <- app_assoc. }
    exists h'', T''. split; [|split; [done|]].
    + unfold process_items in *. cbn [foldM fst snd]. rewrite Hitem. cbn [bind].
      exact Hrest.
    + by rewrite <- app_assoc in Htr''.
Qed.

Lemma zip_layout h n W :
  zip W (fst <$> ((fun cs : obj * nat =>
                     (seq cs.2 (length (inspect (path (h !!! cs.1))).1),
                      (inspect (path (h !!! cs.1))).2)) <$> layout h n W))
  = (fun cs : obj * nat => (cs.1, seq cs.2 (length (inspect (path (h !!! cs.1))).1)))
    <$> layout h n W.
Proof.
  revert n. induction W as [|c W IH]; intros n; [done|].
  cbn [layout fmap list_fmap zip zip_with fst snd]. f_equal. apply IH.
Qed.

Lemma layout_fails h n W :
  snd <$> ((fun cs : obj * nat =>
              (seq cs.2 (length (inspect (path (h !!! cs.1))).1),
               (inspect (path (h !!! cs.1))).2)) <$> layout h n W)
  = (fun c => (inspect (path (h !!! c))).2) <$> W.
Proof.
  revert n. induction W as [|c W IH]; intros n; [done|].
  cbn [layout fmap list_fmap fst snd]. f_equal. apply IH.
Qed.

Lemma layout_has h n W c : c ∈ W → ∃ s, (c, s) ∈ layout h n W.
Proof.
  revert n. induction W as [|c' W IH]; intros n; [by intros ?%elem_of_nil|].
  intros [->|Hin]%elem_of_cons; simpl.
  - eexists. left.
  - destruct (IH (n + length (inspect (path (h !!! c'))).1) Hin) as [s Hs].
    exists s. by right.
Qed.

Lemma layout_cover h n W i :
  n ≤ i < layout_end h n W →
  ∃ c s, (c, s) ∈ layout h n W ∧ s ≤ i < s + length (inspect (path (h !!! c))).1.
Proof.
  revert n. induction W as [|c W IH]; intros n; simpl; [lia|]. intros Hi.
  destruct (decide (i < n + length (inspect (path (h !!! c))).1)) as [Hlt|Hge].
  - exists c, n. split; [left|lia].
  - destruct (IH (n + length (inspect (path (h !!! c))).1)) as (c' & s & Hin & Hr); [lia|].
    exists c', s. split; [by right|done].
Qed.

Lemma layout_end_le h n W : n ≤ layout_end h n W.
Proof.
  revert n. induction W as [|c W IH]; intros n; simpl; [done|].
  etrans; [|apply IH]. lia.
Qed.

(** ** One round of the loop keeps the invariant *)

Lemma merge_inv_init h W h1 R :
  gathered h W h1 →
  NoDup ((fun i => path (h !!! i)) <$> R) →
  (∀ i, i ∈ R → i < length h) →
  (∀ i d, i ∈ R → i ∉ W → d ∈ dependencies (h !!! i) → d < length h) →
  merge_inv h1 R W (layout h (length h) W) (length h) h1 [] (length h).
Proof.
  intros G Hnd HR Hdv. split; try done.
  - rewrite app_nil_r. erewrite list_fmap_ext; [exact Hnd|].
    intros k i Hk. cbn beta. apply (g_old _ _ _ G).
    apply HR. by eapply list_elem_of_lookup_2.
  - by intros x ?%elem_of_nil.
  - intros d ?. lia.
  - intros c s k Hin Hk _. rewrite (g_deps _ _ _ G c s Hin) in *.
    rewrite length_seq in Hk. by apply lookup_seq_lt.
  - intros c s k e Hin Hlt. apply layout_elem in Hin as (_ & ? & _). lia.
  - intros i d Hi Hd. pose proof (g_length _ _ _ G) as Hl.
    pose proof (layout_end_le h (length h) W).
    destruct (decide (i ∈ W)) as [HiW|HiW].
    + destruct (layout_has h (length h) W i HiW) as [s Hs].
      rewrite (g_deps _ _ _ G i s Hs) in Hd. apply elem_of_seq in Hd.
      apply layout_elem in Hs as (_ & _ & ?). lia.
    + destruct (g_old _ _ _ G i (HR i Hi)) as (_ & _ & E). rewrite E in Hd by done.
      specialize (Hdv i d Hi HiW Hd). lia.
Qed.

Lemma wave_preserves root root_path st W rest :
  collect_inv root root_path st → stack st = W :: rest →
  ∃ st', wave st W rest = Ok st'
         ∧ collect_inv root root_path st'
         ∧ all_resolved st' = all_resolved st ++ W
         ∧ W ≠ []
         ∧ (∃ T, stack st' = (if decide (0 < length T) then [T] else [])
                 ∧ foldl (visit (heap st')) (all_resolved st')
                         (flat_map (get_direct_dependencies (heap st')) W)
                   = all_resolved st' ++ T)
         ∧ length (heap st) ≤ length (heap st')
         ∧ (∀ i, i < length (heap st) → path (heap st' !!! i) = path (heap st !!! i))
         ∧ (∀ i, i ∈ all_resolved st →
                 dependencies (heap st' !!! i) = dependencies (heap st !!! i)).
Proof.
  clear resolve path_exists install_name_tool cwd.
  intros I Hst.
  destruct (inv_stack _ _ _ I) as [E|(W' & E & HW')]; rewrite Hst in E; [done|].
  injection E as <- ->.
  assert (Hknown : known st = all_resolved st ++ W).
  { unfold known. rewrite Hst. simpl. by rewrite app_nil_r. }
  pose proof (inv_valid _ _ _ I) as Hval. pose proof (inv_nodup _ _ _ I) as Hnd.
  rewrite Hknown in Hval, Hnd.
  set (h := heap st) in *. set (R := all_resolved st) in *.
  assert (HndRW : NoDup (R ++ W)) by (by eapply NoDup_fmap_1).
  apply NoDup_app in HndRW as (HndR & HRW & HndW).
  assert (HWv : ∀ i, i ∈ W → i < length h) by (intros; apply Hval; set_solver).
  destruct (gather_spec W h HWv HndW) as (h1 & Hg & G).
  assert (Minit : merge_inv h1 (R ++ W) W (layout h (length h) W) (length h) h1 []
                    (length h)).
  { apply merge_inv_init; [done..|].
    intros i d [Hi|Hi]%elem_of_app HiW Hd; [|done].
    by eapply (inv_deps_valid _ _ _ I). }
  destruct (process_items_steps h W h1 (R ++ W) G HndW Hval HWv W (length h) h1 [] []
              ltac:(done) Minit) as (h2 & T & Hproc & M & Htr);
    [done|by rewrite app_nil_r|].
  unfold wave. fold h R. rewrite Hg. cbv beta iota zeta.
  rewrite zip_layout, Hproc. cbn [bind]. eexists. split; [reflexivity|].
  pose proof (g_length _ _ _ G) as Hl1. pose proof (layout_end_le h (length h) W) as Hle.
  split; [|split; [done|split; [done|]]].
  2: { cbn [heap all_resolved stack]. split; [by exists T|].
       split; [rewrite (mi_length _ _ _ _ _ _ _ _ M); lia|]. split.
       - intros i Hi. rewrite (mi_path _ _ _ _ _ _ _ _ M). by apply (g_old _ _ _ G).
       - intros i Hi. assert (HiW : i ∉ W) by (by apply HRW).
         rewrite (mi_deps_old _ _ _ _ _ _ _ _ M) by done.
         destruct (g_old _ _ _ G i) as (_ & _ & ->); [|done..].
         apply Hval. set_solver. }
  destruct M as [M1 M2 M3 M4 M5 M6 M7 M8 M9 M10 M11 M12].
  rewrite <- Hl1 in M7, M9, M11.
  assert (P : ∀ i, i < length h → path (h2 !!! i) = path (h !!! i)).
  { intros i Hi. rewrite M2. by apply (g_old _ _ _ G). }
  assert (PR : ∀ i, i ∈ R ++ W → path (h2 !!! i) = path (h !!! i)) by auto.
  assert (Hk' : ∀ stk, stk = (if decide (0 < length T) then [T] else [])
                → concat stk = T).
  { intros stk ->. destruct T; simpl; [done|by rewrite app_nil_r]. }
  assert (Hown : ∀ d, length h ≤ d < length h1 →
             ∃ c s j rq, c ∈ W ∧ (c, s) ∈ layout h (length h) W ∧ d = s + j
                         ∧ (inspect (path (h !!! c))).1 !! j = Some rq
                         ∧ h1 !!! d = new_Dependency rq.1 rq.2).
  { intros d Hd. rewrite Hl1 in Hd.
    destruct (layout_cover h (length h) W d Hd) as (c & s & Hin & Hr).
    destruct (lookup_lt_is_Some_2 (inspect (path (h !!! c))).1 (d - s)) as [rq Hrq]; [lia|].
    exists c, s, (d - s), rq. split; [by apply layout_elem in Hin as (? & _)|].
    split; [done|]. split; [lia|]. split; [done|].
    replace d with (s + (d - s)) at 1 by lia. by apply (g_new _ _ _ G c s). }
  split; cbn [heap all_resolved stack failed_paths]; unfold known;
    cbn [heap all_resolved stack failed_paths]; rewrite ?(Hk' _ eq_refl).
  - destruct (decide (0 < length T)); [right|by left].
    exists T. split; [done|]. intros ->. simpl in *. lia.
  - intros i [Hi|Hi]%elem_of_app; [specialize (Hval i Hi); lia|].
    apply M7 in Hi. lia.
  - done.
  - destruct (inv_root _ _ _ I) as (tl & Htl & Hroot & Hsys).
    rewrite Hknown in Htl. exists (tl ++ T). split; [by rewrite Htl|].
    assert (Hrin : root ∈ R ++ W) by (rewrite Htl; left).
    split; [by rewrite PR|].
    intros i [Hi|Hi]%elem_of_app; [|by apply M7].
    rewrite <- (Hsys i Hi). apply is_sys_ext, PR. rewrite Htl. by right.
  - intros i [Hi|Hi]%elem_of_app.
    + rewrite PR by done. apply (inv_reach _ _ _ I). by rewrite Hknown.
    + destruct (M7 i Hi) as [Hr Hs].
      destruct (Hown i Hr) as (c & s & j & rq & HcW & Hin & -> & Hrq & Hnew).
      unfold is_sys in Hs. rewrite M2, Hnew in Hs. rewrite M2, Hnew.
      cbn [path new_Dependency] in *.
      apply (reach_step _ (path (h !!! c)) rq.1 rq.2); [| |done].
      { apply (inv_reach _ _ _ I). rewrite Hknown. set_solver. }
      destruct rq. by eapply list_elem_of_lookup_2.
  - intros i r q Hi Hrq Hq. rewrite PR in Hrq by done.
    apply elem_of_app in Hi as [Hi|Hi].
    + destruct (inv_refs _ _ _ I i r q Hi Hrq Hq) as (m & Hm & Hpm & Hrm).
      rewrite Hknown in Hm. exists m. split; [set_solver|].
      split; [by rewrite PR|]. apply M3.
      destruct (g_old _ _ _ G m (Hval m Hm)) as (_ & -> & _). done.
    + destruct (layout_has h (length h) W i Hi) as [s Hs].
      apply list_elem_of_lookup_1 in Hrq as [j Hj].
      pose proof (g_new _ _ _ G i s j (r, q) Hs Hj) as Hnew.
      pose proof (lookup_lt_Some _ _ _ Hj) as Hjlt.
      pose proof (layout_elem _ _ _ _ _ Hs) as (_ & ? & ?).
      destruct (M9 (s + j)) as (m & Hm & Hpm & Hrm); [lia| |].
      { unfold is_sys. by rewrite M2, Hnew. }
      exists m. split; [done|]. rewrite Hpm, M2, Hnew. split; [done|].
      apply Hrm. rewrite Hnew. cbn. set_solver.
  - rewrite (inv_failed _ _ _ I), layout_fails, fmap_app, concat_app. fold R h.
    f_equal; f_equal; apply list_fmap_ext; intros k i Hk; cbn beta;
      rewrite PR; [done| |done|]; apply list_elem_of_lookup_2 in Hk; set_solver.
  - intros i Hi. rewrite M4, PR by done.
    destruct (decide (i ∈ W)) as [HiW|HiW].
    + destruct (layout_has h (length h) W i HiW) as [s Hs].
      rewrite (g_deps _ _ _ G i s Hs).
      apply list_eq. intros j. rewrite !list_lookup_fmap.
      destruct ((inspect (path (h !!! i))).1 !! j) as [rq|] eqn:Hj.
      * rewrite lookup_seq_lt by (by eapply lookup_lt_Some). cbn.
        by rewrite (g_new _ _ _ G i s j rq Hs Hj).
      * rewrite lookup_seq_ge; [done|]. by apply lookup_ge_None.
    + assert (HiR : i ∈ R) by set_solver.
      destruct (g_old _ _ _ G i (Hval i Hi)) as (_ & _ & E). rewrite E by done.
      pose proof (inv_deps_paths _ _ _ I i HiR) as Hdp. fold h in Hdp.
      rewrite <- Hdp. apply list_fmap_ext. intros k d Hk. cbn beta. apply (g_old _ _ _ G).
      eapply (inv_deps_valid _ _ _ I i d HiR). by eapply list_elem_of_lookup_2.
  - intros i k e Hi Hk Hsys Hfirst.
    destruct (decide (i ∈ W)) as [HiW|HiW].
    + destruct (layout_has h (length h) W i HiW) as [s Hs].
      apply (M11 i s k e Hs); [|done..].
      pose proof (lookup_lt_Some _ _ _ Hk) as Hklt.
      rewrite <- (length_fmap (fun d => path (h2 !!! d))), M4, length_fmap in Hklt.
      rewrite (g_deps _ _ _ G i s Hs), length_seq in Hklt.
      apply layout_elem in Hs as (_ & _ & ?). lia.
    + assert (HiR : i ∈ R) by set_solver.
      destruct (g_old _ _ _ G i (Hval i Hi)) as (_ & _ & E).
      rewrite M5, E in Hk, Hfirst by done.
      assert (Hdv : ∀ k d, dependencies (h !!! i) !! k = Some d → d < length h).
      { intros k' d Hd. eapply (inv_deps_valid _ _ _ I i d HiR).
        by eapply list_elem_of_lookup_2. }
      assert (e ∈ known st); [|rewrite Hknown in *; set_solver].
      apply (inv_edges _ _ _ I i k e HiR Hk).
      * rewrite <- Hsys. symmetry. apply is_sys_ext, P. by eapply Hdv.
      * intros k' e' Hlt' Hke'. fold h in Hke' |- *.
        rewrite <- (P e'), <- (P e) by (by eapply Hdv).
        by eapply Hfirst.
  - intros i d Hi Hd. by eapply M12.
Qed.

(** ** The loop *)

Lemma collect_inv_init h root :
  root < length h →
  collect_inv root (path (h !!! root))
    {| heap := h; failed_paths := []; all_resolved := []; stack := [[root]] |}.
Proof.
  intros Hroot. split; unfold known; cbn [heap all_resolved stack failed_paths concat app].
  - right. by exists [root].
  - by intros i ->%list_elem_of_singleton.
  - apply NoDup_singleton.
  - exists []. split; [done|]. split; [done|]. by intros i ?%elem_of_nil.
  - intros i ->%list_elem_of_singleton. apply reach_root.
  - by intros i r q ?%elem_of_nil.
  - done.
  - by intros i ?%elem_of_nil.
  - by intros i k e ?%elem_of_nil.
  - by intros i d ?%elem_of_nil.
Qed.

Lemma loop_state_inv h root st :
  root < length h → loop_state h root st → collect_inv root (path (h !!! root)) st.
Proof.
  intros Hroot. induction 1 as [|st W rest st' _ IH Hst Hw].
  - by apply collect_inv_init.
  - destruct (wave_preserves _ _ st W rest IH Hst) as (st'' & Hw' & I & _).
    rewrite Hw in Hw'. by injection Hw' as <-.
Qed.

Lemma collect_loop_states h root fuel st st' :
  loop_state h root st → collect_loop fuel st = Ok st' →
  loop_state h root st' ∧ stack st' = [].
Proof.
  revert st. induction fuel as [|fuel IH]; intros st Hls; simpl.
  - destruct (stack st) eqn:Hst; [|done]. by intros [= <-].
  - destruct (stack st) as [|W rest] eqn:Hst; [by intros [= <-]|].
    destruct (wave st W rest) as [st1| |] eqn:Hw; [|done..]. cbn [bind].
    apply IH. by eapply loop_wave.
Qed.

Lemma reach_in_universe root_path U p :
  closed_universe root_path U → reach root_path p → p ∈ U.
Proof.
  intros [Hroot Hcl]. induction 1 as [|p r q _ IH Hrq Hq]; [done|].
  rewrite Forall_forall in Hcl. specialize (Hcl p IH).
  rewrite Forall_forall in Hcl. by apply (Hcl (r, q)).
Qed.

Lemma known_bounded root root_path U st :
  closed_universe root_path U → collect_inv root root_path st →
  length (known st) ≤ length U.
Proof.
  intros Hcl I.
  rewrite <- (length_fmap (fun i => path (heap st !!! i))).
  apply submseteq_length, NoDup_submseteq; [apply (inv_nodup _ _ _ I)|].
  intros p (i & -> & Hi)%list_elem_of_fmap.
  eapply reach_in_universe; [done|]. by apply (inv_reach _ _ _ I).
Qed.

Lemma collect_loop_total root root_path U fuel : ∀ st,
  closed_universe root_path U → collect_inv root root_path st →
  length U < fuel + length (all_resolved st) →
  ∃ st', collect_loop fuel st = Ok st'.
Proof.
  induction fuel as [|fuel IH]; intros st Hcl I Hfuel.
  - pose proof (known_bounded _ _ _ _ Hcl I) as Hb. unfold known in Hb.
    rewrite length_app in Hb. lia.
  - simpl. destruct (stack st) as [|W rest] eqn:Hst; [by eexists|].
    destruct (wave_preserves _ _ st W rest I Hst) as (st1 & -> & I1 & HR & HW & _).
    cbn [bind]. apply IH; [done|done|]. rewrite HR, length_app.
    destruct W; [done|]. simpl. lia.
Qed.

Lemma resolved_is_closure root root_path st :
  collect_inv root root_path st → stack st = [] →
  ∀ p, p ∈ (fun i => path (heap st !!! i)) <$> all_resolved st ↔ reach root_path p.
Proof.
  intros I Hst.
  assert (Hk : known st = all_resolved st).
  { unfold known. rewrite Hst. simpl. apply app_nil_r. }
  intros p. split.
  - intros (i & -> & Hi)%list_elem_of_fmap. apply (inv_reach _ _ _ I). by rewrite Hk.
  - induction 1 as [|p r q _ IH Hrq Hq].
    + destruct (inv_root _ _ _ I) as (tl & Htl & <- & _). rewrite Hk in Htl.
      apply list_elem_of_fmap. exists root. split; [done|]. rewrite Htl. left.
    + apply list_elem_of_fmap in IH as (i & -> & Hi).
      destruct (inv_refs _ _ _ I i r q Hi Hrq Hq) as (m & Hm & <- & _).
      rewrite Hk in Hm. apply list_elem_of_fmap. by exists m.
Qed.

(** C2. For a root whose references form a finite graph, cycles included,
    [collect] returns. In every state of the loop the resolved and the
    queued nodes have pairwise different canonical paths, so that no
    resolved node is queued or expanded again; at the end the paths of the
    resolved nodes are exactly the root and the non-system files reachable
    from it, one node for each. *)
Theorem collect_terminates_with_closure h root_dep U fuel verbose :
  root_dep < length h →
  closed_universe (path (h !!! root_dep)) U →
  length U < fuel →
  (∀ st, loop_state h root_dep st →
         NoDup ((fun i => path (heap st !!! i)) <$> (all_resolved st ++ concat (stack st))))
  ∧ ∃ st warnings,
      collect fuel verbose h root_dep = Ok (st, warnings)
      ∧ stack st = []
      ∧ NoDup ((fun i => path (heap st !!! i)) <$> all_resolved st)
      ∧ ∀ p, p ∈ (fun i => path (heap st !!! i)) <$> all_resolved st
             ↔ reach (path (h !!! root_dep)) p.
Proof.
  intros Hroot Hcl Hfuel. split.
  { intros st Hls. apply (inv_nodup _ _ _ (loop_state_inv _ _ _ Hroot Hls)). }
  pose proof (collect_inv_init h root_dep Hroot) as I0.
  destruct (collect_loop_total root_dep _ U fuel _ Hcl I0) as [st Hloop]; [simpl; lia|].
  destruct (collect_loop_states h root_dep fuel _ st (loop_init _ _) Hloop) as [Hls Hst].
  pose proof (loop_state_inv _ _ _ Hroot Hls) as I.
  unfold collect. rewrite Hloop. cbn [bind]. eexists _, _. split; [done|].
  split; [done|]. split.
  - pose proof (inv_nodup _ _ _ I) as Hnd. unfold known in Hnd.
    rewrite Hst in Hnd. simpl in Hnd. by rewrite app_nil_r in Hnd.
  - by apply (resolved_is_closure root_dep).
Qed.

(** ** After [collect] *)

Lemma collect_Ok_inv fuel v h root st w :
  root < length h →
  collect fuel v h root = Ok (st, w) →
  collect_inv root (path (h !!! root)) st
  ∧ stack st = []
  ∧ known st = all_resolved st
  ∧ w = collect_warnings v (name (path (heap st !!! root))) (failed_paths st).
Proof.
  intros Hroot. unfold collect.
  destruct (collect_loop fuel _) as [st1| |] eqn:Hloop; [|done..].
  cbn [bind]. intros [= <- <-].
  destruct (collect_loop_states h root fuel _ st1 (loop_init _ _) Hloop) as [Hls Hst].
  split; [by apply loop_state_inv|]. split; [done|]. split; [|done].
  unfold known. rewrite Hst. simpl. apply app_nil_r.
Qed.

Lemma resolved_edge root root_path st i r q :
  collect_inv root root_path st → known st = all_resolved st →
  i ∈ all_resolved st → (r, q) ∈ (inspect (path (heap st !!! i))).1 →
  is_sys_path q = false →
  ∃ m, m ∈ all_resolved st ∧ path (heap st !!! m) = q
       ∧ r ∈ referred_as (heap st !!! m)
       ∧ m ∈ get_direct_dependencies (heap st) i.
Proof.
  intros I Hk Hi Hrq Hq.
  destruct (inv_refs _ _ _ I i r q Hi Hrq Hq) as (m & Hm & Hpm & Hrm).
  rewrite Hk in Hm. exists m. do 3 (split; [done|]).
  assert (Hin : q ∈ (fun d => path (heap st !!! d)) <$> dependencies (heap st !!! i)).
  { rewrite (inv_deps_paths _ _ _ I i Hi).
    apply list_elem_of_fmap. by exists (r, q). }
  apply list_elem_of_fmap in Hin as (d & Hd & Hdin).
  destruct (list_find_elem_of (fun d => path (heap st !!! d) = q)
              (dependencies (heap st !!! i)) d Hdin) as [[k e] Hfind]; [done|].
  apply list_find_Some in Hfind as (Hke & Hpe & Hmin).
  assert (Hsys : is_sys (heap st) e = false) by (unfold is_sys; by rewrite Hpe).
  assert (He : e ∈ known st).
  { apply (inv_edges _ _ _ I i k e Hi Hke Hsys).
    intros k' e' Hlt Hk'. rewrite Hpe. by apply (Hmin k' e'). }
  rewrite Hk in He.
  assert (e = m) as ->.
  { pose proof (inv_nodup _ _ _ I) as Hnd. rewrite Hk in Hnd.
    eapply NoDup_fmap_eq; [exact Hnd|done..|]. cbn beta. congruence. }
  apply list_elem_of_filter. split; [done|]. by eapply list_elem_of_lookup_2.
Qed.

Lemma patch_args_change h root dest rlp consumer m r :
  m ∈ get_direct_dependencies h consumer → r ∈ referred_as (h !!! m) →
  ∃ pre post,
    patch_args h root dest rlp consumer
    = pre ++ ["-change"; r; new_reference h root rlp consumer m] ++ post.
Proof.
  intros Hm Hr. rewrite patch_args_plan. unfold plan_args, primitive_args, rewrites.
  rewrite flat_map_rewrites.
  apply list_elem_of_split in Hm as (d1 & d2 & ->).
  apply elem_of_elements, list_elem_of_split in Hr as (r1 & r2 & Er).
  set (G := fun dep => flat_map (fun r0 => ["-change"; r0; new_reference h root rlp consumer dep])).
  set (F := flat_map (fun dep => G dep (elements (referred_as (h !!! dep))))).
  exists (["install_name_tool"; patched_file h root dest consumer; "-id";
           new_identifier h consumer] ++ F d1 ++ G m r1),
         (G m r2 ++ F d2).
  unfold F at 1. rewrite flat_map_app. cbn [flat_map]. rewrite Er.
  unfold G at 2. rewrite flat_map_app. cbn [flat_map].
  fold (G m r1) (G m r2) (F d1) (F d2).
  by rewrite <- !app_assoc.
Qed.

(** C4. When two resolved consumers refer to the same non-system file by
    the strings [r1] and [r2], there is one resolved node for that file,
    its [referred_as] holds both strings, both consumers have it as an
    outgoing edge, and the patch of either consumer carries one [-change]
    instruction for every string of its [referred_as]. *)
Theorem references_accumulate h root_dep fuel v st warnings X Y r1 r2 q :
  root_dep < length h →
  collect fuel v h root_dep = Ok (st, warnings) →
  X ∈ all_resolved st → Y ∈ all_resolved st →
  (r1, q) ∈ (inspect (path (heap st !!! X))).1 →
  (r2, q) ∈ (inspect (path (heap st !!! Y))).1 →
  is_sys_path q = false →
  ∃ m, m ∈ all_resolved st ∧ path (heap st !!! m) = q
       ∧ (∀ m', m' ∈ all_resolved st → path (heap st !!! m') = q → m' = m)
       ∧ r1 ∈ referred_as (heap st !!! m) ∧ r2 ∈ referred_as (heap st !!! m)
       ∧ m ∈ get_direct_dependencies (heap st) X
       ∧ m ∈ get_direct_dependencies (heap st) Y
       ∧ ∀ consumer root dest rlp r,
           consumer = X ∨ consumer = Y → r ∈ referred_as (heap st !!! m) →
           ∃ pre post,
             patch_args (heap st) root dest rlp consumer
             = pre ++ ["-change"; r; new_reference (heap st) root rlp consumer m]
                   ++ post.
Proof.
  intros Hroot Hcol HX HY H1 H2 Hq.
  destruct (collect_Ok_inv _ _ _ _ _ _ Hroot Hcol) as (I & Hst & Hk & _).
  destruct (resolved_edge _ _ st X r1 q I Hk HX H1 Hq) as (m & Hm & Hpm & Hr1 & HmX).
  destruct (resolved_edge _ _ st Y r2 q I Hk HY H2 Hq) as (m' & Hm' & Hpm' & Hr2 & HmY).
  pose proof (inv_nodup _ _ _ I) as Hnd. rewrite Hk in Hnd.
  assert (Huniq : ∀ n, n ∈ all_resolved st → path (heap st !!! n) = q → n = m).
  { intros n Hn Hpn. eapply NoDup_fmap_eq; [exact Hnd|done..|]. cbn beta. congruence. }
  rewrite (Huniq m' Hm' Hpm') in *.
  exists m. do 7 (split; [done|]).
  intros consumer root dest rlp r [->| ->] Hr; by apply patch_args_change.
Qed.

(** ** System libraries *)

Lemma get_direct_dependencies_not_sys h item d :
  d ∈ get_direct_dependencies h item → is_sys h d = false.
Proof. unfold get_direct_dependencies. by intros [? _]%list_elem_of_filter. Qed.

Lemma visit_fold h d : ∀ l rest,
  (∀ x, x ∈ l → is_sys h x = false) → (∀ x, x ∈ rest → is_sys h x = false) →
  ∃ rest', foldl (visit h) (d :: rest) l = d :: rest'
           ∧ ∀ x, x ∈ rest' → is_sys h x = false.
Proof.
  induction l as [|a l IH]; intros rest Hl Hrest; [by exists rest|].
  cbn [foldl]. unfold visit at 2. destruct (decide _).
  - apply IH; [|done]. intros x Hx. apply Hl. by right.
  - apply (IH (rest ++ [a])).
    + intros x Hx. apply Hl. by right.
    + intros x [Hx|Hx%list_elem_of_singleton]%elem_of_app; [by apply Hrest|].
      subst x. apply Hl. left.
Qed.

Lemma closure_not_sys h d fuel : ∀ rest frontier,
  (∀ x, x ∈ rest → is_sys h x = false) →
  ∃ rest', closure fuel h (d :: rest) frontier = d :: rest'
           ∧ ∀ x, x ∈ rest' → is_sys h x = false.
Proof.
  induction fuel as [|fuel IH]; intros rest frontier Hrest; [by exists rest|].
  cbn [closure].
  destruct (visit_fold h d (flat_map (get_direct_dependencies h) frontier) rest)
    as (rest' & -> & Hrest'); [|done|].
  { intros x Hx. apply list_elem_of_In, in_flat_map in Hx as (c & _ & Hx).
    apply list_elem_of_In in Hx. by eapply get_direct_dependencies_not_sys. }
  destruct (drop _ _); [by exists rest|]. by apply IH.
Qed.

Lemma get_dependencies_not_sys h d item :
  item ∈ get_dependencies h d → is_sys h item = false.
Proof.
  unfold get_dependencies.
  destruct (closure_not_sys h d (length h) [] [d]) as (rest & -> & Hrest).
  { by intros x ?%elem_of_nil. }
  simpl. rewrite drop_0. apply Hrest.
Qed.

(** C8 (amended). No node other than the root itself that is classified as
    a system library is ever among the resolved nodes or on the stack; no
    outgoing edge leads to one; and every process that [patch] starts is
    for the root or for a node that is not a system library. *)
Theorem system_nodes_stay_out h root_dep :
  root_dep < length h →
  (∀ st i, loop_state h root_dep st → i ∈ all_resolved st ++ concat (stack st) →
           i ≠ root_dep → is_sys (heap st) i = false)
  ∧ (∀ h' item d, d ∈ get_direct_dependencies h' item → is_sys h' d = false)
  ∧ (∀ v h' root dest rlp pargs,
       pargs ∈ execs (p_events (patch v h' root dest rlp)) →
       ∃ item, pargs = patch_args h' root dest rlp item
               ∧ (item = root ∨ is_sys h' item = false)).
Proof.
  intros Hroot. split; [|split].
  - intros st i Hls Hi Hne.
    destruct (inv_root _ _ _ (loop_state_inv _ _ _ Hroot Hls)) as (tl & Htl & _ & Hsys).
    unfold known in Htl. rewrite Htl in Hi.
    apply elem_of_cons in Hi as [->|Hi]; [done|]. by apply Hsys.
  - apply get_direct_dependencies_not_sys.
  - intros v h' root dest rlp pargs. rewrite patch_unfold. cbn [p_events].
    rewrite execs_app, execs_ensure_dir, execs_items. cbn [app].
    intros Hin. apply list_elem_of_In, in_map_iff in Hin as (item & <- & Hitem).
    apply list_elem_of_In in Hitem. exists item. split; [done|].
    apply elem_of_cons in Hitem as [->|Hitem]; [by left|right].
    by eapply get_dependencies_not_sys.
Qed.

(** ** Unresolved references *)

Lemma collect_failed_paths fuel v h root st w :
  root < length h →
  collect fuel v h root = Ok (st, w) →
  failed_paths st
  = concat ((fun i => (inspect (path (heap st !!! i))).2) <$> all_resolved st)
  ∧ w = collect_warnings v (name (path (heap st !!! root))) (failed_paths st).
Proof.
  intros Hroot Hcol.
  destruct (collect_Ok_inv _ _ _ _ _ _ Hroot Hcol) as (I & _ & _ & Hw).
  split; [apply (inv_failed _ _ _ I)|done].
Qed.

(** ** What a patching run does to the world *)

Lemma copies_ensure_dir p : copies (ensure_dir p) = [].
Proof. unfold ensure_dir. by destruct (negb _). Qed.

Lemma copies_items h root dest rlp items :
  copies (flat_map (fun item =>
               (if decide (dep_eq h item root) then []
                else [Copyfile (str (path (h !!! item)))
                               (str (joinname dest (name (path (h !!! item)))))])
               ++ [Exec (patch_args h root dest rlp item)]) items)
  = (fun item => (str (path (h !!! item)), str (joinname dest (name (path (h !!! item))))))
    <$> filter (fun item => ¬ dep_eq h item root) items.
Proof.
  induction items as [|item items IH]; [done|].
  cbn [flat_map]. rewrite !copies_app, IH.
  destruct (decide (dep_eq h item root)).
  - by rewrite filter_cons_False by (intros Hn; by apply Hn).
  - by rewrite filter_cons_True by done.
Qed.

Lemma main_patches fuel args p st w :
  dry_run args = false →
  resolve (file args) = Some p →
  collect fuel (verbose args) [new_Dependency (str (file args)) p] 0 = Ok (st, w) →
  (prepatch_output args (heap st) 0).2 = true →
  let h := heap st in
  let dl := get_dest_and_loader_path (path (h !!! 0)) (destination args) in
  let items := 0 :: get_dependencies h 0 in
  execs (m_events (main fuel args)) = map (patch_args h 0 dl.1 dl.2) items
  ∧ copies (m_events (main fuel args))
    = (fun item => (str (path (h !!! item)), str (joinname dl.1 (name (path (h !!! item))))))
      <$> filter (fun item => ¬ dep_eq h item 0) items.
Proof.
  intros Hdry Hres Hcol Hok h dl items.
  rewrite (main_patch_unfold fuel args p st w Hres Hcol Hok Hdry).
  fold h. fold dl.
  assert (E : ∀ r1 r2 : main_result, m_events r1 = m_events r2 →
              ∀ b : bool, m_events (if b then r1 else r2) = m_events r1).
  { intros r1 r2 Hr b. by destruct b. }
  rewrite E by done. cbn [m_events]. rewrite patch_unfold. cbn [p_events].
  fold items. rewrite execs_app, execs_ensure_dir, execs_items.
  by rewrite copies_app, copies_ensure_dir, copies_items.
Qed.

(** ** Edges of the closed graph *)

Lemma NoDup_filter_lookup {A} (Q : A → Prop) `{!∀ x, Decision (Q x)} (l : list A) i j x :
  NoDup (filter Q l) → Q x → l !! i = Some x → l !! j = Some x → i = j.
Proof.
  revert i j. induction l as [|a l IH]; intros i j Hnd HQ Hi Hj; [done|].
  destruct (decide (Q a)) as [Ha|Ha].
  - rewrite filter_cons_True in Hnd by done. apply NoDup_cons in Hnd as [Hna Hnd].
    destruct i as [|i], j as [|j]; simpl in *; [done| | |f_equal; by apply IH].
    + injection Hi as ->. destruct Hna. apply list_elem_of_filter. split; [done|].
      by eapply list_elem_of_lookup_2.
    + injection Hj as ->. destruct Hna. apply list_elem_of_filter. split; [done|].
      by eapply list_elem_of_lookup_2.
  - rewrite filter_cons_False in Hnd by done.
    destruct i as [|i], j as [|j]; simpl in *; [done| | |f_equal; by apply IH].
    + by injection Hi as ->.
    + by injection Hj as ->.
Qed.

(** ** Further properties of [collect] *)

Lemma collect_loop_no_ValueError root root_path fuel : ∀ st,
  collect_inv root root_path st → collect_loop fuel st ≠ ValueError.
Proof.
  induction fuel as [|fuel IH]; intros st I; simpl;
    destruct (stack st) as [|W rest] eqn:Hst; try done.
  destruct (wave_preserves _ _ st W rest I Hst) as (st1 & -> & I1 & _).
  cbn [bind]. by apply IH.
Qed.

(** X1. [collect] never raises [ValueError]: the lookup
    [item.dependencies.index(dep)] of line 52 always finds an entry,
    whatever the graph, so a run of [collect] either returns or is still
    in its loop. *)
Theorem collect_never_raises_ValueError fuel v h root_dep :
  root_dep < length h → collect fuel v h root_dep ≠ ValueError.
Proof.
  intros Hroot. unfold collect.
  pose proof (collect_loop_no_ValueError _ _ fuel _ (collect_inv_init h root_dep Hroot))
    as Hne.
  by destruct (collect_loop fuel _).
Qed.

(** X2. The stack of [collect] never holds more than one frontier, and
    never an empty one: every round pops the only frontier and pushes at
    most the next one, so the nodes are resolved wave by wave, the root
    first. *)
Theorem stack_holds_one_frontier h root_dep st :
  root_dep < length h → loop_state h root_dep st →
  length (stack st) ≤ 1
  ∧ Forall (fun W => W ≠ []) (stack st)
  ∧ ∃ tl, all_resolved st ++ concat (stack st) = root_dep :: tl.
Proof.
  intros Hroot Hls. pose proof (loop_state_inv _ _ _ Hroot Hls) as I.
  destruct (inv_root _ _ _ I) as (tl & Htl & _).
  destruct (inv_stack _ _ _ I) as [E|(W & E & HW)]; rewrite E.
  - split; [simpl; lia|]. split; [done|]. exists tl. unfold known in Htl.
    by rewrite E in Htl.
  - split; [done|]. split; [by repeat constructor|]. exists tl. unfold known in Htl.
    by rewrite E in Htl.
Qed.

(** X3. In a finite reference graph in which no file names the same
    non-system file twice, [collect] leaves one object per canonical path
    among the resolved nodes, and every outgoing non-system edge of a
    resolved node is itself a resolved node: the rewiring of line 52 has
    replaced every duplicate. *)
Theorem edges_resolved_without_repeated_references h root_dep fuel v st warnings U :
  root_dep < length h →
  closed_universe (path (h !!! root_dep)) U →
  Forall (fun p => NoDup (filter (fun q => is_sys_path q = false) (snd <$> (inspect p).1)))
         U →
  collect fuel v h root_dep = Ok (st, warnings) →
  (∀ a b, a ∈ all_resolved st → b ∈ all_resolved st →
          path (heap st !!! a) = path (heap st !!! b) → a = b)
  ∧ (∀ i e, i ∈ all_resolved st → e ∈ get_direct_dependencies (heap st) i →
            e ∈ all_resolved st).
Proof.
  intros Hroot Hcl HU Hcol.
  destruct (collect_Ok_inv _ _ _ _ _ _ Hroot Hcol) as (I & Hst & Hk & _).
  pose proof (inv_nodup _ _ _ I) as Hnd. rewrite Hk in Hnd.
  assert (Hdup : ∀ i, i ∈ all_resolved st →
            NoDup (filter (fun q => is_sys_path q = false)
                          (snd <$> (inspect (path (heap st !!! i))).1))).
  { intros i Hi. rewrite Forall_forall in HU. apply HU.
    eapply reach_in_universe; [done|]. apply (inv_reach _ _ _ I). by rewrite Hk. }
  split.
  - intros a b Ha Hb Hp. by eapply NoDup_fmap_eq.
  - intros i e Hi [Hsys He]%list_elem_of_filter.
    apply list_elem_of_lookup_1 in He as [k Hk'].
    rewrite <- Hk. apply (inv_edges _ _ _ I i k e Hi Hk' Hsys).
    intros k' e' Hlt Hk'' Heq.
    assert (k' = k); [|lia].
    eapply (NoDup_filter_lookup (fun q => is_sys_path q = false)
              (snd <$> (inspect (path (heap st !!! i))).1) k' k (path (heap st !!! e)));
      [by apply Hdup|exact Hsys| |].
    + rewrite <- (inv_deps_paths _ _ _ I i Hi), list_lookup_fmap, Hk''. simpl. by rewrite Heq.
    + by rewrite <- (inv_deps_paths _ _ _ I i Hi), list_lookup_fmap, Hk'.
Qed.

(** ** [get_dependencies] of the root after [collect] *)

Lemma visit_ext_on (h h' : list Dependency) seen d :
  (∀ i, i ∈ seen ++ [d] → path (h' !!! i) = path (h !!! i)) →
  visit h' seen d = visit h seen d.
Proof.
  clear resolve path_exists install_name_tool cwd.
  intros Hp. unfold visit.
  assert (Hiff : Exists (fun e => dep_eq h' e d) seen ↔ Exists (fun e => dep_eq h e d) seen).
  { unfold dep_eq. rewrite !Exists_exists.
    split; intros (e & He & Heq); exists e; (split; [done|]).
    - rewrite <- (Hp e), <- (Hp d); [done|set_solver..].
    - rewrite (Hp e), (Hp d); [done|set_solver..]. }
  destruct (decide (Exists (fun e => dep_eq h' e d) seen)),
           (decide (Exists (fun e => dep_eq h e d) seen)); try done.
  - exfalso. by apply n, Hiff.
  - exfalso. by apply n, Hiff.
Qed.

Lemma visit_elem_of h seen d i : i ∈ visit h seen d → i ∈ seen ++ [d].
Proof.
  unfold visit. destruct (decide _); [|done]. intros Hi. apply elem_of_app. by left.
Qed.

Lemma foldl_visit_ext_on (h h' : list Dependency) l : ∀ seen,
  (∀ i, i ∈ seen ++ l → path (h' !!! i) = path (h !!! i)) →
  foldl (visit h') seen l = foldl (visit h) seen l.
Proof.
  induction l as [|d l IH]; intros seen Hp; [done|].
  cbn [foldl]. rewrite (visit_ext_on h h').
  - apply IH. intros i [Hi|Hi]%elem_of_app; apply Hp.
    + apply visit_elem_of in Hi.
      apply elem_of_app in Hi as [Hi|Hi%list_elem_of_singleton].
      * apply elem_of_app. by left.
      * subst i. apply elem_of_app. right. left.
    + apply elem_of_app. right. by right.
  - intros i [Hi|Hi%list_elem_of_singleton]%elem_of_app; apply Hp.
    + apply elem_of_app. by left.
    + subst i. apply elem_of_app. right. left.
Qed.

Lemma get_direct_dependencies_ext_on (h h' : list Dependency) i :
  dependencies (h' !!! i) = dependencies (h !!! i) →
  (∀ d, d ∈ dependencies (h !!! i) → path (h' !!! d) = path (h !!! d)) →
  get_direct_dependencies h' i = get_direct_dependencies h i.
Proof.
  unfold get_direct_dependencies. intros ->.
  induction (dependencies (h !!! i)) as [|d l IH]; intros Hp; [done|].
  assert (Hd : is_sys h' d = is_sys h d) by (apply is_sys_ext, Hp; left).
  assert (Hl : filter (fun d => is_sys h' d = false) l
               = filter (fun d => is_sys h d = false) l).
  { apply IH. intros x Hx. apply Hp. by right. }
  destruct (decide (is_sys h d = false)) as [Hs|Hs].
  - rewrite !filter_cons_True; [by rewrite Hl|done|by rewrite Hd].
  - rewrite !filter_cons_False; [done|done|by rewrite Hd].
Qed.

Lemma collect_loop_frame root root_path fuel : ∀ st st',
  collect_inv root root_path st → collect_loop fuel st = Ok st' →
  collect_inv root root_path st'
  ∧ stack st' = []
  ∧ length (heap st) ≤ length (heap st')
  ∧ (∀ i, i < length (heap st) → path (heap st' !!! i) = path (heap st !!! i))
  ∧ (∀ i, i ∈ all_resolved st →
          dependencies (heap st' !!! i) = dependencies (heap st !!! i))
  ∧ length (known st) ≤ length (all_resolved st').
Proof.
  clear resolve path_exists install_name_tool cwd.
  assert (Hbase : ∀ st, collect_inv root root_path st → stack st = [] →
            collect_inv root root_path st ∧ stack st = []
            ∧ length (heap st) ≤ length (heap st)
            ∧ (∀ i, i < length (heap st) → path (heap st !!! i) = path (heap st !!! i))
            ∧ (∀ i, i ∈ all_resolved st →
                    dependencies (heap st !!! i) = dependencies (heap st !!! i))
            ∧ length (known st) ≤ length (all_resolved st)).
  { intros st I Hst. split; [done|]. split; [done|]. split; [done|].
    split; [done|]. split; [done|]. unfold known. rewrite Hst. simpl.
    by rewrite app_nil_r. }
  induction fuel as [|fuel IH]; intros st st' I; simpl;
    destruct (stack st) as [|W rest] eqn:Hst.
  - intros [= <-]. by apply Hbase.
  - done.
  - intros [= <-]. by apply Hbase.
  - destruct (wave_preserves _ _ st W rest I Hst)
      as (st1 & Hw & I1 & HR & HW & _ & Hlen & Hp & Hd).
    rewrite Hw. cbn [bind]. intros Hloop.
    destruct (IH st1 st' I1 Hloop) as (I' & Hs' & Hlen' & Hp' & Hd' & Hk').
    split; [done|]. split; [done|]. split; [lia|]. split; [|split].
    + intros i Hi. rewrite Hp' by lia. by apply Hp.
    + intros i Hi. rewrite Hd'; [by apply Hd|]. rewrite HR. apply elem_of_app. by left.
    + etrans; [|exact Hk']. unfold known. rewrite !length_app, HR, length_app.
      destruct (inv_stack _ _ _ I) as [E|(W' & E & _)]; rewrite Hst in E; [done|].
      injection E as <- ->. rewrite Hst. simpl. rewrite length_app. simpl. lia.
Qed.

Lemma closure_replays_collect root root_path fuel : ∀ st st' W n,
  collect_inv root root_path st → stack st = [W] →
  collect_loop fuel st = Ok st' →
  length (all_resolved st') < n + length (known st) →
  closure n (heap st') (known st) W = all_resolved st'.
Proof.
  clear resolve path_exists install_name_tool cwd.
  induction fuel as [|fuel IH]; intros st st' W n I Hst; simpl; rewrite Hst; [done|].
  destruct (wave_preserves _ _ st W [] I Hst)
    as (st1 & Hw & I1 & HR & HW & (T & HT & Htr) & Hlen & Hp & Hd).
  rewrite Hw. cbn [bind]. intros Hloop Hn.
  destruct (collect_loop_frame _ _ fuel st1 st' I1 Hloop)
    as (I' & Hs' & Hlen' & Hp' & Hd' & Hk').
  assert (Hknown : known st = all_resolved st1).
  { unfold known. rewrite Hst, HR. simpl. by rewrite app_nil_r. }
  assert (Hknown1 : known st1 = all_resolved st1 ++ T).
  { unfold known. rewrite HT. destruct T; simpl; by rewrite ?app_nil_r. }
  rewrite Hknown in *.
  destruct n as [|n].
  { rewrite Hknown1, length_app in Hk'. simpl in Hn. lia. }
  assert (HWres : ∀ c, c ∈ W → c ∈ all_resolved st1).
  { intros c Hc. rewrite HR. apply elem_of_app. by right. }
  assert (Hseen : foldl (visit (heap st')) (all_resolved st1)
                        (flat_map (get_direct_dependencies (heap st')) W)
                  = all_resolved st1 ++ T).
  { rewrite <- Htr.
    rewrite (flat_map_ext_elem_of (get_direct_dependencies (heap st'))
               (get_direct_dependencies (heap st1)) W).
    - apply foldl_visit_ext_on. intros i [Hi|Hi]%elem_of_app; apply Hp'.
      + apply (inv_valid _ _ _ I1). rewrite Hknown1. apply elem_of_app. by left.
      + apply list_elem_of_In, in_flat_map in Hi as (c & Hc & Hi).
        apply list_elem_of_In in Hc, Hi. unfold get_direct_dependencies in Hi.
        apply list_elem_of_filter in Hi as [_ Hi].
        apply (inv_deps_valid _ _ _ I1 c i); [by apply HWres|done].
    - intros c Hc. apply get_direct_dependencies_ext_on; [by apply Hd', HWres|].
      intros d Hdin. apply Hp'.
      apply (inv_deps_valid _ _ _ I1 c d); [by apply HWres|done]. }
  cbn [closure]. rewrite Hseen, drop_app_length.
  destruct T as [|t T].
  - simpl in HT. destruct fuel; simpl in Hloop; rewrite HT in Hloop;
      by injection Hloop as <-.
  - rewrite <- Hknown1. apply (IH st1 st' (t :: T) n I1 HT Hloop).
    rewrite Hknown1, length_app. simpl in *. lia.
Qed.

Lemma NoDup_bounded_length (l : list nat) n :
  NoDup l → (∀ i, i ∈ l → i < n) → length l ≤ n.
Proof.
  intros Hnd Hb. trans (length (seq 0 n)); [|by rewrite length_seq].
  apply submseteq_length, NoDup_submseteq; [done|].
  intros i Hi. apply elem_of_seq. specialize (Hb i Hi). lia.
Qed.

(** After [collect], the traversal of [get_dependencies] from the root
    lists the resolved nodes after the root, in the order [collect]
    resolved them: [patch] works on [all_resolved]. *)
Lemma get_dependencies_collect fuel v h root st w :
  root < length h →
  collect fuel v h root = Ok (st, w) →
  root :: get_dependencies (heap st) root = all_resolved st.
Proof.
  clear resolve path_exists install_name_tool cwd.
  intros Hroot. unfold collect.
  destruct (collect_loop fuel _) as [st1| |] eqn:Hloop; [|done..].
  cbn [bind]. intros [= <- <-].
  pose proof (collect_inv_init h root Hroot) as I0.
  destruct (collect_loop_frame _ _ fuel _ st1 I0 Hloop) as (I & Hs & _).
  assert (Hk : known st1 = all_resolved st1).
  { unfold known. rewrite Hs. simpl. apply app_nil_r. }
  pose proof (closure_replays_collect _ _ fuel _ st1 [root] (length (heap st1)) I0
                eq_refl Hloop) as Hcl.
  unfold get_dependencies. change (known _) with [root] in Hcl at 2.
  rewrite Hcl.
  - destruct (inv_root _ _ _ I) as (tl & Htl & _). rewrite Hk in Htl. by rewrite Htl.
  - change (known _) with [root]. simpl.
    assert (length (all_resolved st1) ≤ length (heap st1)); [|lia].
    apply NoDup_bounded_length.
    + pose proof (inv_nodup _ _ _ I) as Hnd. rewrite Hk in Hnd.
      by eapply NoDup_fmap_1.
    + intros i Hi. apply (inv_valid _ _ _ I). by rewrite Hk.
Qed.

(** X4. A run of [main] that patches starts exactly one process for each
    node [collect] resolved, the root first and the others in the order
    they were resolved: the items of line 75 are the resolved nodes. *)
Theorem main_patches_resolved fuel args p st w :
  dry_run args = false →
  resolve (file args) = Some p →
  collect fuel (verbose args) [new_Dependency (str (file args)) p] 0 = Ok (st, w) →
  (prepatch_output args (heap st) 0).2 = true →
  let h := heap st in
  let dl := get_dest_and_loader_path (path (h !!! 0)) (destination args) in
  execs (m_events (main fuel args)) = map (patch_args h 0 dl.1 dl.2) (all_resolved st).
Proof.
  intros Hdry Hres Hcol Hok h dl.
  destruct (main_patches fuel args p st w Hdry Hres Hcol Hok) as [He _].
  rewrite He. f_equal.
  apply (get_dependencies_collect fuel (verbose args)
           [new_Dependency (str (file args)) p] 0 st w); [simpl; lia|done].
Qed.

(** ** Further properties of [patch] *)

Lemma patch_args_file h root dest rlp item :
  patch_args h root dest rlp item !! 1
  = Some (if decide (dep_eq h item root) then str (path (h !!! root))
          else str (joinname dest (name (path (h !!! item))))).
Proof.
  rewrite patch_args_plan. unfold plan_args, primitive_args, patched_file. done.
Qed.

Lemma Makedirs_not_in_items h root dest rlp items d :
  Makedirs d ∉ flat_map (fun item =>
      (if decide (dep_eq h item root) then []
       else [Copyfile (str (path (h !!! item)))
                      (str (joinname dest (name (path (h !!! item)))))])
      ++ [Exec (patch_args h root dest rlp item)]) items.
Proof.
  intros Hin. apply list_elem_of_In, in_flat_map in Hin as (item & _ & Hin).
  apply list_elem_of_In in Hin.
  destruct (decide (dep_eq h item root)); simpl in Hin.
  - by apply list_elem_of_singleton in Hin.
  - apply elem_of_cons in Hin as [Hin|Hin]; [done|].
    by apply list_elem_of_singleton in Hin.
Qed.

(** X5. [patch] calls [os.makedirs] at most once, with the destination as
    its argument, before any copy and any process, and only when
    [os.path.exists] says the destination is not there; the call is made
    even when the root has no dependency to copy, and the process for the
    root always follows. (Which directories that one call creates, the
    destination and its missing parents, is the business of
    [os.makedirs].) *)
Theorem patch_calls_makedirs_once v h root dest rlp :
  ∃ rest,
    p_events (patch v h root dest rlp)
    = (if path_exists (str dest) then [] else [Makedirs (str dest)]) ++ rest
    ∧ (∀ d, Makedirs d ∉ rest)
    ∧ Exec (patch_args h root dest rlp root) ∈ rest.
Proof.
  rewrite patch_unfold. cbn [p_events]. eexists. split; [|split].
  - unfold ensure_dir. by destruct (path_exists (str dest)).
  - intros d. apply Makedirs_not_in_items.
  - cbn [flat_map]. rewrite decide_True by done. simpl. left.
Qed.

(** X6. Each item other than the root is copied into the destination
    directly before its process is started, and the process is run on the
    copy; the item that is the root is not copied and its process is run
    on the root's own file. *)
Theorem copy_precedes_its_process v h root dest rlp :
  let target := fun item => str (joinname dest (name (path (h !!! item)))) in
  p_events (patch v h root dest rlp)
  = ensure_dir dest
    ++ flat_map (fun item =>
         if decide (dep_eq h item root)
         then [Exec (patch_args h root dest rlp item)]
         else [Copyfile (str (path (h !!! item))) (target item);
               Exec (patch_args h root dest rlp item)])
       (root :: get_dependencies h root)
  ∧ ∀ item,
      patch_args h root dest rlp item !! 1
      = Some (if decide (dep_eq h item root) then str (path (h !!! root))
              else target item).
Proof.
  intros target. split; [|intros item; apply patch_args_file].
  rewrite patch_unfold. cbn [p_events]. f_equal.
  induction (root :: get_dependencies h root) as [|item items IH]; [done|].
  cbn [flat_map]. rewrite IH. by destruct (decide (dep_eq h item root)).
Qed.

Lemma string_app_assoc (s1 s2 s3 : string) : (s1 +:+ s2) +:+ s3 = s1 +:+ (s2 +:+ s3).
Proof.
  induction s1 as [|c s1 IH]; [done|].
  change (String c ((s1 +:+ s2) +:+ s3) = String c (s1 +:+ (s2 +:+ s3))).
  by rewrite IH.
Qed.

Lemma concat_snoc sep (l : list string) :
  ∃ pre, ∀ n, String.concat sep (l ++ [n]) = pre +:+ n.
Proof.
  induction l as [|x l [pre IH]].
  - by exists "".
  - exists (x +:+ sep +:+ pre). intros n. specialize (IH n).
    rewrite !string_app_assoc, <- IH.
    destruct l; reflexivity.
Qed.

Lemma str_joinname_prefix dest :
  ∃ pre, ∀ n, n ≠ "" → str (joinname dest n) = pre +:+ n.
Proof.
  destruct (concat_snoc "/" (parts dest)) as [pre Hpre].
  destruct (anchored dest) eqn:Ha.
  - exists ("/" +:+ pre). intros n Hn. unfold joinname, str.
    rewrite decide_False by done. cbn [anchored parts]. by rewrite Ha, Hpre.
  - exists pre. intros n Hn. unfold joinname, str.
    rewrite decide_False by done. cbn [anchored parts]. rewrite Ha, <- Hpre.
    by destruct (parts dest).
Qed.

(** X7. All copies are placed flat in the destination: two items other
    than the root are copied to, and patched in, the same destination file
    exactly when their file names are equal, whatever their directories,
    so that of two libraries with one name the later copy replaces the
    earlier one. *)
Theorem copy_targets_collide_iff_names_equal h root dest rlp a b :
  ¬ dep_eq h a root → ¬ dep_eq h b root →
  name (path (h !!! a)) ≠ "" → name (path (h !!! b)) ≠ "" →
  patch_args h root dest rlp a !! 1 = patch_args h root dest rlp b !! 1
  ↔ name (path (h !!! a)) = name (path (h !!! b)).
Proof.
  intros Ha Hb Hna Hnb. rewrite !patch_args_file, !decide_False by done.
  split; [|by intros ->].
  destruct (str_joinname_prefix dest) as [pre Hpre].
  rewrite !Hpre by done. intros [= Heq]. by apply (String.app_inj pre).
Qed.

(** X8. The verbose flag changes nothing of what [patch] does: the same
    events, the same lines on stderr and the same [PatchError]; it only
    adds, on stdout, the stderr text of each process that returned a
    non-zero code, and without it [patch] prints nothing on stdout. *)
Theorem verbose_only_changes_stdout h root dest rlp :
  let quiet := patch false h root dest rlp in
  let loud := patch true h root dest rlp in
  p_events loud = p_events quiet
  ∧ p_stderr loud = p_stderr quiet
  ∧ PatchError loud = PatchError quiet
  ∧ p_stdout quiet = []
  ∧ p_stdout loud
    = map (fun rd => rd.1.2)
          (failing h root dest rlp (root :: get_dependencies h root)).
Proof. intros quiet loud. subst quiet loud. by rewrite !patch_unfold. Qed.

(** ** Further properties of the output before patching *)

Lemma index_None h d deps :
  index h d deps = None ↔ ∀ e, e ∈ deps → ¬ dep_eq h e d.
Proof. unfold index. by rewrite fmap_None, list_find_None, Forall_forall. Qed.

Lemma dep_slots_None h deps dep :
  dep_slots h deps dep = None
  ↔ ∃ x, x ∈ get_direct_dependencies h dep ∧ ∀ e, e ∈ deps → ¬ dep_eq h e x.
Proof.
  unfold dep_slots. rewrite mapM_None, Exists_exists.
  split; intros (x & Hx & Hn); exists x; (split; [done|]).
  - apply index_None. by apply fmap_None in Hn.
  - apply fmap_None. by apply index_None.
Qed.

Lemma print_slots_raises h deps l : ∀ i,
  (print_slots h deps i l).2 = false ↔ ∃ dep, dep ∈ l ∧ dep_slots h deps dep = None.
Proof.
  induction l as [|dep l IH]; intros i; cbn [print_slots].
  - split; [done|]. by intros (dep & ?%elem_of_nil & _).
  - destruct (dep_slots h deps dep) as [slots|] eqn:Hs.
    + specialize (IH (S i)). destruct (print_slots h deps (S i) l) as [rest ok].
      cbn [snd] in *. rewrite IH. split.
      * intros (d & Hd & Hn). exists d. split; [by right|done].
      * intros (d & [->|Hd]%elem_of_cons & Hn); [by rewrite Hs in Hn|]. by exists d.
    + cbn [snd]. split; [|done]. intros _. exists dep. split; [left|done].
Qed.

Lemma print_slots_length h deps l : ∀ i,
  length (print_slots h deps i l).1 = length l ↔ (print_slots h deps i l).2 = true.
Proof.
  induction l as [|dep l IH]; intros i; cbn [print_slots]; [done|].
  destruct (dep_slots h deps dep) as [slots|]; [|by split].
  specialize (IH (S i)).
  destruct (print_slots h deps (S i) l) as [rest ok].
  cbn [fst snd length] in *. rewrite <- IH. split; lia.
Qed.

Lemma print_deps_minimal_raises h d :
  (print_deps_minimal h d).2 = false
  ↔ ∃ dep x, dep ∈ get_dependencies h d ∧ x ∈ get_direct_dependencies h dep
             ∧ ∀ e, e ∈ get_dependencies h d → ¬ dep_eq h e x.
Proof.
  unfold print_deps_minimal.
  pose proof (print_slots_raises h (get_dependencies h d) (get_dependencies h d) 0) as Hr.
  destruct (print_slots h (get_dependencies h d) 0 (get_dependencies h d)) as [rest ok].
  cbn [snd] in *. rewrite Hr. split.
  - intros (dep & Hdep & (x & Hx & Hn)%dep_slots_None). by exists dep, x.
  - intros (dep & x & Hdep & Hx & Hn). exists dep. split; [done|].
    apply dep_slots_None. by exists x.
Qed.

(** X9. [print_deps_minimal] raises [ValueError], at [deps.index(d)] of
    line 123, exactly when some listed dependency has a direct dependency
    that is equal to none of the listed ones; it returns exactly when it
    has printed the count and one line for each listed dependency. *)
Theorem print_deps_minimal_raises_iff h d :
  ((print_deps_minimal h d).2 = false
   ↔ ∃ dep x, dep ∈ get_dependencies h d ∧ x ∈ get_direct_dependencies h dep
              ∧ ∀ e, e ∈ get_dependencies h d → ¬ dep_eq h e x)
  ∧ ((print_deps_minimal h d).2 = true
     ↔ length (print_deps_minimal h d).1 = S (length (get_dependencies h d))).
Proof.
  split; [apply print_deps_minimal_raises|].
  unfold print_deps_minimal.
  pose proof (print_slots_length h (get_dependencies h d) (get_dependencies h d) 0)
    as Hlen.
  destruct (print_slots h (get_dependencies h d) 0 (get_dependencies h d)) as [rest ok].
  cbn [fst snd length] in *. rewrite <- Hlen. split; lia.
Qed.

Lemma prepatch_output_raises args h d :
  (prepatch_output args h d).2 = false
  ↔ verbose args = false ∧ (print_deps_minimal h d).2 = false.
Proof.
  unfold prepatch_output. destruct (verbose args); cbn [snd].
  - split; [done|by intros [? _]].
  - destruct (print_deps_minimal h d) as [lines ok]. cbn [snd]. split; [done|by intros [_ ?]].
Qed.

Lemma main_status_ValueError fuel args p st w :
  resolve (file args) = Some p →
  collect fuel (verbose args) [new_Dependency (str (file args)) p] 0 = Ok (st, w) →
  m_status (main fuel args) = Uncaught_ValueError
  ↔ (prepatch_output args (heap st) 0).2 = false.
Proof.
  intros Hres Hcol. unfold main. rewrite Hres, Hcol. cbv zeta.
  destruct (get_dest_and_loader_path (path (heap st !!! 0)) (destination args))
    as [dest rlp].
  destruct (prepatch_output args (heap st) 0) as [out [|]]; cbn [negb snd].
  - destruct (negb (dry_run args)); [|done].
    by destruct (PatchError (patch (verbose args) (heap st) 0 dest rlp)).
  - done.
Qed.

Lemma resolved_tail_not_root root root_path st deps :
  collect_inv root root_path st → known st = all_resolved st →
  all_resolved st = root :: deps →
  ∀ e, e ∈ deps → path (heap st !!! e) ≠ root_path.
Proof.
  intros I Hk Hdeps e He Heq.
  pose proof (inv_nodup _ _ _ I) as Hnd. rewrite Hk, Hdeps, fmap_cons in Hnd.
  apply NoDup_cons in Hnd as [Hnin _]. apply Hnin.
  destruct (inv_root _ _ _ I) as (tl & _ & -> & _). rewrite <- Heq.
  apply list_elem_of_fmap. by exists e.
Qed.

Lemma unlisted_edge_iff_back_reference root root_path st deps :
  collect_inv root root_path st → known st = all_resolved st →
  all_resolved st = root :: deps →
  (∃ dep x, dep ∈ deps ∧ x ∈ get_direct_dependencies (heap st) dep
            ∧ ∀ e, e ∈ deps → ¬ dep_eq (heap st) e x)
  ↔ ∃ i r, i ∈ all_resolved st ∧ i ≠ root
           ∧ (r, root_path) ∈ (inspect (path (heap st !!! i))).1
           ∧ is_sys_path root_path = false.
Proof.
  intros I Hk Hdeps.
  pose proof (resolved_tail_not_root _ _ _ _ I Hk Hdeps) as Htail.
  assert (Hroot : path (heap st !!! root) = root_path).
  { by destruct (inv_root _ _ _ I) as (tl & _ & -> & _). }
  split.
  - intros (dep & x & Hdep & [Hsys Hx]%list_elem_of_filter & Hnone).
    assert (Hres : dep ∈ all_resolved st) by (rewrite Hdeps; by right).
    apply list_elem_of_lookup_1 in Hx as [k Hx].
    pose proof (inv_deps_paths _ _ _ I dep Hres) as Hp.
    apply (f_equal (fun l => l !! k)) in Hp.
    rewrite !list_lookup_fmap, Hx in Hp. cbn in Hp. symmetry in Hp.
    apply fmap_Some in Hp as ([r q] & Hrq & Hq). cbn in Hq. subst q.
    apply list_elem_of_lookup_2 in Hrq.
    destruct (inv_refs _ _ _ I dep r _ Hres Hrq Hsys) as (m & Hm & Hpm & _).
    rewrite Hk, Hdeps in Hm. apply elem_of_cons in Hm as [->|Hm].
    + exists dep, r. rewrite <- Hroot, Hpm. split; [done|]. split; [|done].
      intros ->. by apply (Htail root).
    + by destruct (Hnone m Hm).
  - intros (i & r & Hi & Hne & Hr & Hsys).
    assert (Hdep : i ∈ deps).
    { rewrite Hdeps in Hi. by apply elem_of_cons in Hi as [->|Hi]. }
    apply list_elem_of_lookup_1 in Hr as [k Hr].
    pose proof (inv_deps_paths _ _ _ I i Hi) as Hp.
    apply (f_equal (fun l => l !! k)) in Hp.
    rewrite !list_lookup_fmap, Hr in Hp. cbn in Hp.
    apply fmap_Some in Hp as (x & Hx & Hpx).
    exists i, x. split; [done|]. split.
    + apply list_elem_of_filter. split; [|by eapply list_elem_of_lookup_2].
      unfold is_sys. by rewrite <- Hpx.
    + intros e He Heq. apply (Htail e He). unfold dep_eq in Heq. by rewrite Heq, <- Hpx.
Qed.

(** X10. Without [-v], [main] ends with an uncaught [ValueError], raised
    by [print_deps_minimal] before anything is patched, exactly when some
    resolved file other than the root refers to the root's own file: the
    root is not among the listed dependencies that line 123 searches.
    With [-v], [main] never ends that way. *)
Theorem main_raises_iff_back_reference fuel args p st w :
  resolve (file args) = Some p →
  collect fuel (verbose args) [new_Dependency (str (file args)) p] 0 = Ok (st, w) →
  m_status (main fuel args) = Uncaught_ValueError
  ↔ verbose args = false
    ∧ ∃ i r, i ∈ all_resolved st ∧ i ≠ 0
             ∧ (r, p) ∈ (inspect (path (heap st !!! i))).1
             ∧ is_sys_path p = false.
Proof.
  intros Hres Hcol.
  assert (Hroot : 0 < length [new_Dependency (str (file args)) p]) by (simpl; lia).
  destruct (collect_Ok_inv _ _ _ _ _ _ Hroot Hcol) as (I & _ & Hk & _).
  pose proof (get_dependencies_collect _ _ _ _ _ _ Hroot Hcol) as Hdeps.
  rewrite (main_status_ValueError fuel args p st w Hres Hcol).
  rewrite prepatch_output_raises, print_deps_minimal_raises.
  rewrite (unlisted_edge_iff_back_reference 0 p st _ I Hk (eq_sym Hdeps)). done.
Qed.

Lemma filter_all {A} (Q : A → Prop) `{!∀ x, Decision (Q x)} (l : list A) :
  (∀ x, x ∈ l → Q x) → filter Q l = l.
Proof.
  induction l as [|a l IH]; intros Hall; [done|].
  rewrite filter_cons_True by (apply Hall; left).
  f_equal. apply IH. intros x Hx. apply Hall. by right.
Qed.

(** X11. In a run of [main] that patches, every dependency is copied
    exactly once into the destination and the root is not copied; one
    process more than copies is started; and when the run ends with
    status 0 the number in the last line printed is the number of files
    copied. *)
Theorem success_count_is_number_of_copies fuel args p st w :
  dry_run args = false →
  resolve (file args) = Some p →
  collect fuel (verbose args) [new_Dependency (str (file args)) p] 0 = Ok (st, w) →
  (prepatch_output args (heap st) 0).2 = true →
  let h := heap st in
  let dl := get_dest_and_loader_path (path (h !!! 0)) (destination args) in
  let r := main fuel args in
  copies (m_events r)
  = map (fun item => (str (path (h !!! item)), str (joinname dl.1 (name (path (h !!! item))))))
        (get_dependencies h 0)
  ∧ length (execs (m_events r)) = S (length (copies (m_events r)))
  ∧ (m_status r = Exit 0 →
     ∃ out, m_stdout r = out ++ [""; success_line args (length (copies (m_events r)))]).
Proof.
  intros Hdry Hres Hcol Hok h dl r.
  assert (Hroot : 0 < length [new_Dependency (str (file args)) p]) by (simpl; lia).
  destruct (collect_Ok_inv _ _ _ _ _ _ Hroot Hcol) as (I & _ & Hk & _).
  pose proof (get_dependencies_collect _ _ _ _ _ _ Hroot Hcol) as Hdeps. fold h in Hdeps.
  destruct (main_patches fuel args p st w Hdry Hres Hcol Hok) as [Hex Hcp].
  fold h dl r in Hex, Hcp.
  assert (Hfilter : filter (fun item => ¬ dep_eq h item 0) (0 :: get_dependencies h 0)
                    = get_dependencies h 0).
  { rewrite filter_cons_False by (intros Hn; by apply Hn).
    apply filter_all. intros e He.
    unfold dep_eq. destruct (inv_root _ _ _ I) as (tl & _ & Hrp & _).
    unfold h. rewrite Hrp.
    by apply (resolved_tail_not_root 0 _ st (get_dependencies h 0) I Hk (eq_sym Hdeps)). }
  assert (Hc : copies (m_events r)
      = map (fun item => (str (path (h !!! item)),
                          str (joinname dl.1 (name (path (h !!! item))))))
            (get_dependencies h 0)).
  { by rewrite Hcp, Hfilter. }
  split; [exact Hc|]. split.
  - rewrite Hex, Hc, !length_map. done.
  - intros Hst. subst r.
    rewrite (main_patch_unfold fuel args p st w Hres Hcol Hok Hdry) in Hst |- *.
    fold h dl in Hst |- *.
    destruct (PatchError (patch (verbose args) h 0 dl.1 dl.2)); [done|].
    cbn [m_stdout m_events]. eexists. rewrite app_assoc. f_equal. do 2 f_equal.
    f_equal.
    rewrite patch_unfold. cbn [p_events].
    rewrite copies_app, copies_ensure_dir, copies_items, Hfilter.
    by rewrite app_nil_l, length_fmap.

Qed.

(** ** Further properties of the destination and the loader path *)

Lemma normalised_last acc : normalised acc → acc ≠ [] → List.last acc "" ≠ "..".
Proof.
  intros Hn Hne. unfold normalised in Hn. rewrite Forall_forall in Hn.
  destruct (Hn (List.last acc "")) as (_ & _ & H3); [|done].
  rewrite (app_removelast_last "" Hne) at 2. apply elem_of_app. right. left.
Qed.

Lemma normalised_removelast acc : normalised acc → normalised (removelast acc).
Proof.
  intros Hn. rewrite removelast_firstn_len. by apply Forall_take.
Qed.

Lemma norm_step_dotdot acc : normalised acc → norm_step true acc ".." = removelast acc.
Proof.
  intros Hn. unfold norm_step.
  rewrite bool_decide_eq_false_2 by (by intros [|]).
  rewrite (bool_decide_eq_false_2 (".." ≠ "..")) by (by intros H; apply H).
  rewrite (bool_decide_eq_false_2 (_ ∧ _)); [done|].
  intros [Hl Hne]. by apply (normalised_last acc).
Qed.

Lemma norm_step_plain b acc c :
  c ≠ "" ∧ c ≠ "." ∧ c ≠ ".." → norm_step b acc c = acc ++ [c].
Proof.
  intros (H1 & H2 & H3). unfold norm_step.
  rewrite bool_decide_eq_false_2 by (by intros [|]).
  by rewrite (bool_decide_eq_true_2 (c ≠ "..")).
Qed.

Lemma norm_step_normalised acc c : normalised acc → normalised (norm_step true acc c).
Proof.
  intros Hn.
  destruct (decide (c = "..")) as [->|H3];
    [rewrite norm_step_dotdot by done; by apply normalised_removelast|].
  unfold norm_step. destruct (bool_decide (c = "" ∨ c = ".")) eqn:Hb; [done|].
  apply bool_decide_eq_false in Hb.
  rewrite (bool_decide_eq_true_2 (c ≠ "..")) by done. cbn [orb].
  apply Forall_app. split; [done|]. apply Forall_singleton.
  split; [|split]; [|  |done]; intros ->; apply Hb; [by left|by right].
Qed.

Lemma foldl_norm_normalised l : ∀ acc,
  normalised acc → normalised (foldl (norm_step true) acc l).
Proof.
  induction l as [|c l IH]; intros acc Hn; [done|].
  cbn [foldl]. by apply IH, norm_step_normalised.
Qed.

Lemma foldl_norm_plain b l : ∀ acc,
  normalised l → foldl (norm_step b) acc l = acc ++ l.
Proof.
  induction l as [|c l IH]; intros acc Hn; [by rewrite app_nil_r|].
  apply Forall_cons in Hn as [Hc Hn]. cbn [foldl].
  by rewrite norm_step_plain, IH, <- app_assoc.
Qed.

Lemma foldl_norm_dotdot k : ∀ acc,
  normalised acc →
  foldl (norm_step true) acc (replicate k "..") = take (length acc - k) acc.
Proof.
  induction k as [|k IH]; intros acc Hn.
  - by rewrite Nat.sub_0_r, firstn_all.
  - cbn [replicate foldl]. rewrite norm_step_dotdot by done.
    rewrite IH by (by apply normalised_removelast).
    rewrite removelast_firstn_len, take_take, length_take. f_equal. lia.
Qed.

Lemma commonprefix_take a : ∀ b,
  take (commonprefix a b) a = take (commonprefix a b) b
  ∧ commonprefix a b ≤ length a.
Proof.
  induction a as [|x a IH]; intros b.
  - split; [by destruct b|done].
  - destruct b as [|y b]; cbn [commonprefix]; [split; [done|simpl; lia]|].
    destruct (decide (x = y)) as [->|]; [|split; [done|simpl; lia]].
    destruct (IH b) as [Ht Hl]. split; [simpl; by rewrite Ht|simpl; lia].
Qed.

Lemma abspath_normalised c p : normalised (abspath c p).
Proof. unfold abspath, normpath. apply foldl_norm_normalised. constructor. Qed.

Lemma relpath_leads_back c p start :
  normpath true (abspath c start ++ relpath c p start) = abspath c p.
Proof.
  unfold relpath. cbv zeta.
  pose proof (abspath_normalised c start) as HS.
  pose proof (abspath_normalised c p) as HP.
  destruct (commonprefix_take (abspath c start) (abspath c p)) as [Ht Hl].
  set (S := abspath c start) in *. set (P := abspath c p) in *.
  set (i := commonprefix S P) in *.
  unfold normpath. rewrite !foldl_app, (foldl_norm_plain true S []) by done.
  rewrite app_nil_l, foldl_norm_dotdot by done.
  replace (length S - (length S - i)) with i by lia.
  rewrite foldl_norm_plain by (by apply Forall_drop).
  by rewrite Ht, take_drop.
Qed.

(** X12. For a relative destination the loader path that
    [get_dest_and_loader_path] returns leads from the root binary to the
    destination it returns: it is relative, starts with [@loader_path],
    and putting the directory of the root binary in the place of
    [@loader_path] and normalising gives the destination directory. *)
Theorem loader_path_leads_to_destination root_dep_path dest_path :
  is_absolute dest_path = false →
  let dl := get_dest_and_loader_path root_dep_path dest_path in
  ∃ rel, dl.2 = {| anchored := false; parts := "@loader_path" :: rel |}
         ∧ normpath true (abspath cwd (parent root_dep_path) ++ rel) = abspath cwd dl.1.
Proof.
  intros Hrel dl. subst dl. unfold get_dest_and_loader_path. rewrite Hrel.
  cbn [fst snd]. eexists. split; [reflexivity|]. apply relpath_leads_back.
Qed.

(** ** The reference strings [collect] records *)

Lemma merge_item_ind h0 W h1 R (Φ : list Dependency → list obj → Prop) c s :
  gathered h0 W h1 →
  NoDup W →
  (∀ i, i ∈ R → i < length h0) →
  (∀ i, i ∈ W → i < length h0) →
  (c, s) ∈ layout h0 (length h0) W →
  (∀ j h T h' T',
     j < length (inspect (path (h0 !!! c))).1 →
     merge_inv h1 R W (layout h0 (length h0) W) (length h0) h T (s + j) →
     process_dep R c (h, T) (s + j) = Ok (h', T') →
     Φ h T → Φ h' T') →
  ∀ n j h T,
    j + n = length (inspect (path (h0 !!! c))).1 →
    merge_inv h1 R W (layout h0 (length h0) W) (length h0) h T (s + j) →
    Φ h T →
    ∃ h' T', foldM (process_dep R c) (h, T) (seq (s + j) n) = Ok (h', T')
             ∧ merge_inv h1 R W (layout h0 (length h0) W) (length h0) h' T'
                 (s + length (inspect (path (h0 !!! c))).1)
             ∧ Φ h' T'.
Proof.
  intros G HndW HR HW Hcs Hstep. induction n as [|n IH]; intros j h T Hjn M HΦ.
  - exists h, T. rewrite <- Hjn, Nat.add_0_r. split; [done|]. by split.
  - destruct (process_dep_step h0 W h1 R c s j h T) as (h' & T' & Hrun & M');
      [done..|lia|done|].
    destruct (IH (S j) h' T') as (h'' & T'' & Hrest & M'' & HΦ'');
      [lia|by replace (s + S j) with (S (s + j)) by lia| |].
    { apply (Hstep j h T h' T'); [lia|done..]. }
    exists h'', T''. split; [|by split].
    cbn [seq foldM]. rewrite Hrun. cbn [bind].
    by replace (S (s + j)) with (s + S j) by lia.
Qed.

Lemma merge_phase_ind h0 W h1 R (Φ : list Dependency → list obj → Prop) :
  gathered h0 W h1 →
  NoDup W →
  (∀ i, i ∈ R → i < length h0) →
  (∀ i, i ∈ W → i < length h0) →
  (∀ c s j h T h' T',
     (c, s) ∈ layout h0 (length h0) W →
     j < length (inspect (path (h0 !!! c))).1 →
     merge_inv h1 R W (layout h0 (length h0) W) (length h0) h T (s + j) →
     process_dep R c (h, T) (s + j) = Ok (h', T') →
     Φ h T → Φ h' T') →
  ∀ W2 n h T,
    (∀ cs, cs ∈ layout h0 n W2 → cs ∈ layout h0 (length h0) W) →
    merge_inv h1 R W (layout h0 (length h0) W) (length h0) h T n →
    Φ h T →
    ∃ h' T',
      process_items R (h, T)
        ((fun cs : obj * nat =>
            (cs.1, seq cs.2 (length (inspect (path (h0 !!! cs.1))).1)))
         <$> layout h0 n W2)
      = Ok (h', T')
      ∧ merge_inv h1 R W (layout h0 (length h0) W) (length h0) h' T'
          (layout_end h0 n W2)
      ∧ Φ h' T'.
Proof.
  intros G HndW HR HW Hstep. induction W2 as [|c W2 IH]; intros n h T Hsub M HΦ.
  - exists h, T. split; [done|]. by split.
  - cbn [layout layout_end fmap list_fmap] in *.
    assert (Hcs : (c, n) ∈ layout h0 (length h0) W) by (apply Hsub; left).
    destruct (merge_item_ind h0 W h1 R Φ c n G HndW HR HW Hcs
                (fun j h T h' T' => Hstep c n j h T h' T' Hcs)
                (length (inspect (path (h0 !!! c))).1) 0 h T)
      as (h' & T' & Hitem & M' & HΦ'); [done|by rewrite Nat.add_0_r|done|].
    rewrite Nat.add_0_r in Hitem.
    destruct (IH (n + length (inspect (path (h0 !!! c))).1) h' T')
      as (h'' & T'' & Hrest & M'' & HΦ''); [|done|done|].
    { intros cs Hin. apply Hsub. by right. }
    exists h'', T''. split; [|by split].
    unfold process_items in *. cbn [foldM fst snd]. rewrite Hitem. cbn [bind].
    exact Hrest.
Qed.

Lemma process_dep_refs hi root h0 W h1 R c s j h T h' T' :
  gathered h0 W h1 →
  (∀ i, i ∈ W → i < length h0) →
  (∀ i, i ∈ W → i ∈ R) →
  (c, s) ∈ layout h0 (length h0) W →
  j < length (inspect (path (h0 !!! c))).1 →
  merge_inv h1 R W (layout h0 (length h0) W) (length h0) h T (s + j) →
  process_dep R c (h, T) (s + j) = Ok (h', T') →
  (referred_as (hi !!! root) ⊆ referred_as (h !!! root)
   ∧ ∀ m r, m ∈ R ++ T → r ∈ referred_as (h !!! m) → reference_origin hi root h1 R m r) →
  referred_as (hi !!! root) ⊆ referred_as (h' !!! root)
  ∧ ∀ m r, m ∈ R ++ T' → r ∈ referred_as (h' !!! m) → reference_origin hi root h1 R m r.
Proof.
  clear resolve path_exists install_name_tool cwd.
  intros G HW HWR Hcs Hj M Hrun [Hkeep HΦ].
  destruct (layout_elem _ _ _ _ _ Hcs) as (HcW & Hs & Hend).
  assert (Hc : c < length h0) by auto.
  destruct (lookup_lt_is_Some_2 _ _ Hj) as [[r0 q0] Hrq].
  pose proof (g_new _ _ _ G c s j (r0, q0) Hcs Hrq) as Hnew. cbn [fst snd] in Hnew.
  pose proof (g_length _ _ _ G) as Hl1.
  pose proof (mi_path _ _ _ _ _ _ _ _ M) as Hp.
  pose proof (mi_length _ _ _ _ _ _ _ _ M) as Hlen.
  assert (Hfresh : referred_as (h !!! (s + j)) = {[r0]}).
  { rewrite (mi_fresh _ _ _ _ _ _ _ _ M) by done. by rewrite Hnew. }
  assert (Hpath : path (h1 !!! (s + j)) = q0) by (by rewrite Hnew).
  assert (Horigin : is_sys h (s + j) = false → ∀ m, path (h !!! m) = path (h !!! (s + j)) →
            reference_origin hi root h1 R m r0).
  { intros Hsys m Hm. right. rewrite !Hp, Hpath in Hm. rewrite Hm. split.
    - unfold is_sys in Hsys. by rewrite Hp, Hpath in Hsys.
    - exists c. split; [by apply HWR|].
      destruct (g_old _ _ _ G c Hc) as (-> & _). by eapply list_elem_of_lookup_2. }
  unfold process_dep in Hrun. destruct (is_sys h (s + j)) eqn:Hsys.
  { by injection Hrun as <- <-. }
  destruct (existing h (s + j) R T) as [e|] eqn:Hex.
  - apply existing_Some in Hex as [He Heq]. unfold dep_eq in Heq.
    rewrite dependencies_merge in Hrun.
    destruct (list_find _ (dependencies (h !!! c))) as [[k x]|]; [|done].
    injection Hrun as <- <-.
    assert (Hc' : c < length (merge h e (s + j))) by (rewrite length_merge; lia).
    assert (Hr : ∀ i, referred_as (<[c:=set_dependencies (merge h e (s + j) !!! c)
                                        (<[k:=e]> (dependencies (h !!! c)))]>
                                     (merge h e (s + j)) !!! i)
                      = if decide (i = e ∧ e < length h)
                        then referred_as (h !!! e) ∪ {[r0]} else referred_as (h !!! i)).
    { intros i.
      destruct (rewire_lookup (merge h e (s + j)) c
                  (<[k:=e]> (dependencies (h !!! c))) i Hc') as (_ & -> & _).
      by rewrite referred_as_merge, Hfresh. }
    split.
    + rewrite Hr. destruct (decide _) as [[-> _]|_]; [|done].
      etrans; [exact Hkeep|]. apply union_subseteq_l.
    + intros m r Hm. rewrite Hr. destruct (decide _) as [[-> _]|_]; [|by apply HΦ].
      intros [Hin|Hin%elem_of_singleton]%elem_of_union; [by apply HΦ|].
      subst r. by apply Horigin.
  - injection Hrun as <- <-. split; [done|].
    intros m r. rewrite app_assoc.
    intros [Hm|Hm%list_elem_of_singleton]%elem_of_app; [by apply HΦ|].
    subst m. rewrite Hfresh. intros ->%elem_of_singleton. by apply Horigin.
Qed.

Lemma wave_refs hi root root_path st W rest st' :
  collect_inv root root_path st → refs_inv hi root st →
  stack st = W :: rest → wave st W rest = Ok st' →
  refs_inv hi root st'.
Proof.
  clear resolve path_exists install_name_tool cwd.
  intros I [Hkeep HΦ] Hst Hwave.
  destruct (inv_stack _ _ _ I) as [E|(W' & E & HW')]; rewrite Hst in E; [done|].
  injection E as <- ->.
  assert (Hknown : known st = all_resolved st ++ W).
  { unfold known. rewrite Hst. simpl. by rewrite app_nil_r. }
  pose proof (inv_valid _ _ _ I) as Hval. pose proof (inv_nodup _ _ _ I) as Hnd.
  rewrite Hknown in Hval, Hnd, HΦ.
  set (h := heap st) in *. set (R := all_resolved st) in *.
  assert (HndRW : NoDup (R ++ W)) by (by eapply NoDup_fmap_1).
  apply NoDup_app in HndRW as (HndR & HRW & HndW).
  assert (HWv : ∀ i, i ∈ W → i < length h) by (intros; apply Hval; set_solver).
  assert (HWR : ∀ i, i ∈ W → i ∈ R ++ W) by (intros; set_solver).
  destruct (gather_spec W h HWv HndW) as (h1 & Hg & G).
  assert (Minit : merge_inv h1 (R ++ W) W (layout h (length h) W) (length h) h1 []
                    (length h)).
  { apply merge_inv_init; [done..|].
    intros i d [Hi|Hi]%elem_of_app HiW Hd; [|done].
    by eapply (inv_deps_valid _ _ _ I). }
  assert (Hroot : root ∈ R ++ W).
  { destruct (inv_root _ _ _ I) as (tl & Htl & _). rewrite Hknown in Htl.
    rewrite Htl. left. }
  destruct (merge_phase_ind h W h1 (R ++ W)
              (fun h' T' =>
                 referred_as (hi !!! root) ⊆ referred_as (h' !!! root)
                 ∧ ∀ m r, m ∈ (R ++ W) ++ T' → r ∈ referred_as (h' !!! m) →
                          reference_origin hi root h1 (R ++ W) m r)
              G HndW Hval HWv) with (W2 := W) (n := length h) (h := h1) (T := @nil nat)
    as (h2 & T & Hproc & M & Hkeep2 & HΦ2); [|done|done| |].
  { intros c s j h' T' h'' T'' Hcs Hj M Hrun.
    by apply (process_dep_refs hi root h W h1 (R ++ W) c s j h' T' h'' T''). }
  { split.
    - destruct (g_old _ _ _ G root (Hval root Hroot)) as (_ & -> & _). exact Hkeep.
    - intros m r Hm Hr. rewrite app_nil_r in Hm.
      destruct (g_old _ _ _ G m (Hval m Hm)) as (Hpm & Hrm & _).
      rewrite Hrm in Hr. destruct (HΦ m r Hm Hr) as [Hini|(Hsys & c & Hc & Hin)].
      + by left.
      + right. rewrite Hpm. split; [done|]. exists c. split; [set_solver|].
        destruct (g_old _ _ _ G c) as (-> & _); [apply Hval; set_solver|done]. }
  unfold wave in Hwave. fold h R in Hwave. rewrite Hg in Hwave.
  cbv beta iota zeta in Hwave. rewrite zip_layout, Hproc in Hwave.
  cbn [bind] in Hwave. injection Hwave as <-.
  pose proof (mi_path _ _ _ _ _ _ _ _ M) as Hp.
  split; cbn [heap all_resolved stack]; [exact Hkeep2|].
  intros m r Hm Hr.
  assert (Hm' : m ∈ (R ++ W) ++ T).
  { unfold known in Hm. cbn [all_resolved stack] in Hm.
    destruct T as [|t T]; simpl in Hm; rewrite ?app_nil_r in Hm; rewrite ?app_nil_r;
      done. }
  destruct (HΦ2 m r Hm' Hr) as [Hini|(Hsys & c & Hc & Hin)]; [by left|].
  right. rewrite !Hp. split; [done|]. exists c. by rewrite Hp.
Qed.

Lemma loop_state_refs h root st :
  root < length h → loop_state h root st → refs_inv h root st.
Proof.
  intros Hroot. induction 1 as [|st W rest st' Hls IH Hst Hw].
  - split; [done|]. intros m r. unfold known. cbn [heap all_resolved stack concat app].
    intros ->%list_elem_of_singleton Hr. by left.
  - eapply wave_refs; [by apply loop_state_inv|done..].
Qed.

(** X14. After [collect] the reference strings of a resolved node are
    exactly the strings by which resolved files name its file, together
    with, for the root, those it was created with: no string is lost in
    the merging of lines 51-52, and none is recorded that no file uses. *)
Theorem reference_strings_are_used h root_dep fuel v st warnings m r :
  root_dep < length h →
  collect fuel v h root_dep = Ok (st, warnings) →
  m ∈ all_resolved st →
  r ∈ referred_as (heap st !!! m)
  ↔ (m = root_dep ∧ r ∈ referred_as (h !!! root_dep))
    ∨ (is_sys_path (path (heap st !!! m)) = false
       ∧ ∃ c, c ∈ all_resolved st
              ∧ (r, path (heap st !!! m)) ∈ (inspect (path (heap st !!! c))).1).
Proof.
  intros Hroot Hcol Hm. unfold collect in Hcol.
  destruct (collect_loop fuel _) as [st1| |] eqn:Hloop; [|done..].
  cbn [bind] in Hcol. injection Hcol as <- <-.
  destruct (collect_loop_states h root_dep fuel _ st1 (loop_init _ _) Hloop) as [Hls Hst].
  pose proof (loop_state_inv _ _ _ Hroot Hls) as I.
  destruct (loop_state_refs _ _ _ Hroot Hls) as [Hkeep HΦ].
  assert (Hk : known st1 = all_resolved st1).
  { unfold known. rewrite Hst. simpl. apply app_nil_r. }
  split.
  - intros Hr. apply HΦ; [by rewrite Hk|done].
  - intros [[-> Hr]|(Hsys & c & Hc & Hin)]; [by apply Hkeep|].
    destruct (inv_refs _ _ _ I c r _ Hc Hin Hsys) as (m' & Hm' & Hpm & Hrm).
    rewrite Hk in Hm'. pose proof (inv_nodup _ _ _ I) as Hnd. rewrite Hk in Hnd.
    by rewrite <- (NoDup_fmap_eq (fun i => path (heap st1 !!! i)) _ m' m Hnd Hm' Hm Hpm).
Qed.

Lemma commonprefix_app (a d : list string) : commonprefix a (a ++ d) = length a.
Proof.
  induction a as [|x a IH]; [by destruct d|].
  simpl. destruct (decide (x = x)); [by rewrite IH|done].
Qed.

(** X15. A relative destination whose components are plain names (none
    empty, ["."] or [".."]) is kept as it is in the loader path:
    [os.path.relpath] of the destination under the directory of the root
    binary, from that directory, gives the destination back. *)
Theorem plain_destination_is_kept root_dep_path dest_path :
  is_absolute dest_path = false →
  normalised (parts dest_path) →
  get_dest_and_loader_path root_dep_path dest_path
  = (joinpath (parent root_dep_path) dest_path,
     {| anchored := false; parts := "@loader_path" :: parts dest_path |}).
Proof.
  intros Hrel Hplain. unfold get_dest_and_loader_path. rewrite Hrel.
  do 3 f_equal. unfold is_absolute in Hrel.
  unfold relpath, abspath, joinpath. rewrite Hrel. cbn [anchored parts].
  set (base := if anchored (parent root_dep_path) then parts (parent root_dep_path)
               else cwd ++ parts (parent root_dep_path)).
  assert (Hbase : (if anchored (parent root_dep_path)
                   then parts (parent root_dep_path) ++ parts dest_path
                   else cwd ++ parts (parent root_dep_path) ++ parts dest_path)
                  = base ++ parts dest_path).
  { unfold base. destruct (anchored (parent root_dep_path)); [done|]. by rewrite app_assoc. }
  assert (HP : normpath true (base ++ parts dest_path)
               = normpath true base ++ parts dest_path).
  { unfold normpath. by rewrite foldl_app, foldl_norm_plain. }
  by rewrite Hbase, HP, commonprefix_app, Nat.sub_diag, drop_app_length.
Qed.

(** ** Dry runs *)


(** ** The edges of the root and the destination *)

Lemma new_path_root_edge h root rlp dep :
  ¬ dep_eq h dep root → new_path h root rlp root dep = rlp.
Proof.
  intros Hne. unfold new_path.
  rewrite (decide_False (P := ¬ dep_eq h root root)) by (intros Hn; by apply Hn).
  by rewrite decide_True.
Qed.

Lemma new_path_to_root h root rlp item dep :
  dep_eq h dep root → new_path h root rlp item dep = loader_path.
Proof.
  intros He. unfold new_path. by rewrite (decide_False (P := ¬ dep_eq h dep root))
    by (intros Hn; by apply Hn).
Qed.

Lemma patch_args_new_path h root dest rlp consumer m r :
  m ∈ get_direct_dependencies h consumer → r ∈ referred_as (h !!! m) →
  ∃ pre post,
    patch_args h root dest rlp consumer
    = pre ++ ["-change"; r;
              str (joinname (new_path h root rlp consumer m) (name (path (h !!! m))))]
          ++ post.
Proof.
  intros Hm Hr. rewrite new_path_reference. by apply patch_args_change.
Qed.

Lemma root_process_in_patch v h root dest rlp :
  Exec (patch_args h root dest rlp root) ∈ p_events (patch v h root dest rlp).
Proof.
  rewrite patch_unfold. cbn [p_events flat_map]. rewrite decide_True by done.
  apply elem_of_app. right. simpl. left.
Qed.

(** C10 (amended). An absolute destination is returned unchanged as both
    destination and root loader path; lines 94-95 then take the
    destination itself as the new directory of every edge of the root to
    a dependency other than the root, and the process [patch] starts for
    the root carries, for each reference string of such an edge, a
    [-change] to the absolute path of the dependency under the
    destination. A relative destination is resolved against the parent
    directory of the root binary, the root loader path is
    ["@loader_path"] joined with the relative path from that directory to
    the destination (following it from that directory leads to the
    destination), and the same edges are rewritten to references that
    start with [@loader_path]. An edge to the root itself gets
    [@loader_path] whatever the destination. *)
Theorem dest_and_loader_path_cases root_dep_path dest_path :
  let dl := get_dest_and_loader_path root_dep_path dest_path in
  (is_absolute dest_path = true →
     dl = (dest_path, dest_path)
     ∧ ∀ v h root dep r,
         dep ∈ get_direct_dependencies h root → ¬ dep_eq h dep root →
         r ∈ referred_as (h !!! dep) →
         new_path h root dl.2 root dep = dest_path
         ∧ Exec (patch_args h root dl.1 dl.2 root) ∈ p_events (patch v h root dl.1 dl.2)
         ∧ ∃ pre post s,
             patch_args h root dl.1 dl.2 root
             = pre ++ ["-change"; r; str (joinname dest_path (name (path (h !!! dep))))]
                   ++ post
             ∧ str (joinname dest_path (name (path (h !!! dep)))) = "/" +:+ s)
  ∧ (is_absolute dest_path = false →
     dl = (joinpath (parent root_dep_path) dest_path,
           {| anchored := false;
              parts := "@loader_path"
                       :: relpath cwd (joinpath (parent root_dep_path) dest_path)
                                  (parent root_dep_path) |})
     ∧ normpath true (abspath cwd (parent root_dep_path) ++ drop 1 (parts dl.2))
       = abspath cwd dl.1
     ∧ ∀ v h root dep r,
         dep ∈ get_direct_dependencies h root → ¬ dep_eq h dep root →
         r ∈ referred_as (h !!! dep) →
         new_path h root dl.2 root dep = dl.2
         ∧ Exec (patch_args h root dl.1 dl.2 root) ∈ p_events (patch v h root dl.1 dl.2)
         ∧ ∃ pre post s,
             patch_args h root dl.1 dl.2 root
             = pre ++ ["-change"; r; str (joinname dl.2 (name (path (h !!! dep))))]
                   ++ post
             ∧ str (joinname dl.2 (name (path (h !!! dep)))) = "@loader_path" +:+ s)
  ∧ (∀ h root item dep,
       dep_eq h dep root → new_path h root dl.2 item dep = loader_path).
Proof.
  intros dl. subst dl. unfold get_dest_and_loader_path.
  split; [|split]; [intros Habs; rewrite Habs..|].
  - split; [done|]. intros v h root dep r Hdep Hne Hr. cbn [fst snd].
    split; [by apply new_path_root_edge|]. split; [apply root_process_in_patch|].
    destruct (patch_args_new_path h root dest_path dest_path root dep r Hdep Hr)
      as (pre & post & Hargs).
    rewrite new_path_root_edge in Hargs by done.
    destruct (str_anchored (joinname dest_path (name (path (h !!! dep))))) as [s Hs];
      [by rewrite joinname_anchored|].
    by exists pre, post, s.
  - split; [done|]. cbn [fst snd parts drop]. split; [apply relpath_leads_back|].
    intros v h root dep r Hdep Hne Hr.
    split; [by apply new_path_root_edge|]. split; [apply root_process_in_patch|].
    destruct (patch_args_new_path h root (joinpath (parent root_dep_path) dest_path)
                {| anchored := false;
                   parts := "@loader_path"
                            :: relpath cwd (joinpath (parent root_dep_path) dest_path)
                                       (parent root_dep_path) |} root dep r Hdep Hr)
      as (pre & post & Hargs).
    rewrite new_path_root_edge in Hargs by done.
    destruct (str_loader_relative
                (relpath cwd (joinpath (parent root_dep_path) dest_path)
                         (parent root_dep_path)) (name (path (h !!! dep)))) as [s Hs].
    by exists pre, post, s.
  - intros h root item dep He. by apply new_path_to_root.
Qed.

End Patcher.

(** * Discovery does not depend on the unresolved references *)

Lemma find_dependencies_without_failures inspect h item :
  find_dependencies (without_failures inspect) h item
  = ((find_dependencies inspect h item).1, ((find_dependencies inspect h item).2.1, [])).
Proof.
  unfold find_dependencies, without_failures. cbn [fst snd].
  by destruct (inspect (path (h !!! item))).
Qed.

Lemma gather_without_failures inspect items : ∀ h,
  gather (without_failures inspect) h items
  = ((gather inspect h items).1,
     (fun r : list nat * list string => (r.1, [])) <$> (gather inspect h items).2).
Proof.
  induction items as [|d ds IH]; intros h; [done|].
  cbn [gather]. rewrite find_dependencies_without_failures.
  destruct (find_dependencies inspect h d) as [h1 [deps fails]]. cbn [fst snd].
  rewrite IH. by destruct (gather inspect h1 ds).
Qed.

Lemma wave_without_failures is_sys_path inspect st current_items rest :
  wave is_sys_path (without_failures inspect) (forget_failures st) current_items rest
  = bind (wave is_sys_path inspect st current_items rest)
         (fun st' => Ok (forget_failures st')).
Proof.
  unfold wave. rewrite gather_without_failures. cbn [forget_failures heap all_resolved
    failed_paths].
  destruct (gather inspect (heap st) current_items) as [h1 results]. cbn [fst snd].
  rewrite <- list_fmap_compose.
  replace (fst ∘ (fun r : list nat * list string => (r.1, ([] : list string))))
    with (fst : list nat * list string → list nat) by done.
  destruct (process_items _ _ _ _) as [[h2 to_resolve]| |]; [|done..].
  cbn [bind]. unfold forget_failures. cbn [heap all_resolved stack failed_paths].
  do 2 f_equal. clear. induction results as [|r results IH]; [done|]. exact IH.
Qed.

Lemma collect_loop_without_failures is_sys_path inspect fuel : ∀ st,
  collect_loop is_sys_path (without_failures inspect) fuel (forget_failures st)
  = bind (collect_loop is_sys_path inspect fuel st) (fun st' => Ok (forget_failures st')).
Proof.
  induction fuel as [|fuel IH]; intros st; cbn [collect_loop forget_failures stack].
  - by destruct (stack st).
  - destruct (stack st) as [|W rest] eqn:Hst; [done|].
    rewrite (wave_without_failures is_sys_path inspect st W rest).
    destruct (wave is_sys_path inspect st W rest) as [st1| |]; [|done..].
    cbn [bind]. apply IH.
Qed.

Lemma collect_without_failures is_sys_path inspect fuel v h root :
  collect is_sys_path (without_failures inspect) fuel v h root
  = bind (collect is_sys_path inspect fuel v h root)
         (fun sw => Ok (forget_failures sw.1, [])).
Proof.
  unfold collect.
  pose proof (collect_loop_without_failures is_sys_path inspect fuel
                {| heap := h; failed_paths := []; all_resolved := [];
                   stack := [[root]] |}) as Hl.
  unfold forget_failures at 1 in Hl. cbn [heap all_resolved stack] in Hl. rewrite Hl.
  by destruct (collect_loop is_sys_path inspect fuel _).
Qed.

(** C7 (amended). The unresolved references that the inspection reports are
    accumulated for every resolved node in discovery order and change
    nothing else: the store and the resolved nodes are those of the same
    run without any failure, and so are the output, the processes and the
    exit status of [main]. After discovery stderr gets two lines of
    warning, followed by one line for each accumulated path when the
    verbose flag is set, and by a pointer to [-v] otherwise. *)
Theorem unresolved_references_are_reported_not_fatal
    is_sys_path inspect path_exists install_name_tool cwd resolve fuel args :
  let run := main is_sys_path inspect path_exists install_name_tool cwd resolve fuel args in
  let quiet := main is_sys_path (without_failures inspect) path_exists install_name_tool
                    cwd resolve fuel args in
  m_events run = m_events quiet
  ∧ m_stdout run = m_stdout quiet
  ∧ m_status run = m_status quiet
  ∧ ∀ h root_dep st warnings,
      root_dep < length h →
      collect is_sys_path inspect fuel (verbose args) h root_dep = Ok (st, warnings) →
      collect is_sys_path (without_failures inspect) fuel (verbose args) h root_dep
      = Ok (forget_failures st, [])
      ∧ failed_paths st
        = concat ((fun i => (inspect (path (heap st !!! i))).2) <$> all_resolved st)
      ∧ warnings
        = if decide (failed_paths st = []) then []
          else ["Some of the paths in the dependency tree could not be resolved";
                "Maybe you already bundled " +:+ name (path (heap st !!! root_dep)) +:+ "?"]
               ++ (if verbose args
                   then (fun p => "Could not resolve " +:+ p) <$> failed_paths st
                   else ["Run with -v to see failed paths"]).
Proof.
  intros run quiet.
  assert (Hmain : m_events run = m_events quiet ∧ m_stdout run = m_stdout quiet
                  ∧ m_status run = m_status quiet).
  { subst run quiet. unfold main. destruct (resolve (file args)) as [p|]; [|done].
    rewrite collect_without_failures.
    destruct (collect is_sys_path inspect fuel _ _ _) as [[st w]| |]; [|done..].
    cbn [bind fst forget_failures heap]. cbv zeta.
    destruct (get_dest_and_loader_path _ _ _) as [dest rlp].
    destruct (prepatch_output _ _ _ _) as [out ok].
    destruct (negb ok); [done|]. destruct (negb (dry_run args)); [|done].
    by destruct (PatchError _). }
  destruct Hmain as (? & ? & ?). do 3 (split; [done|]).
  intros h root_dep st warnings Hroot Hcol. split; [|].
  - by rewrite collect_without_failures, Hcol.
  - destruct (collect_failed_paths is_sys_path inspect fuel (verbose args) h root_dep st
                warnings Hroot Hcol) as [Hf ->].
    split; [done|]. unfold collect_warnings.
    destruct (failed_paths st); [done|]. by rewrite decide_True by (simpl; lia).
Qed.

(** * The scenarios

    A run is evaluated through what it shows: whether it returned, and a
    projection of the state it returned. *)

Lemma Ok_exists {A} (r : result A) :
  (match r with Ok _ => true | _ => false end) = true → ∃ a, r = Ok a.
Proof. destruct r; [by eexists|done..]. Qed.

Lemma Ok_inv {A B} (f : A → B) (r : result A) a b :
  r = Ok a → (match r with Ok x => Some (f x) | _ => None end) = Some b → f a = b.
Proof. intros ->. by intros [= <-]. Qed.

Lemma Ok_holds {A} (P : A → Prop) `{!∀ a, Decision (P a)} (r : result A) a :
  r = Ok a → (match r with Ok x => bool_decide (P x) | _ => false end) = true → P a.
Proof. intros ->. apply bool_decide_eq_true_1. Qed.

(** C1: when [app] names [libfoo.dylib] twice, the second node made for it
    stays among the outgoing edges of [app] next to the resolved one: two
    objects with one canonical path, one of them not a resolved node. *)
Lemma duplicate_reference_keeps_alias :
  ∃ st warnings,
    collect under_usr_lib_or_System twice 10 false [new_Dependency "bin/app" app] 0
    = Ok (st, warnings)
    ∧ all_resolved st = [0; 1]
    ∧ get_direct_dependencies under_usr_lib_or_System (heap st) 0 = [1; 2]
    ∧ path (heap st !!! 1) = path (heap st !!! 2)
    ∧ 2 ∉ all_resolved st.
Proof.
  destruct (Ok_exists (collect under_usr_lib_or_System twice 10 false
                         [new_Dependency "bin/app" app] 0)) as [[st w] Hcol];
    [vm_compute; reflexivity|].
  exists st, w. split; [exact Hcol|].
  assert (HR : all_resolved st = [0; 1]).
  { apply (Ok_inv (fun sw => all_resolved sw.1) _ _ _ Hcol). vm_compute. reflexivity. }
  split; [exact HR|]. split; [|split].
  - apply (Ok_inv (fun sw => get_direct_dependencies under_usr_lib_or_System (heap sw.1) 0)
             _ _ _ Hcol). vm_compute. reflexivity.
  - assert (H1 : path (heap st !!! 1) = libfoo).
    { apply (Ok_inv (fun sw => path (heap sw.1 !!! 1)) _ _ _ Hcol). vm_compute. reflexivity. }
    assert (H2 : path (heap st !!! 2) = libfoo).
    { apply (Ok_inv (fun sw => path (heap sw.1 !!! 2)) _ _ _ Hcol). vm_compute. reflexivity. }
    by rewrite H1, H2.
  - rewrite HR. intros Hin.
    apply elem_of_cons in Hin as [Hin|Hin]; [lia|].
    apply elem_of_cons in Hin as [Hin|Hin]; [lia|]. by apply elem_of_nil in Hin.
Qed.

(** C2 on the cycle of [libA] and [libB]. *)
Lemma collect_terminates_on_cycle :
  0 < length [new_Dependency "libA.dylib" libA]
  ∧ closed_universe under_usr_lib_or_System cycle libA [libA; libB]
  ∧ 2 < 3
  ∧ ∃ st warnings,
      collect under_usr_lib_or_System cycle 3 false [new_Dependency "libA.dylib" libA] 0
      = Ok (st, warnings)
      ∧ stack st = []
      ∧ NoDup ((fun i => path (heap st !!! i)) <$> all_resolved st)
      ∧ ∀ p, p ∈ (fun i => path (heap st !!! i)) <$> all_resolved st
             ↔ reach under_usr_lib_or_System cycle libA p.
Proof.
  assert (H1 : 0 < length [new_Dependency "libA.dylib" libA]) by (simpl; lia).
  assert (H2 : closed_universe under_usr_lib_or_System cycle libA [libA; libB])
    by (apply (bool_decide_unpack _); vm_compute; exact I).
  assert (H3 : 2 < 3) by lia.
  split; [exact H1|]. split; [exact H2|]. split; [exact H3|].
  exact (proj2 (collect_terminates_with_closure under_usr_lib_or_System cycle
                  [new_Dependency "libA.dylib" libA] 0 [libA; libB] 3 false H1 H2 H3)).
Defined.

(** C4 on scenario 2: [libA] and [libB] name [libC] differently. *)
Lemma references_accumulate_in_scenario2 :
  ∃ st warnings,
    collect under_usr_lib_or_System scenario2 10 false [new_Dependency "bin/app" app] 0
    = Ok (st, warnings)
    ∧ (1 ∈ all_resolved st ∧ 2 ∈ all_resolved st
       ∧ ("/opt/lib/libC.dylib", libC) ∈ (scenario2 (path (heap st !!! 1))).1
       ∧ ("@rpath/libC.dylib", libC) ∈ (scenario2 (path (heap st !!! 2))).1
       ∧ under_usr_lib_or_System libC = false)
    ∧ ∃ m, m ∈ all_resolved st ∧ path (heap st !!! m) = libC
           ∧ "/opt/lib/libC.dylib" ∈ referred_as (heap st !!! m)
           ∧ "@rpath/libC.dylib" ∈ referred_as (heap st !!! m)
           ∧ m ∈ get_direct_dependencies under_usr_lib_or_System (heap st) 1
           ∧ m ∈ get_direct_dependencies under_usr_lib_or_System (heap st) 2.
Proof.
  destruct (Ok_exists (collect under_usr_lib_or_System scenario2 10 false
                         [new_Dependency "bin/app" app] 0)) as [[st w] Hcol];
    [vm_compute; reflexivity|].
  exists st, w. split; [exact Hcol|].
  assert (HR : all_resolved st = [0; 1; 2; 3]).
  { apply (Ok_inv (fun sw => all_resolved sw.1) _ _ _ Hcol). vm_compute. reflexivity. }
  assert (HpX : path (heap st !!! 1) = libA).
  { apply (Ok_inv (fun sw => path (heap sw.1 !!! 1)) _ _ _ Hcol). vm_compute. reflexivity. }
  assert (HpY : path (heap st !!! 2) = libB).
  { apply (Ok_inv (fun sw => path (heap sw.1 !!! 2)) _ _ _ Hcol). vm_compute. reflexivity. }
  assert (Hh : 1 ∈ all_resolved st ∧ 2 ∈ all_resolved st
       ∧ ("/opt/lib/libC.dylib", libC) ∈ (scenario2 (path (heap st !!! 1))).1
       ∧ ("@rpath/libC.dylib", libC) ∈ (scenario2 (path (heap st !!! 2))).1
       ∧ under_usr_lib_or_System libC = false).
  { rewrite HR, HpX, HpY. apply (bool_decide_unpack _). vm_compute. exact I. }
  split; [exact Hh|]. destruct Hh as (HX & HY & H1 & H2 & H3).
  destruct (references_accumulate under_usr_lib_or_System scenario2
              [new_Dependency "bin/app" app] 0 10 false st w 1 2
              "/opt/lib/libC.dylib" "@rpath/libC.dylib" libC
              ltac:(simpl; lia) Hcol HX HY H1 H2 H3)
    as (m & Hm & Hp & _ & Hr1 & Hr2 & HmX & HmY & _).
  exists m. repeat split; assumption.
Defined.

(** C5 on scenario 4, with a tool that fails on the copy of [libB]. *)
Lemma patch_failures_are_aggregated_in_scenario4 :
  dry_run args_app = false
  ∧ resolve_app (file args_app) = Some app
  ∧ ∃ st w,
      collect under_usr_lib_or_System scenario4 10 (verbose args_app)
        [new_Dependency (str (file args_app)) app] 0 = Ok (st, w)
      ∧ (prepatch_output under_usr_lib_or_System args_app (heap st) 0).2 = true
      ∧ let r := main under_usr_lib_or_System scenario4 nothing_exists
                   (tool_failing_on "/opt/app/bin/../libs/libB.dylib") ["opt"; "app"]
                   resolve_app 10 args_app in
        length (execs (m_events r)) = 4
        ∧ (∃ hint, m_stderr r = w ++ ["Error patching libB.dylib"] ++ hint)
        ∧ m_status r = Exit 1.
Proof.
  split; [reflexivity|]. split; [reflexivity|].
  destruct (Ok_exists (collect under_usr_lib_or_System scenario4 10 (verbose args_app)
                         [new_Dependency (str (file args_app)) app] 0)) as [[st w] Hcol];
    [vm_compute; reflexivity|].
  exists st, w. split; [exact Hcol|].
  assert (Hok : (prepatch_output under_usr_lib_or_System args_app (heap st) 0).2 = true).
  { apply (Ok_inv (fun sw => (prepatch_output under_usr_lib_or_System args_app
                                (heap sw.1) 0).2) _ _ _ Hcol). vm_compute. reflexivity. }
  split; [exact Hok|].
  destruct (patch_failures_are_aggregated under_usr_lib_or_System scenario4 nothing_exists
              (tool_failing_on "/opt/app/bin/../libs/libB.dylib") ["opt"; "app"]
              resolve_app 10 args_app app st w eq_refl eq_refl Hcol Hok)
    as (Hex & _ & (hint & Herr) & Hstatus).
  assert (Hitems : 0 :: get_dependencies under_usr_lib_or_System (heap st) 0 = [0; 1; 2; 3]).
  { apply (Ok_inv (fun sw => 0 :: get_dependencies under_usr_lib_or_System (heap sw.1) 0)
             _ _ _ Hcol). vm_compute. reflexivity. }
  assert (Hfailed :
    failing under_usr_lib_or_System
      (tool_failing_on "/opt/app/bin/../libs/libB.dylib") (heap st) 0
      (get_dest_and_loader_path ["opt"; "app"] (path (heap st !!! 0))
         (destination args_app)).1
      (get_dest_and_loader_path ["opt"; "app"] (path (heap st !!! 0))
         (destination args_app)).2
      (0 :: get_dependencies under_usr_lib_or_System (heap st) 0)
    = [(1%Z, "", "no such file", 2)]).
  { apply (Ok_inv (fun sw =>
      failing under_usr_lib_or_System
        (tool_failing_on "/opt/app/bin/../libs/libB.dylib") (heap sw.1) 0
        (get_dest_and_loader_path ["opt"; "app"] (path (heap sw.1 !!! 0))
           (destination args_app)).1
        (get_dest_and_loader_path ["opt"; "app"] (path (heap sw.1 !!! 0))
           (destination args_app)).2
        (0 :: get_dependencies under_usr_lib_or_System (heap sw.1) 0)) _ _ _ Hcol).
    vm_compute. reflexivity. }
  assert (Hname : name (path (heap st !!! 2)) = "libB.dylib").
  { apply (Ok_inv (fun sw => name (path (heap sw.1 !!! 2))) _ _ _ Hcol).
    vm_compute. reflexivity. }
  cbv zeta in *. rewrite Hfailed in Herr, Hstatus. rewrite Hitems in Hex.
  split; [by rewrite Hex|]. split; [|exact Hstatus].
  exists hint. rewrite Herr. cbn [map snd]. by rewrite Hname.
Defined.

(** Scenario 1, whatever the tool returns and whatever exists on disk:
    the arguments of the two processes and the one copy. The process for
    the root [app] is run on the root's own file and is given
    [-id @loader_path/app] like every other item, a [-change] of the
    reference to [libfoo.dylib] to the loader-relative path into the
    destination, and nothing for the system library. What
    [install_name_tool] then does to the load commands of the files is
    not part of this development. *)
Lemma scenario1_patch path_exists install_name_tool :
  let r := main under_usr_lib_or_System scenario1 path_exists install_name_tool
             ["opt"; "app"] resolve_app 10 args_app in
  execs (m_events r)
  = [["install_name_tool"; "/opt/app/bin/app"; "-id"; "@loader_path/app";
      "-change"; "/opt/foo/lib/libfoo.dylib"; "@loader_path/../libs/libfoo.dylib"];
     ["install_name_tool"; "/opt/app/bin/../libs/libfoo.dylib";
      "-id"; "@loader_path/libfoo.dylib"]]
  ∧ copies (m_events r)
    = [("/opt/foo/lib/libfoo.dylib", "/opt/app/bin/../libs/libfoo.dylib")].
Proof.
  destruct (Ok_exists (collect under_usr_lib_or_System scenario1 10 (verbose args_app)
                         [new_Dependency (str (file args_app)) app] 0)) as [[st w] Hcol];
    [vm_compute; reflexivity|].
  assert (Hok : (prepatch_output under_usr_lib_or_System args_app (heap st) 0).2 = true).
  { apply (Ok_inv (fun sw => (prepatch_output under_usr_lib_or_System args_app
                                (heap sw.1) 0).2) _ _ _ Hcol). vm_compute. reflexivity. }
  destruct (main_patches under_usr_lib_or_System scenario1 path_exists install_name_tool
              ["opt"; "app"] resolve_app 10 args_app app st w eq_refl eq_refl Hcol Hok)
    as [Hex Hcp].
  cbv zeta in *. rewrite Hex, Hcp. split.
  - apply (Ok_inv (fun sw =>
      map (patch_args under_usr_lib_or_System (heap sw.1) 0
             (get_dest_and_loader_path ["opt"; "app"] (path (heap sw.1 !!! 0))
                (destination args_app)).1
             (get_dest_and_loader_path ["opt"; "app"] (path (heap sw.1 !!! 0))
                (destination args_app)).2)
          (0 :: get_dependencies under_usr_lib_or_System (heap sw.1) 0)) _ _ _ Hcol).
    vm_compute. reflexivity.
  - pose (f := fun sw : collect_state * list string =>
      (fun item => (str (path (heap sw.1 !!! item)),
                    str (joinname
                           (get_dest_and_loader_path ["opt"; "app"]
                              (path (heap sw.1 !!! 0)) (destination args_app)).1
                           (name (path (heap sw.1 !!! item))))))
      <$> filter (fun item => ¬ dep_eq (heap sw.1) item 0)
                 (0 :: get_dependencies under_usr_lib_or_System (heap sw.1) 0)).
    apply (Ok_inv f _ (st, w) _ Hcol). vm_compute. reflexivity.
Qed.

(** C7, as stated, fails: without the verbose flag the unresolved path of
    scenario 3 is accumulated, but no line on stderr shows it. *)
Lemma unresolved_path_not_listed_without_verbose :
  ∃ st warnings,
    collect under_usr_lib_or_System scenario3 10 false [new_Dependency "bin/app" app] 0
    = Ok (st, warnings)
    ∧ failed_paths st = ["@rpath/libB.dylib"]
    ∧ warnings = ["Some of the paths in the dependency tree could not be resolved";
                  "Maybe you already bundled app?";
                  "Run with -v to see failed paths"]
    ∧ m_stderr (main under_usr_lib_or_System scenario3 nothing_exists tool_ok
                  ["opt"; "app"] resolve_app 10 args_app) = warnings.
Proof.
  destruct (Ok_exists (collect under_usr_lib_or_System scenario3 10 false
                         [new_Dependency "bin/app" app] 0)) as [[st w] Hcol];
    [vm_compute; reflexivity|].
  exists st, w. split; [exact Hcol|].
  assert (Hw : w = ["Some of the paths in the dependency tree could not be resolved";
                    "Maybe you already bundled app?";
                    "Run with -v to see failed paths"]).
  { apply (Ok_inv snd _ _ _ Hcol). vm_compute. reflexivity. }
  split; [|split; [exact Hw|]].
  - apply (Ok_inv (fun sw => failed_paths sw.1) _ _ _ Hcol). vm_compute. reflexivity.
  - rewrite Hw. vm_compute. reflexivity.
Qed.

(** C7 (amended) on scenario 3, with the verbose flag. *)
Lemma unresolved_references_in_scenario3 :
  0 < length [new_Dependency "bin/app" app]
  ∧ ∃ st warnings,
      collect under_usr_lib_or_System scenario3 10 (verbose args_app_verbose)
        [new_Dependency "bin/app" app] 0 = Ok (st, warnings)
      ∧ collect under_usr_lib_or_System (without_failures scenario3) 10
          (verbose args_app_verbose) [new_Dependency "bin/app" app] 0
        = Ok (forget_failures st, [])
      ∧ failed_paths st = ["@rpath/libB.dylib"]
      ∧ warnings = ["Some of the paths in the dependency tree could not be resolved";
                    "Maybe you already bundled app?";
                    "Could not resolve @rpath/libB.dylib"].
Proof.
  assert (H0 : 0 < length [new_Dependency "bin/app" app]) by (simpl; lia).
  split; [exact H0|].
  destruct (Ok_exists (collect under_usr_lib_or_System scenario3 10
                         (verbose args_app_verbose)
                         [new_Dependency "bin/app" app] 0)) as [[st w] Hcol];
    [vm_compute; reflexivity|].
  exists st, w. split; [exact Hcol|].
  destruct (unresolved_references_are_reported_not_fatal under_usr_lib_or_System scenario3
              nothing_exists tool_ok ["opt"; "app"] resolve_app 10 args_app_verbose)
    as (_ & _ & _ & Hrep).
  destruct (Hrep [new_Dependency "bin/app" app] 0 st w H0 Hcol) as (Hquiet & Hf & Hw).
  split; [exact Hquiet|].
  assert (Hfp : failed_paths st = ["@rpath/libB.dylib"]).
  { apply (Ok_inv (fun sw => failed_paths sw.1) _ _ _ Hcol). vm_compute. reflexivity. }
  assert (Hn : name (path (heap st !!! 0)) = "app").
  { apply (Ok_inv (fun sw => name (path (heap sw.1 !!! 0))) _ _ _ Hcol).
    vm_compute. reflexivity. }
  split; [exact Hfp|]. rewrite Hw, Hfp, Hn. reflexivity.
Defined.

(** C8, as stated, fails for the root: a root that is itself classified as
    a system library is resolved and handed to the Patch Primitive. *)
Lemma system_root_is_resolved_and_patched :
  ∃ st warnings,
    collect under_usr_lib_or_System scenario1 10 false
      [new_Dependency "libSystem.B.dylib" libSystem] 0 = Ok (st, warnings)
    ∧ all_resolved st = [0]
    ∧ is_sys under_usr_lib_or_System (heap st) 0 = true
    ∧ execs (m_events (main under_usr_lib_or_System scenario1 nothing_exists tool_ok
                         ["usr"; "lib"] resolve_libs 10 (args_lib "libSystem.B.dylib")))
      = [["install_name_tool"; "/usr/lib/libSystem.B.dylib"; "-id";
          "@loader_path/libSystem.B.dylib"]].
Proof.
  destruct (Ok_exists (collect under_usr_lib_or_System scenario1 10 false
                         [new_Dependency "libSystem.B.dylib" libSystem] 0))
    as [[st w] Hcol]; [vm_compute; reflexivity|].
  exists st, w. split; [exact Hcol|]. split; [|split].
  - apply (Ok_inv (fun sw => all_resolved sw.1) _ _ _ Hcol). vm_compute. reflexivity.
  - apply (Ok_inv (fun sw => is_sys under_usr_lib_or_System (heap sw.1) 0) _ _ _ Hcol).
    vm_compute. reflexivity.
  - vm_compute. reflexivity.
Qed.

(** C8 (amended) on scenario 1. *)
Lemma system_nodes_stay_out_of_scenario1 :
  0 < length [new_Dependency "bin/app" app]
  ∧ (∀ st i,
       loop_state under_usr_lib_or_System scenario1 [new_Dependency "bin/app" app] 0 st →
       i ∈ all_resolved st ++ concat (stack st) → i ≠ 0 →
       is_sys under_usr_lib_or_System (heap st) i = false)
  ∧ (∀ h' item d, d ∈ get_direct_dependencies under_usr_lib_or_System h' item →
                  is_sys under_usr_lib_or_System h' d = false)
  ∧ (∀ v h' root dest rlp pargs,
       pargs ∈ execs (p_events (patch under_usr_lib_or_System nothing_exists tool_ok
                                  v h' root dest rlp)) →
       ∃ item, pargs = patch_args under_usr_lib_or_System h' root dest rlp item
               ∧ (item = root ∨ is_sys under_usr_lib_or_System h' item = false)).
Proof.
  assert (H0 : 0 < length [new_Dependency "bin/app" app]) by (simpl; lia).
  split; [exact H0|].
  exact (system_nodes_stay_out under_usr_lib_or_System scenario1 nothing_exists tool_ok
           [new_Dependency "bin/app" app] 0 H0).
Defined.

(** C9: a dry run, without [-v], on [libA.dylib] when [libA] needs [libB]
    and [libB] needs [libA]. Discovery returns and the "Patching" line and
    the count are printed, but no line of the listing: [deps.index(d)] at
    line 123 raises [ValueError] for the root, and the run ends there. *)
Lemma dry_run_on_cycle_prints_no_listing :
  let args := {| file := relative ["libA.dylib"]; verbose := false; dry_run := true;
                 destination := relative [".."; "libs"] |} in
  let r := main under_usr_lib_or_System cycle nothing_exists tool_ok ["opt"; "lib"]
                resolve_libs 10 args in
  resolve_libs (file args) = Some libA
  ∧ (∃ st w, collect under_usr_lib_or_System cycle 10 false
               [new_Dependency (str (file args)) libA] 0 = Ok (st, w)
             ∧ all_resolved st = [0; 1])
  ∧ m_stdout r = ["Patching libA.dylib"; "1 total non-system dependency"]
  ∧ m_status r = Uncaught_ValueError
  ∧ m_events r = [].
Proof.
  intros args r. split; [reflexivity|]. split.
  - destruct (Ok_exists (collect under_usr_lib_or_System cycle 10 false
                           [new_Dependency (str (file args)) libA] 0))
      as [[st w] Hcol]; [vm_compute; reflexivity|].
    exists st, w. split; [exact Hcol|].
    apply (Ok_inv (fun sw => all_resolved sw.1) _ _ _ Hcol). vm_compute. reflexivity.
  - split; [|split]; vm_compute; reflexivity.
Qed.


(** C10, as stated, fails for an edge of the root to itself: in a run on
    [libA.dylib], which names itself among its references, with the
    absolute destination [/opt/bundle], the root has itself as a direct
    dependency, lines 94-95 give [@loader_path] as the new directory of
    that edge, and the process started for the root is asked to change
    the reference to the loader-relative [@loader_path/libA.dylib], not to
    a path under the destination. *)
Lemma root_self_reference_stays_loader_relative :
  let dest := absolute ["opt"; "bundle"] in
  let r := main under_usr_lib_or_System selfish nothing_exists tool_ok ["opt"; "lib"]
                resolve_libs 10 (args_lib "libA.dylib") in
  destination (args_lib "libA.dylib") = dest
  ∧ is_absolute dest = true
  ∧ ∃ st warnings,
      collect under_usr_lib_or_System selfish 10 false
        [new_Dependency (str (file (args_lib "libA.dylib"))) libA] 0 = Ok (st, warnings)
      ∧ 0 ∈ get_direct_dependencies under_usr_lib_or_System (heap st) 0
      ∧ "/opt/lib/libA.dylib" ∈ referred_as (heap st !!! 0)
      ∧ new_path (heap st) 0 dest 0 0 = loader_path
      ∧ patch_args under_usr_lib_or_System (heap st) 0 dest dest 0 ∈ execs (m_events r)
      ∧ ∃ pre post,
          patch_args under_usr_lib_or_System (heap st) 0 dest dest 0
          = pre ++ ["-change"; "/opt/lib/libA.dylib"; "@loader_path/libA.dylib"] ++ post.
Proof.
  intros dest r. split; [reflexivity|]. split; [reflexivity|].
  destruct (Ok_exists (collect under_usr_lib_or_System selfish 10 false
                         [new_Dependency (str (file (args_lib "libA.dylib"))) libA] 0))
    as [[st w] Hcol]; [vm_compute; reflexivity|].
  exists st, w. split; [exact Hcol|].
  assert (Hdep : 0 ∈ get_direct_dependencies under_usr_lib_or_System (heap st) 0).
  { apply (Ok_holds (fun sw : collect_state * list string =>
             0 ∈ get_direct_dependencies under_usr_lib_or_System (heap sw.1) 0) _ _ Hcol). vm_compute. reflexivity. }
  assert (Href : "/opt/lib/libA.dylib" ∈ referred_as (heap st !!! 0)).
  { apply (Ok_holds (fun sw : collect_state * list string =>
             "/opt/lib/libA.dylib" ∈ referred_as (heap sw.1 !!! 0)) _ _ Hcol).
    vm_compute. reflexivity. }
  split; [exact Hdep|]. split; [exact Href|]. split; [|split].
  - apply (Ok_inv (fun sw => new_path (heap sw.1) 0 dest 0 0) _ _ _ Hcol).
    vm_compute. reflexivity.
  - apply (Ok_holds (fun sw : collect_state * list string =>
             patch_args under_usr_lib_or_System (heap sw.1) 0 dest dest 0 ∈ execs (m_events r)) _ _ Hcol).
    vm_compute. reflexivity.
  - destruct (patch_args_new_path under_usr_lib_or_System (heap st) 0 dest dest 0 0
                "/opt/lib/libA.dylib" Hdep Href) as (pre & post & Hargs).
    assert (Hs : str (joinname (new_path (heap st) 0 dest 0 0)
                               (name (path (heap st !!! 0))))
                 = "@loader_path/libA.dylib").
    { apply (Ok_inv (fun sw => str (joinname (new_path (heap sw.1) 0 dest 0 0)
                                      (name (path (heap sw.1 !!! 0))))) _ _ _ Hcol).
      vm_compute. reflexivity. }
    rewrite Hs in Hargs. by exists pre, post.
Qed.

(** C10 (amended) on scenario 1, with an absolute destination and with
    the default, relative one: the edge of [app] to [libfoo.dylib]. *)
Lemma dest_and_loader_path_examples :
  let abs := absolute ["opt"; "bundle"] in
  let rel := relative [".."; "libs"] in
  (is_absolute abs = true ∧ is_absolute rel = false)
  ∧ ∃ st w,
      collect under_usr_lib_or_System scenario1 10 false [new_Dependency "bin/app" app] 0
      = Ok (st, w)
      ∧ (1 ∈ get_direct_dependencies under_usr_lib_or_System (heap st) 0
         ∧ ¬ dep_eq (heap st) 1 0
         ∧ "/opt/foo/lib/libfoo.dylib" ∈ referred_as (heap st !!! 1))
      ∧ (get_dest_and_loader_path ["opt"; "app"] app abs = (abs, abs)
         ∧ ∃ pre post,
             patch_args under_usr_lib_or_System (heap st) 0 abs abs 0
             = pre ++ ["-change"; "/opt/foo/lib/libfoo.dylib"; "/opt/bundle/libfoo.dylib"]
                   ++ post)
      ∧ (get_dest_and_loader_path ["opt"; "app"] app rel
         = (absolute ["opt"; "app"; "bin"; ".."; "libs"],
            relative ["@loader_path"; ".."; "libs"])
         ∧ ∃ pre post,
             patch_args under_usr_lib_or_System (heap st) 0
               (absolute ["opt"; "app"; "bin"; ".."; "libs"])
               (relative ["@loader_path"; ".."; "libs"]) 0
             = pre ++ ["-change"; "/opt/foo/lib/libfoo.dylib";
                       "@loader_path/../libs/libfoo.dylib"] ++ post).
Proof.
  intros abs rel. split; [split; reflexivity|].
  destruct (Ok_exists (collect under_usr_lib_or_System scenario1 10 false
                         [new_Dependency "bin/app" app] 0)) as [[st w] Hcol];
    [vm_compute; reflexivity|].
  exists st, w. split; [exact Hcol|].
  assert (Hdep : 1 ∈ get_direct_dependencies under_usr_lib_or_System (heap st) 0).
  { apply (Ok_holds (fun sw : collect_state * list string =>
             1 ∈ get_direct_dependencies under_usr_lib_or_System (heap sw.1) 0) _ _ Hcol). vm_compute. reflexivity. }
  assert (Hne : ¬ dep_eq (heap st) 1 0).
  { apply (Ok_holds (fun sw : collect_state * list string =>
             ¬ dep_eq (heap sw.1) 1 0) _ _ Hcol).
    vm_compute. reflexivity. }
  assert (Href : "/opt/foo/lib/libfoo.dylib" ∈ referred_as (heap st !!! 1)).
  { apply (Ok_holds (fun sw : collect_state * list string =>
             "/opt/foo/lib/libfoo.dylib" ∈ referred_as (heap sw.1 !!! 1)) _ _ Hcol).
    vm_compute. reflexivity. }
  assert (Hname : name (path (heap st !!! 1)) = "libfoo.dylib").
  { apply (Ok_inv (fun sw => name (path (heap sw.1 !!! 1))) _ _ _ Hcol).
    vm_compute. reflexivity. }
  split; [by repeat split|].
  pose proof (dest_and_loader_path_cases under_usr_lib_or_System nothing_exists tool_ok
                ["opt"; "app"] app abs) as Ha.
  pose proof (dest_and_loader_path_cases under_usr_lib_or_System nothing_exists tool_ok
                ["opt"; "app"] app rel) as Hr.
  cbv zeta in Ha, Hr.
  destruct Ha as [Ha _]. destruct (Ha eq_refl) as [Hdl Hedges].
  destruct Hr as [_ [Hr _]]. destruct (Hr eq_refl) as (Hdl' & _ & Hedges').
  split.
  - split; [exact Hdl|].
    destruct (Hedges false (heap st) 0 1 "/opt/foo/lib/libfoo.dylib" Hdep Hne Href)
      as (_ & _ & pre & post & s & Hargs & _).
    rewrite Hdl in Hargs. cbn [fst snd] in Hargs. rewrite Hname in Hargs.
    exists pre, post. exact Hargs.
  - assert (E : get_dest_and_loader_path ["opt"; "app"] app rel
                = (absolute ["opt"; "app"; "bin"; ".."; "libs"],
                   relative ["@loader_path"; ".."; "libs"])) by (vm_compute; reflexivity).
    split; [exact E|].
    destruct (Hedges' false (heap st) 0 1 "/opt/foo/lib/libfoo.dylib" Hdep Hne Href)
      as (_ & _ & pre & post & s & Hargs & _).
    rewrite E in Hargs. cbn [fst snd] in Hargs. rewrite Hname in Hargs.
    exists pre, post. exact Hargs.
Defined.

(** ** The further properties on the scenarios *)

(** X13. For a root path that is absolute, as [resolve(strict=True)]
    returns it, the destination and the loader path do not depend on the
    working directory, although [os.path.relpath] consults it for
    relative paths, and the destination returned is absolute. *)
Theorem dest_and_loader_path_ignores_cwd cwd1 cwd2 root_dep_path dest_path :
  is_absolute root_dep_path = true →
  get_dest_and_loader_path cwd1 root_dep_path dest_path
  = get_dest_and_loader_path cwd2 root_dep_path dest_path
  ∧ is_absolute (get_dest_and_loader_path cwd1 root_dep_path dest_path).1 = true.
Proof.
  unfold is_absolute, get_dest_and_loader_path, is_absolute. intros Hroot.
  destruct (anchored dest_path) eqn:Hdest; [done|].
  unfold relpath, abspath, joinpath, parent. rewrite Hdest. cbn [anchored parts fst].
  by rewrite Hroot.
Qed.

(** X13 for the root of scenario 1 and two working directories. *)
Lemma dest_and_loader_path_ignores_cwd_example :
  is_absolute app = true
  ∧ get_dest_and_loader_path ["opt"; "app"] app (relative [".."; "libs"])
    = get_dest_and_loader_path ["home"; "user"] app (relative [".."; "libs"])
  ∧ is_absolute (get_dest_and_loader_path ["opt"; "app"] app (relative [".."; "libs"])).1
    = true.
Proof.
  split; [reflexivity|].
  apply (dest_and_loader_path_ignores_cwd ["opt"; "app"] ["home"; "user"] app
           (relative [".."; "libs"])). reflexivity.
Defined.

(** X1 on the cycle of [libA] and [libB], and with no fuel at all. *)
Lemma collect_never_raises_on_cycle :
  0 < length [new_Dependency "libA.dylib" libA]
  ∧ collect under_usr_lib_or_System cycle 10 false [new_Dependency "libA.dylib" libA] 0
    ≠ ValueError
  ∧ collect under_usr_lib_or_System cycle 0 false [new_Dependency "libA.dylib" libA] 0
    ≠ ValueError.
Proof.
  assert (H : 0 < length [new_Dependency "libA.dylib" libA]) by (simpl; lia).
  split; [exact H|].
  split; by apply collect_never_raises_ValueError.
Defined.

(** X2 on the state after the first round of scenario 2. *)
Lemma stack_after_first_round_of_scenario2 :
  0 < length [new_Dependency "bin/app" app]
  ∧ ∃ st,
      loop_state under_usr_lib_or_System scenario2 [new_Dependency "bin/app" app] 0 st
      ∧ stack st = [[1; 2]]
      ∧ length (stack st) ≤ 1
      ∧ Forall (fun W => W ≠ []) (stack st)
      ∧ ∃ tl, all_resolved st ++ concat (stack st) = 0 :: tl.
Proof.
  assert (H : 0 < length [new_Dependency "bin/app" app]) by (simpl; lia).
  split; [exact H|].
  destruct (Ok_exists (wave under_usr_lib_or_System scenario2
                         {| heap := [new_Dependency "bin/app" app]; failed_paths := [];
                            all_resolved := []; stack := [[0]] |} [0] []))
    as [st Hw]; [vm_compute; reflexivity|].
  exists st.
  assert (Hls : loop_state under_usr_lib_or_System scenario2
                  [new_Dependency "bin/app" app] 0 st).
  { eapply loop_wave; [apply loop_init|reflexivity|exact Hw]. }
  split; [exact Hls|]. split.
  - apply (Ok_inv stack _ _ _ Hw). vm_compute. reflexivity.
  - exact (stack_holds_one_frontier under_usr_lib_or_System scenario2
             [new_Dependency "bin/app" app] 0 st H Hls).
Defined.

(** X3 on scenario 2, where no file names a file twice. *)
Lemma edges_resolved_in_scenario2 :
  0 < length [new_Dependency "bin/app" app]
  ∧ closed_universe under_usr_lib_or_System scenario2 app [app; libA; libB; libC]
  ∧ Forall (fun p => NoDup (filter (fun q => under_usr_lib_or_System q = false)
                                   (snd <$> (scenario2 p).1)))
           [app; libA; libB; libC]
  ∧ ∃ st warnings,
      collect under_usr_lib_or_System scenario2 10 false [new_Dependency "bin/app" app] 0
      = Ok (st, warnings)
      ∧ (∀ a b, a ∈ all_resolved st → b ∈ all_resolved st →
                path (heap st !!! a) = path (heap st !!! b) → a = b)
      ∧ (∀ i e, i ∈ all_resolved st →
                e ∈ get_direct_dependencies under_usr_lib_or_System (heap st) i →
                e ∈ all_resolved st).
Proof.
  assert (H1 : 0 < length [new_Dependency "bin/app" app]) by (simpl; lia).
  assert (H2 : closed_universe under_usr_lib_or_System scenario2 app
                 [app; libA; libB; libC])
    by (apply (bool_decide_unpack _); vm_compute; exact I).
  assert (H3 : Forall (fun p => NoDup (filter (fun q => under_usr_lib_or_System q = false)
                                              (snd <$> (scenario2 p).1)))
                      [app; libA; libB; libC])
    by (apply (bool_decide_unpack _); vm_compute; exact I).
  split; [exact H1|]. split; [exact H2|]. split; [exact H3|].
  destruct (Ok_exists (collect under_usr_lib_or_System scenario2 10 false
                         [new_Dependency "bin/app" app] 0)) as [[st w] Hcol];
    [vm_compute; reflexivity|].
  exists st, w. split; [exact Hcol|].
  exact (edges_resolved_without_repeated_references under_usr_lib_or_System scenario2
           [new_Dependency "bin/app" app] 0 10 false st w [app; libA; libB; libC]
           H1 H2 H3 Hcol).
Defined.

(** X4 on scenario 1. *)
Lemma main_patches_resolved_in_scenario1 :
  dry_run args_app = false
  ∧ resolve_app (file args_app) = Some app
  ∧ ∃ st w,
      collect under_usr_lib_or_System scenario1 10 (verbose args_app)
        [new_Dependency (str (file args_app)) app] 0 = Ok (st, w)
      ∧ (prepatch_output under_usr_lib_or_System args_app (heap st) 0).2 = true
      ∧ all_resolved st = [0; 1]
      ∧ execs (m_events (main under_usr_lib_or_System scenario1 nothing_exists tool_ok
                           ["opt"; "app"] resolve_app 10 args_app))
        = map (patch_args under_usr_lib_or_System (heap st) 0
                 (get_dest_and_loader_path ["opt"; "app"] (path (heap st !!! 0))
                    (destination args_app)).1
                 (get_dest_and_loader_path ["opt"; "app"] (path (heap st !!! 0))
                    (destination args_app)).2)
              (all_resolved st).
Proof.
  split; [reflexivity|]. split; [reflexivity|].
  destruct (Ok_exists (collect under_usr_lib_or_System scenario1 10 (verbose args_app)
                         [new_Dependency (str (file args_app)) app] 0)) as [[st w] Hcol];
    [vm_compute; reflexivity|].
  exists st, w. split; [exact Hcol|].
  assert (Hok : (prepatch_output under_usr_lib_or_System args_app (heap st) 0).2 = true).
  { apply (Ok_inv (fun sw => (prepatch_output under_usr_lib_or_System args_app
                                (heap sw.1) 0).2) _ _ _ Hcol). vm_compute. reflexivity. }
  split; [exact Hok|]. split.
  - apply (Ok_inv (fun sw => all_resolved sw.1) _ _ _ Hcol). vm_compute. reflexivity.
  - exact (main_patches_resolved under_usr_lib_or_System scenario1 nothing_exists tool_ok
             ["opt"; "app"] resolve_app 10 args_app app st w eq_refl eq_refl Hcol Hok).
Defined.

(** X7 on two libraries of one name in two directories, and on two of
    different names. *)
Lemma copy_targets_collide_example :
  let h := [new_Dependency "bin/app" app;
            new_Dependency "/opt/a/libx.dylib" (absolute ["opt"; "a"; "libx.dylib"]);
            new_Dependency "/opt/b/libx.dylib" (absolute ["opt"; "b"; "libx.dylib"]);
            new_Dependency "/opt/lib/libA.dylib" libA] in
  let dest := absolute ["opt"; "bundle"] in
  (¬ dep_eq h 1 0 ∧ ¬ dep_eq h 2 0 ∧ ¬ dep_eq h 3 0
   ∧ name (path (h !!! 1)) ≠ "" ∧ name (path (h !!! 2)) ≠ "" ∧ name (path (h !!! 3)) ≠ "")
  ∧ patch_args under_usr_lib_or_System h 0 dest dest 1 !! 1
    = patch_args under_usr_lib_or_System h 0 dest dest 2 !! 1
  ∧ patch_args under_usr_lib_or_System h 0 dest dest 1 !! 1
    ≠ patch_args under_usr_lib_or_System h 0 dest dest 3 !! 1.
Proof.
  intros h dest.
  assert (H : ¬ dep_eq h 1 0 ∧ ¬ dep_eq h 2 0 ∧ ¬ dep_eq h 3 0
              ∧ name (path (h !!! 1)) ≠ "" ∧ name (path (h !!! 2)) ≠ ""
              ∧ name (path (h !!! 3)) ≠ "")
    by (apply (bool_decide_unpack _); vm_compute; exact I).
  split; [exact H|]. destruct H as (H1 & H2 & H3 & N1 & N2 & N3). split.
  - apply (copy_targets_collide_iff_names_equal under_usr_lib_or_System h 0 dest dest 1 2
             H1 H2 N1 N2). reflexivity.
  - intros Heq.
    apply (copy_targets_collide_iff_names_equal under_usr_lib_or_System h 0 dest dest 1 3
             H1 H3 N1 N3) in Heq. discriminate Heq.
Defined.

(** X10 on the cycle of [libA] and [libB] with [libA] as the root: [libB]
    refers back to the root, and the run without [-v] ends with the
    uncaught [ValueError]. *)
Lemma main_raises_on_cycle :
  resolve_libs (file (args_lib "libA.dylib")) = Some libA
  ∧ ∃ st w,
      collect under_usr_lib_or_System cycle 10 (verbose (args_lib "libA.dylib"))
        [new_Dependency (str (file (args_lib "libA.dylib"))) libA] 0 = Ok (st, w)
      ∧ (verbose (args_lib "libA.dylib") = false
         ∧ ∃ i r, i ∈ all_resolved st ∧ i ≠ 0
                  ∧ (r, libA) ∈ (cycle (path (heap st !!! i))).1
                  ∧ under_usr_lib_or_System libA = false)
      ∧ m_status (main under_usr_lib_or_System cycle nothing_exists tool_ok
                    ["opt"; "lib"] resolve_libs 10 (args_lib "libA.dylib"))
        = Uncaught_ValueError.
Proof.
  split; [reflexivity|].
  destruct (Ok_exists (collect under_usr_lib_or_System cycle 10
                         (verbose (args_lib "libA.dylib"))
                         [new_Dependency (str (file (args_lib "libA.dylib"))) libA] 0))
    as [[st w] Hcol]; [vm_compute; reflexivity|].
  exists st, w. split; [exact Hcol|].
  assert (HR : all_resolved st = [0; 1]).
  { apply (Ok_inv (fun sw => all_resolved sw.1) _ _ _ Hcol). vm_compute. reflexivity. }
  assert (Hp : path (heap st !!! 1) = libB).
  { apply (Ok_inv (fun sw => path (heap sw.1 !!! 1)) _ _ _ Hcol). vm_compute. reflexivity. }
  assert (Hback : verbose (args_lib "libA.dylib") = false
         ∧ ∃ i r, i ∈ all_resolved st ∧ i ≠ 0
                  ∧ (r, libA) ∈ (cycle (path (heap st !!! i))).1
                  ∧ under_usr_lib_or_System libA = false).
  { split; [reflexivity|]. exists 1, "/opt/lib/libA.dylib". rewrite HR, Hp.
    apply (bool_decide_unpack _). vm_compute. exact I. }
  split; [exact Hback|].
  exact (proj2 (main_raises_iff_back_reference under_usr_lib_or_System cycle nothing_exists
                  tool_ok ["opt"; "lib"] resolve_libs 10 (args_lib "libA.dylib") libA st w
                  eq_refl Hcol) Hback).
Defined.

(** X11 on scenario 1 with a tool that succeeds. *)
Lemma success_count_in_scenario1 :
  dry_run args_app = false
  ∧ resolve_app (file args_app) = Some app
  ∧ ∃ st w,
      collect under_usr_lib_or_System scenario1 10 (verbose args_app)
        [new_Dependency (str (file args_app)) app] 0 = Ok (st, w)
      ∧ (prepatch_output under_usr_lib_or_System args_app (heap st) 0).2 = true
      ∧ let r := main under_usr_lib_or_System scenario1 nothing_exists tool_ok
                   ["opt"; "app"] resolve_app 10 args_app in
        m_status r = Exit 0
        ∧ length (execs (m_events r)) = S (length (copies (m_events r)))
        ∧ ∃ out, m_stdout r
                 = out ++ [""; success_line args_app (length (copies (m_events r)))].
Proof.
  split; [reflexivity|]. split; [reflexivity|].
  destruct (Ok_exists (collect under_usr_lib_or_System scenario1 10 (verbose args_app)
                         [new_Dependency (str (file args_app)) app] 0)) as [[st w] Hcol];
    [vm_compute; reflexivity|].
  exists st, w. split; [exact Hcol|].
  assert (Hok : (prepatch_output under_usr_lib_or_System args_app (heap st) 0).2 = true).
  { apply (Ok_inv (fun sw => (prepatch_output under_usr_lib_or_System args_app
                                (heap sw.1) 0).2) _ _ _ Hcol). vm_compute. reflexivity. }
  split; [exact Hok|].
  destruct (success_count_is_number_of_copies under_usr_lib_or_System scenario1
              nothing_exists tool_ok ["opt"; "app"] resolve_app 10 args_app app st w
              eq_refl eq_refl Hcol Hok) as (_ & Hn & Hout).
  assert (Hst : m_status (main under_usr_lib_or_System scenario1 nothing_exists tool_ok
                            ["opt"; "app"] resolve_app 10 args_app) = Exit 0)
    by (vm_compute; reflexivity).
  cbv zeta. split; [exact Hst|]. split; [exact Hn|]. exact (Hout Hst).
Defined.

(** X12 on the default destination of scenario 1. *)
Lemma loader_path_leads_to_libs :
  is_absolute (relative [".."; "libs"]) = false
  ∧ ∃ rel,
      (get_dest_and_loader_path ["home"; "user"] app (relative [".."; "libs"])).2
      = {| anchored := false; parts := "@loader_path" :: rel |}
      ∧ normpath true (abspath ["home"; "user"] (parent app) ++ rel)
        = abspath ["home"; "user"]
            (get_dest_and_loader_path ["home"; "user"] app (relative [".."; "libs"])).1.
Proof.
  split; [reflexivity|].
  exact (loader_path_leads_to_destination ["home"; "user"] app (relative [".."; "libs"])
           eq_refl).
Defined.

(** X14 on scenario 2: the node of [libC] holds the two strings by which
    [libA] and [libB] name it, and no other. *)
Lemma reference_strings_in_scenario2 :
  0 < length [new_Dependency "bin/app" app]
  ∧ ∃ st w,
      collect under_usr_lib_or_System scenario2 10 false [new_Dependency "bin/app" app] 0
      = Ok (st, w)
      ∧ 3 ∈ all_resolved st
      ∧ ∀ r, r ∈ referred_as (heap st !!! 3)
             ↔ (3 = 0 ∧ r ∈ referred_as ([new_Dependency "bin/app" app] !!! 0))
               ∨ (under_usr_lib_or_System (path (heap st !!! 3)) = false
                  ∧ ∃ c, c ∈ all_resolved st
                         ∧ (r, path (heap st !!! 3)) ∈ (scenario2 (path (heap st !!! c))).1).
Proof.
  assert (H : 0 < length [new_Dependency "bin/app" app]) by (simpl; lia).
  split; [exact H|].
  destruct (Ok_exists (collect under_usr_lib_or_System scenario2 10 false
                         [new_Dependency "bin/app" app] 0)) as [[st w] Hcol];
    [vm_compute; reflexivity|].
  exists st, w. split; [exact Hcol|].
  assert (HR : all_resolved st = [0; 1; 2; 3]).
  { apply (Ok_inv (fun sw => all_resolved sw.1) _ _ _ Hcol). vm_compute. reflexivity. }
  assert (Hm : 3 ∈ all_resolved st).
  { rewrite HR. apply (bool_decide_unpack _). vm_compute. exact I. }
  split; [exact Hm|]. intros r.
  exact (reference_strings_are_used under_usr_lib_or_System scenario2
           [new_Dependency "bin/app" app] 0 10 false st w 3 r H Hcol Hm).
Defined.

(** X15 on the destination [libs] beside the root of scenario 1. *)
Lemma plain_destination_example :
  is_absolute (relative ["libs"]) = false
  ∧ normalised (parts (relative ["libs"]))
  ∧ get_dest_and_loader_path ["home"; "user"] app (relative ["libs"])
    = (absolute ["opt"; "app"; "bin"; "libs"], relative ["@loader_path"; "libs"]).
Proof.
  assert (H : normalised (parts (relative ["libs"]))).
  { unfold normalised. apply (bool_decide_unpack _). vm_compute. exact I. }
  split; [reflexivity|]. split; [exact H|].
  rewrite (plain_destination_is_kept ["home"; "user"] app (relative ["libs"]) eq_refl H).
  vm_compute. reflexivity.
Defined.
